(** * Messenger-RNA shape segments and attachment protocol

    A shallow embedding of the strand engine of gene-expression-basics:
    [FlatSegment] (add, remove, advance, advanceAndRemove, maxOutLength),
    [PointMass] and the [MessengerRna] facade (advanceTranslation,
    advanceDestruction, reduceLength, getProportionOfRnaTranslated,
    getRibosomeAttachmentLocation, the considerProposalFrom... handshake
    and abortDestruction).  Beside the strand it embeds ShapeUtils and the
    outline of RnaPolymerase, MotionBounds, the
    DestroyerTrackingRnaMotionStrategy, the step of the
    RandomWalkMotionStrategy and the fading of MobileBiomoleculeNode.

    Conventions of the model.
    - A JavaScript number is an exact rational ([Q]); rounding is not
      modelled.  The one operation of the modelled code that can leave the
      finite numbers is the division in getProportionOfRnaTranslated, whose
      result is a [JsNumber].
    - Segments are objects with identity.  The strand keeps them in a store
      ([segmentObjects], keyed by an object id) and [shapeSegments] is the
      array of references; a segment spliced out of the array is still
      alive and can still be read or written through a reference.
    - An uncaught exception is an outcome of its own ([Throws]) that
      carries the state reached when it was raised.
    - [assert && assert( ... )] lines are development checks: [assert] is
      null unless assertions are switched on, and the model follows the
      build without them.
    - The methods of FlatSegment are modelled as they are declared, with
      the strand for [windingBiomolecule] and its array of segments for
      [shapeSegmentList].  MessengerRna.js calls
      [advance( length, this.shapeSegments )] and
      [advanceAndRemove( reductionAmount, this.shapeSegments )], and these
      two calls are modelled as they are written: the array arrives as
      [windingBiomolecule] and the first statement of the method raises a
      TypeError. *)

From Stdlib Require Import QArith Qminmax Lqa ZArith Lia.
From stdpp Require Import gmap list strings.

Local Open Scope Q_scope.

(** ** Vectors and bounds (DOT/Vector2, DOT/Bounds2) *)

Record Vector2 := mkVector2 { v_x : Q; v_y : Q }.

Record Bounds2 := mkBounds2 { minX : Q; minY : Q; maxX : Q; maxY : Q }.

Definition setMinMax (x0 y0 x1 y1 : Q) : Bounds2 := mkBounds2 x0 y0 x1 y1.

Definition getWidth (b : Bounds2) : Q := maxX b - minX b.

Definition getHeight (b : Bounds2) : Q := maxY b - minY b.

(** [dx*dx + dy*dy]: the square of [Vector2.distance].  The source only
    compares a distance with a non-negative constant [d], and
    [sqrt s < d] holds exactly when [s < d*d]. *)
Definition distanceSquared (p q : Vector2) : Q :=
  (v_x p - v_x q) * (v_x p - v_x q) + (v_y p - v_y q) * (v_y p - v_y q).

(** ** JavaScript numbers outside the rationals *)

Inductive JsNumber :=
| Finite (q : Q)
| PosInfinity
| NegInfinity
| NaN.

(** [a / b] on finite doubles: a zero divisor gives an infinity, or NaN
    for [0 / 0]. *)
Definition jsDivide (a b : Q) : JsNumber :=
  match Qeq_dec b 0 with
  | left _ =>
      match Q_dec a 0 with
      | inleft (left _) => NegInfinity
      | inleft (right _) => PosInfinity
      | inright _ => NaN
      end
  | right _ => Finite (a / b)
  end.

(** [Math.max( n, q )] for a finite [q]. *)
Definition jsMax (n : JsNumber) (q : Q) : JsNumber :=
  match n with
  | Finite p => Finite (Qmax p q)
  | PosInfinity => PosInfinity
  | NegInfinity => Finite q
  | NaN => NaN
  end.

(** [n > q] as JavaScript evaluates it: false whenever [n] is NaN. *)
Definition jsGreaterThan (n : JsNumber) (q : Q) : Prop :=
  match n with
  | Finite p => q < p
  | PosInfinity => True
  | NegInfinity => False
  | NaN => False
  end.

(** [n >= q] as JavaScript evaluates it: false whenever [n] is NaN. *)
Definition jsAtLeast (n : JsNumber) (q : Q) : Prop :=
  match n with
  | Finite p => q <= p
  | PosInfinity => True
  | NegInfinity => False
  | NaN => False
  end.

(** ** Segments *)

Inductive SegmentKind := FlatSegment | SquareSegment.

Record AttachmentSite := mkAttachmentSite {
  locationProperty : Vector2;
  attachedOrAttachingMolecule : option nat
}.

(** Flat and square segments share [bounds], [capacity] and
    [attachmentSite]; [squareContainedLength] is read for square segments
    only. *)
Record ShapeSegment := mkShapeSegment {
  kind : SegmentKind;
  bounds : Bounds2;
  capacity : Q;
  squareContainedLength : Q;
  attachmentSite : AttachmentSite
}.

Definition getLowerRightCornerPos (s : ShapeSegment) : Vector2 :=
  mkVector2 (maxX (bounds s)) (minY (bounds s)).

Definition getUpperLeftCornerPos (s : ShapeSegment) : Vector2 :=
  mkVector2 (minX (bounds s)) (maxY (bounds s)).

(** FlatSegment.getContainedLength returns the width of the bounds.
    Modelled from the spec: SquareSegment.getContainedLength (SquareSegment
    is not under src/).  The spec derives the length of a square segment
    from its area through a conversion it does not give; the model keeps
    the derived length itself, in [squareContainedLength]. *)
Definition getContainedLength (s : ShapeSegment) : Q :=
  match kind s with
  | FlatSegment => getWidth (bounds s)
  | SquareSegment => squareContainedLength s
  end.

Definition getRemainingCapacity (s : ShapeSegment) : Q :=
  capacity s - getContainedLength s.

Definition withBounds (b : Bounds2) (s : ShapeSegment) : ShapeSegment :=
  mkShapeSegment (kind s) b (capacity s) (squareContainedLength s)
    (attachmentSite s).

Definition withCapacity (c : Q) (s : ShapeSegment) : ShapeSegment :=
  mkShapeSegment (kind s) (bounds s) c (squareContainedLength s)
    (attachmentSite s).

Definition withSquareContainedLength (l : Q) (s : ShapeSegment)
  : ShapeSegment :=
  mkShapeSegment (kind s) (bounds s) (capacity s) l (attachmentSite s).

Definition withSiteLocation (p : Vector2) (s : ShapeSegment) : ShapeSegment :=
  mkShapeSegment (kind s) (bounds s) (capacity s) (squareContainedLength s)
    (mkAttachmentSite p (attachedOrAttachingMolecule (attachmentSite s))).

(** ** Point masses *)

Record PointMass := mkPointMass {
  position : Vector2;
  targetDistanceToPreviousPoint : Q
}.

Definition setTargetDistanceToPreviousPoint (d : Q) (p : PointMass)
  : PointMass :=
  mkPointMass (position p) d.

(** ** The attachment state machine of the strand *)

Inductive AttachmentState :=
| UnattachedAndAvailable
| MovingTowardAttachment
| Attached
| Detaching.

Inductive Notification :=
| attachedToRibosome
| attachToDestroyer
| allRibosomesDetached
| detach
| forceImmediateUnattachedAndAvailable.

(** Modelled from the spec: MessengerRnaAttachmentStateMachine is not under
    src/.  The strand only notifies it; the model keeps the current state
    and the notifications received, oldest first. *)
Record AttachmentStateMachine := mkAttachmentStateMachine {
  attachmentState : AttachmentState;
  notifications : list Notification
}.

(** Modelled from the spec: the effect of a notification on the state
    machine.  The spec gives one transition for these calls, the forced
    return to unattached-and-available; every other call is recorded and
    leaves the state as it is. *)
Definition notify (n : Notification) (m : AttachmentStateMachine)
  : AttachmentStateMachine :=
  mkAttachmentStateMachine
    match n with
    | forceImmediateUnattachedAndAvailable => UnattachedAndAvailable
    | _ => attachmentState m
    end
    (notifications m ++ [n]).

(** ** Collaborators *)

Record Ribosome := mkRibosome {
  ribosomeId : nat;
  entranceOfRnaChannelPos : Vector2;
  translationChannelLength : Q
}.

Record MessengerRnaDestroyer := mkMessengerRnaDestroyer {
  destroyerId : nat;
  destroyerPosition : Vector2;
  destructionChannelLength : Q
}.

(** ** The strand *)

Record MessengerRna := mkMessengerRna {
  segmentObjects : gmap nat ShapeSegment;
  nextObjectId : nat;
  shapeSegments : list nat;
  (* the chain from firstShapeDefiningPoint to lastShapeDefiningPoint *)
  shapeDefiningPoints : list PointMass;
  mapRibosomeToShapeSegment : gmap nat nat;
  messengerRnaDestroyer : option nat;
  segmentWhereDestroyerConnects : option nat;
  mRnaAttachmentStateMachine : AttachmentStateMachine;
  console : list string
}.

Definition withSegmentObjects (h : gmap nat ShapeSegment) (st : MessengerRna)
  : MessengerRna :=
  mkMessengerRna h (nextObjectId st) (shapeSegments st)
    (shapeDefiningPoints st) (mapRibosomeToShapeSegment st)
    (messengerRnaDestroyer st) (segmentWhereDestroyerConnects st)
    (mRnaAttachmentStateMachine st) (console st).

Definition withNextObjectId (n : nat) (st : MessengerRna) : MessengerRna :=
  mkMessengerRna (segmentObjects st) n (shapeSegments st)
    (shapeDefiningPoints st) (mapRibosomeToShapeSegment st)
    (messengerRnaDestroyer st) (segmentWhereDestroyerConnects st)
    (mRnaAttachmentStateMachine st) (console st).

Definition withShapeSegments (l : list nat) (st : MessengerRna)
  : MessengerRna :=
  mkMessengerRna (segmentObjects st) (nextObjectId st) l
    (shapeDefiningPoints st) (mapRibosomeToShapeSegment st)
    (messengerRnaDestroyer st) (segmentWhereDestroyerConnects st)
    (mRnaAttachmentStateMachine st) (console st).

Definition withShapeDefiningPoints (ps : list PointMass) (st : MessengerRna)
  : MessengerRna :=
  mkMessengerRna (segmentObjects st) (nextObjectId st) (shapeSegments st)
    ps (mapRibosomeToShapeSegment st)
    (messengerRnaDestroyer st) (segmentWhereDestroyerConnects st)
    (mRnaAttachmentStateMachine st) (console st).

Definition withMapRibosomeToShapeSegment (m : gmap nat nat)
  (st : MessengerRna) : MessengerRna :=
  mkMessengerRna (segmentObjects st) (nextObjectId st) (shapeSegments st)
    (shapeDefiningPoints st) m
    (messengerRnaDestroyer st) (segmentWhereDestroyerConnects st)
    (mRnaAttachmentStateMachine st) (console st).

Definition withMessengerRnaDestroyer (d : option nat) (st : MessengerRna)
  : MessengerRna :=
  mkMessengerRna (segmentObjects st) (nextObjectId st) (shapeSegments st)
    (shapeDefiningPoints st) (mapRibosomeToShapeSegment st)
    d (segmentWhereDestroyerConnects st)
    (mRnaAttachmentStateMachine st) (console st).

Definition withAttachmentStateMachine (m : AttachmentStateMachine)
  (st : MessengerRna) : MessengerRna :=
  mkMessengerRna (segmentObjects st) (nextObjectId st) (shapeSegments st)
    (shapeDefiningPoints st) (mapRibosomeToShapeSegment st)
    (messengerRnaDestroyer st) (segmentWhereDestroyerConnects st)
    m (console st).

Definition withConsole (c : list string) (st : MessengerRna) : MessengerRna :=
  mkMessengerRna (segmentObjects st) (nextObjectId st) (shapeSegments st)
    (shapeDefiningPoints st) (mapRibosomeToShapeSegment st)
    (messengerRnaDestroyer st) (segmentWhereDestroyerConnects st)
    (mRnaAttachmentStateMachine st) c.

(** ** Computations on a strand: state and exceptions *)

Inductive Exception :=
| TypeError           (* a method called or a property read on null *)
| Unmodelled          (* a method whose body neither src/ nor the spec gives *)
| DanglingReference.  (* an object id with no object: not a JavaScript state *)

Inductive Outcome (A : Type) :=
| Returns (a : A) (st : MessengerRna)
| Throws (e : Exception) (st : MessengerRna).

Arguments Returns {A} a st.
Arguments Throws {A} e st.

Definition M (A : Type) : Type := MessengerRna -> Outcome A.

Definition ret {A} (a : A) : M A := fun st => Returns a st.

Definition bind {A B} (m : M A) (k : A -> M B) : M B :=
  fun st =>
    match m st with
    | Returns a st' => k a st'
    | Throws e st' => Throws e st'
    end.

Definition throw {A} (e : Exception) : M A := fun st => Throws e st.

Definition modify (f : MessengerRna -> MessengerRna) : M unit :=
  fun st => Returns tt (f st).

Definition gets {A} (f : MessengerRna -> A) : M A :=
  fun st => Returns (f st) st.

Notation "'let!' x ':=' m 'in' k" := (bind m (fun x => k))
  (at level 10, x name, m at level 100, k at level 200).
Notation "m ;;; k" := (bind m (fun _ => k))
  (at level 100, k at level 200, right associativity).

Definition getSegment (id : nat) : M ShapeSegment :=
  fun st =>
    match segmentObjects st !! id with
    | Some s => Returns s st
    | None => Throws DanglingReference st
    end.

Definition updateSegment (id : nat) (f : ShapeSegment -> ShapeSegment)
  : M unit :=
  let! s := getSegment id in
  modify (fun st => withSegmentObjects (<[id := f s]> (segmentObjects st)) st).

(** [new C( ... )]: a fresh object in the store. *)
Definition allocate (s : ShapeSegment) : M nat :=
  fun st =>
    let id := nextObjectId st in
    Returns id
      (withNextObjectId (S id)
         (withSegmentObjects (<[id := s]> (segmentObjects st)) st)).

(** ** Arrays of references *)

(** [Array.prototype.indexOf]: the first index of the reference, or -1. *)
Fixpoint indexOf (id : nat) (l : list nat) : Z :=
  match l with
  | [] => (-1)%Z
  | i :: l' =>
      if Nat.eqb i id then 0%Z
      else let r := indexOf id l' in
           if (r <? 0)%Z then (-1)%Z else (r + 1)%Z
  end.

(** The start index [splice] really uses: a negative start counts from the
    end, and the result is clamped to [0 .. length]. *)
Definition spliceStart (start : Z) (l : list nat) : nat :=
  let len := Z.of_nat (length l) in
  Z.to_nat (if (start <? 0)%Z then Z.max (len + start) 0 else Z.min start len).

(** [list.splice( start, 1 )] *)
Definition spliceRemoveOne (start : Z) (l : list nat) : list nat :=
  delete (spliceStart start l) l.

(** [list.splice( start, 0, item )] *)
Definition spliceInsert (start : Z) (item : nat) (l : list nat) : list nat :=
  let i := spliceStart start l in take i l ++ item :: drop i l.

(** The list after [list.splice( list.indexOf( this ), 1 )]: with -1 for
    a reference that is not in the list, the last element goes. *)
Definition splicedOut (this : nat) (l : list nat) : list nat :=
  spliceRemoveOne (indexOf this l) l.

(** The list without the reference, if it is there. *)
Definition removedFrom (this : nat) (l : list nat) : list nat :=
  let i := indexOf this l in
  if (i <? 0)%Z then l else spliceRemoveOne i l.

Definition insertedAfter (existing inserted : nat) (l : list nat) : list nat :=
  let i := indexOf existing l in
  if (i <? 0)%Z then l else spliceInsert (i + 1) inserted l.

Definition insertedBefore (existing inserted : nat) (l : list nat) : list nat :=
  let i := indexOf existing l in
  if (i <? 0)%Z then l else spliceInsert i inserted l.

(** ** Vector arithmetic (DOT/Vector2) *)

Definition Vector2_plus (p q : Vector2) : Vector2 :=
  mkVector2 (v_x p + v_x q) (v_y p + v_y q).

Definition Vector2_minus (p q : Vector2) : Vector2 :=
  mkVector2 (v_x p - v_x q) (v_y p - v_y q).

Definition Vector2_timesScalar (p : Vector2) (k : Q) : Vector2 :=
  mkVector2 (v_x p * k) (v_y p * k).

(** Two vectors that denote the same point. *)
Definition sameVector (p q : Vector2) : Prop :=
  v_x p == v_x q /\ v_y p == v_y q.

(** ** ShapeUtils (src/js/common/model/ShapeUtils.js) *)

Definition extrapolateControlPoint_VectorVersion (x y z : Vector2) : Vector2 :=
  let xy := Vector2_minus y x in
  let yz := Vector2_minus z y in
  Vector2_plus y
    (Vector2_plus (Vector2_timesScalar xy (1 # 4))
       (Vector2_timesScalar yz (1 # 4))).

Definition extrapolateControlPoint (x y z : Vector2) : Vector2 :=
  let xz_x := (1 # 4) * (v_x z - v_x x) in
  let xz_y := (1 # 4) * (v_y z - v_y x) in
  mkVector2 (v_x y + xz_x) (v_y y + xz_y).

(** A KITE shape, as the calls that built it: KITE is not under src/.
    [MoveToUndefined] is the call [moveToPoint( undefined )]. *)
Inductive PathCommand :=
| MoveToPoint (point : Vector2)
| MoveToUndefined
| CubicCurveTo (controlPoint1 controlPoint2 endPoint : Vector2).

Definition Shape := list PathCommand.

(** One round of the loop of createRoundedShapeFromPoints; reading a point
    that the array does not have gives undefined, and the read of its [x]
    then throws, which is None here. *)
Definition addRoundedSegment (points : list Vector2) (shape : option Shape)
  (i : nat) : option Shape :=
  let n := length points in
  match shape with
  | None => None
  | Some sh =>
      match points !! i, points !! ((i + 1) mod n),
            points !! (if (1 <=? i)%nat then (i - 1)%nat else (n - 1)%nat),
            points !! ((i + 2) mod n) with
      | Some segmentStartPoint, Some segmentEndPoint,
        Some previousPoint, Some nextPoint =>
          let controlPoint1 :=
            extrapolateControlPoint previousPoint segmentStartPoint
              segmentEndPoint in
          let controlPoint2 :=
            extrapolateControlPoint nextPoint segmentEndPoint
              segmentStartPoint in
          Some (sh ++ [CubicCurveTo controlPoint1 controlPoint2
                         segmentEndPoint])
      | _, _, _, _ => None
      end
  end.

(** [existingShape || new Shape()], [moveToPoint( points[ 0 ] )] and the
    loop over the indices of [points].  For an empty array [points[ 0 ]]
    is undefined and the loop is not entered. *)
Definition createRoundedShapeFromPoints (points : list Vector2)
  (existingShape : option Shape) : option Shape :=
  let shape := default [] existingShape in
  let moved :=
    match points !! 0%nat with
    | None => shape ++ [MoveToUndefined]
    | Some first => shape ++ [MoveToPoint first]
    end in
  foldl (addRoundedSegment points) (Some moved) (seq 0 (length points)).

(** The point at an index of a non-empty outline, and the curve the loop
    draws from it. *)
Definition outlinePoint (points : list Vector2) (i : nat) : Vector2 :=
  nth i points (mkVector2 0 0).

Definition roundedSegment (points : list Vector2) (i : nat) : PathCommand :=
  let n := length points in
  let segmentStartPoint := outlinePoint points i in
  let segmentEndPoint := outlinePoint points ((i + 1) mod n) in
  let previousPoint :=
    outlinePoint points (if (1 <=? i)%nat then (i - 1)%nat else (n - 1)%nat) in
  let nextPoint := outlinePoint points ((i + 2) mod n) in
  CubicCurveTo
    (extrapolateControlPoint previousPoint segmentStartPoint segmentEndPoint)
    (extrapolateControlPoint nextPoint segmentEndPoint segmentStartPoint)
    segmentEndPoint.

(** The command is a cubic curve that ends at the point. *)
Definition cubicCurveEndingAt (c : PathCommand) (endPoint : Vector2) : Prop :=
  exists controlPoint1 controlPoint2,
    c = CubicCurveTo controlPoint1 controlPoint2 endPoint.

(** A shape moved by a vector, and two shapes that denote the same
    outline. *)
Definition translatedCommand (t : Vector2) (c : PathCommand) : PathCommand :=
  match c with
  | MoveToPoint p => MoveToPoint (Vector2_plus p t)
  | MoveToUndefined => MoveToUndefined
  | CubicCurveTo c1 c2 e =>
      CubicCurveTo (Vector2_plus c1 t) (Vector2_plus c2 t) (Vector2_plus e t)
  end.

Definition sameCommand (c d : PathCommand) : Prop :=
  match c, d with
  | MoveToPoint p, MoveToPoint q => sameVector p q
  | MoveToUndefined, MoveToUndefined => True
  | CubicCurveTo c1 c2 e, CubicCurveTo d1 d2 f =>
      sameVector c1 d1 /\ sameVector c2 d2 /\ sameVector e f
  | _, _ => False
  end.

(** The outline of RnaPolymerase (src/js/common/model/RnaPolymerase.js),
    with WIDTH = 340 and HEIGHT = 480. *)
Definition WIDTH : Q := 340.
Definition HEIGHT : Q := 480.

Definition shapePoints : list Vector2 :=
  [mkVector2 0 (HEIGHT / 2);
   mkVector2 (WIDTH / 2) (HEIGHT * (1 # 4));
   mkVector2 (WIDTH * (35 # 100)) (- HEIGHT * (1 # 4));
   mkVector2 0 (- HEIGHT / 2);
   mkVector2 (- WIDTH * (35 # 100)) (- HEIGHT * (1 # 4));
   mkVector2 (- WIDTH / 2) (HEIGHT * (1 # 4))].

(** RnaPolymerase.createShape *)
Definition RnaPolymerase_createShape : option Shape :=
  createRoundedShapeFromPoints shapePoints None.

(** ** MotionBounds (src/js/common/model/motion-strategies/RandomWalkMotionStrategy.js,
    second part) *)

(** DOT/Bounds2: shifted, getCenter and containsBounds. *)
Definition shifted (b : Bounds2) (x y : Q) : Bounds2 :=
  mkBounds2 (minX b + x) (minY b + y) (maxX b + x) (maxY b + y).

Definition getCenter (b : Bounds2) : Vector2 :=
  mkVector2 ((maxX b + minX b) / 2) ((maxY b + minY b) / 2).

Definition containsBounds (this b : Bounds2) : bool :=
  Qle_bool (minX this) (minX b) && Qle_bool (maxX b) (maxX this)
  && Qle_bool (minY this) (minY b) && Qle_bool (maxY b) (maxY this).

(** The [bounds] field of a MotionBounds.  [Unbounded] stands for null and
    for Bounds2.EVERYTHING, which the constructor puts in when it is given
    nothing: both contain every finite bounds. *)
Inductive MotionBounds :=
| Unbounded
| Bounded (bounds : Bounds2).

Definition inBounds (this : MotionBounds) (b : Bounds2) : bool :=
  match this with
  | Unbounded => true
  | Bounded bounds => containsBounds bounds b
  end.

(** The shape argument is read through its [bounds] only, and is modelled
    by them. *)
Definition testIfInMotionBoundsWithDelta (this : MotionBounds)
  (shapeBounds : Bounds2) (motionVector : Vector2) (dt : Q) : bool :=
  inBounds this
    (shifted shapeBounds (v_x motionVector * dt) (v_y motionVector * dt)).

Definition testIfInMotionBounds (this : MotionBounds) (shapeBounds : Bounds2)
  (proposedLocation : Vector2) : bool :=
  let shapeCenter := getCenter shapeBounds in
  let translationVector := Vector2_minus proposedLocation shapeCenter in
  inBounds this
    (shifted shapeBounds (v_x translationVector) (v_y translationVector)).

(** ** MobileBiomoleculeNode (src/unnamed/part_002): fading and scaling *)

(** The two properties of the biomolecule that the node observes for its
    opacity and scale, and the opacity and scale magnitude of the node. *)
Record FadingNode := mkFadingNode {
  existenceStrengthProperty : Q;
  zPositionProperty : Q;
  opacity : Q;
  scaleMagnitude : Q
}.

Definition handleExistenceStrengthChanged (existenceStrength : Q)
  (node : FadingNode) : FadingNode :=
  mkFadingNode (existenceStrengthProperty node) (zPositionProperty node)
    (Qmin existenceStrength (1 + zPositionProperty node))
    (scaleMagnitude node).

(** setScaleMagnitude sets the scale of the node, so the first of the two
    calls has no effect of its own.  setOpacity is modelled as an
    assignment, which it is for the opacities between 0 and 1 that the
    asserted ranges give. *)
Definition handleZPositionChanged (zPosition : Q) (node : FadingNode)
  : FadingNode :=
  mkFadingNode (existenceStrengthProperty node) (zPositionProperty node)
    (Qmin (1 + zPosition) (existenceStrengthProperty node))
    (1 + (15 # 100) * zPosition).

(** A change of one of the two properties: Property.set stores the value
    and calls the linked listener with it, unless the value is the one the
    property already has. *)
Inductive PropertyChange :=
| SetExistenceStrength (value : Q)
| SetZPosition (value : Q).

Definition applyChange (node : FadingNode) (change : PropertyChange)
  : FadingNode :=
  match change with
  | SetExistenceStrength value =>
      if Qeq_dec value (existenceStrengthProperty node) then node
      else
        handleExistenceStrengthChanged value
          (mkFadingNode value (zPositionProperty node) (opacity node)
             (scaleMagnitude node))
  | SetZPosition value =>
      if Qeq_dec value (zPositionProperty node) then node
      else
        handleZPositionChanged value
          (mkFadingNode (existenceStrengthProperty node) value (opacity node)
             (scaleMagnitude node))
  end.

(** The ranges the two listeners assert for the values they are given. *)
Definition inAssertedRange (change : PropertyChange) : Prop :=
  match change with
  | SetExistenceStrength value => 0 <= value <= 1
  | SetZPosition value => -1 <= value <= 0
  end.

(** The part of the constructor that links the two listeners: link calls
    the listener at once with the current value.  A new node has opacity 1
    and scale 1. *)
Definition linkFadingListeners (existenceStrength zPosition : Q)
  : FadingNode :=
  let node := mkFadingNode existenceStrength zPosition 1 1 in
  let node := handleExistenceStrengthChanged existenceStrength node in
  handleZPositionChanged zPosition node.

(** What linking the listeners establishes and every change keeps. *)
Definition fadingInvariant (node : FadingNode) : Prop :=
  0 <= existenceStrengthProperty node <= 1
  /\ -1 <= zPositionProperty node <= 0
  /\ opacity node == Qmin (existenceStrengthProperty node)
                       (1 + zPositionProperty node)
  /\ scaleMagnitude node == 1 + (15 # 100) * zPositionProperty node.

(** ** RandomWalkMotionStrategy
    (src/js/common/model/motion-strategies/RandomWalkMotionStrategy.js) *)

Record Vector3 := mkVector3 { v3_x : Q; v3_y : Q; v3_z : Q }.

(** DOT/Util.clamp *)
Definition clamp (value min max : Q) : Q :=
  if Qlt_le_dec value min then min
  else if Qlt_le_dec max value then max
  else value.

Definition MIN_XY_VELOCITY : Q := 200.
Definition MAX_XY_VELOCITY : Q := 400.
Definition MIN_Z_VELOCITY : Q := 3 # 10.
Definition MAX_Z_VELOCITY : Q := 6 # 10.
Definition MIN_TIME_IN_ONE_DIRECTION : Q := 1 # 4.
Definition MAX_TIME_IN_ONE_DIRECTION : Q := 8 # 10.

Record RandomWalkMotionStrategy := mkRandomWalkMotionStrategy {
  directionChangeCountdown : Q;
  currentMotionVector2D : Vector2;
  currentZVelocity : Q;
  motionBounds : MotionBounds
}.

(** The constructor, once the link has handed it the motion bounds. *)
Definition RandomWalkMotionStrategy_new (bounds : MotionBounds)
  : RandomWalkMotionStrategy :=
  mkRandomWalkMotionStrategy 0 (mkVector2 0 0) 0 bounds.

(** What the random generator gives at each place where one call of
    getNextLocation3D can ask it: a nextDouble for the speed, for the
    angle, for the z velocity and for each of the two countdown values,
    and a nextBoolean for the sign of the z velocity. *)
Record RandomDraws := mkRandomDraws {
  xyVelocityDraw : Q;
  xyAngleDraw : Q;
  zVelocityDraw : Q;
  zSignDraw : bool;
  countdownDraw : Q;
  bounceCountdownDraw : Q
}.

Definition generateDirectionChangeCountdownValue (draw : Q) : Q :=
  MIN_TIME_IN_ONE_DIRECTION
  + draw * (MAX_TIME_IN_ONE_DIRECTION - MIN_TIME_IN_ONE_DIRECTION).

(** nextDouble gives a number from 0 up to, not including, 1. *)
Definition unitDraw (draw : Q) : Prop := 0 <= draw /\ draw < 1.

Definition unitDraws (draws : RandomDraws) : Prop :=
  unitDraw (xyVelocityDraw draws) /\ unitDraw (xyAngleDraw draws)
  /\ unitDraw (zVelocityDraw draws) /\ unitDraw (countdownDraw draws)
  /\ unitDraw (bounceCountdownDraw draws).

(** The countdown is never above the longest time in one direction, and
    the z velocity never faster than the fastest. *)
Definition walkingInBounds (this : RandomWalkMotionStrategy) : Prop :=
  0 <= directionChangeCountdown this
  /\ directionChangeCountdown this <= MAX_TIME_IN_ONE_DIRECTION
  /\ - MAX_Z_VELOCITY <= currentZVelocity this
  /\ currentZVelocity this <= MAX_Z_VELOCITY.

(** ** RandomWalkMotionStrategy: the step *)

Section RandomWalk.

(** [Vector2.createPolar( magnitude, Math.PI * 2 * turn )]: the vector of
    the given magnitude at the given fraction of a full turn. *)
Variable createPolarAtTurn : Q -> Q -> Vector2.

(** MotionStrategy.getMotionVectorForBounce and MotionStrategy.getMinZ:
    MotionStrategy is not under src/. *)
Variable getMotionVectorForBounce : Bounds2 -> Vector2 -> Q -> Q -> Vector2.
Variable getMinZ : Bounds2 -> Vector3 -> Q.

Definition getNextLocation3D (currentLocation : Vector3) (bounds : Bounds2)
  (dt : Q) (draws : RandomDraws) (this : RandomWalkMotionStrategy)
  : Vector3 * RandomWalkMotionStrategy :=
  let countdown := directionChangeCountdown this - dt in
  let this :=
    mkRandomWalkMotionStrategy countdown (currentMotionVector2D this)
      (currentZVelocity this) (motionBounds this) in
  let this :=
    if Qlt_le_dec 0 (directionChangeCountdown this) then this
    else
      let newXYVelocity :=
        MIN_XY_VELOCITY
        + xyVelocityDraw draws * (MAX_XY_VELOCITY - MIN_XY_VELOCITY) in
      let motionVector :=
        createPolarAtTurn newXYVelocity (xyAngleDraw draws) in
      let zVelocity :=
        MIN_Z_VELOCITY
        + zVelocityDraw draws * (MAX_Z_VELOCITY - MIN_Z_VELOCITY) in
      let zVelocity := if zSignDraw draws then - zVelocity else zVelocity in
      mkRandomWalkMotionStrategy
        (generateDirectionChangeCountdownValue (countdownDraw draws))
        motionVector zVelocity (motionBounds this) in
  let this :=
    if testIfInMotionBoundsWithDelta (motionBounds this) bounds
         (currentMotionVector2D this) dt
    then this
    else
      mkRandomWalkMotionStrategy
        (generateDirectionChangeCountdownValue (bounceCountdownDraw draws))
        (getMotionVectorForBounce bounds (currentMotionVector2D this) dt
           MAX_XY_VELOCITY)
        (currentZVelocity this) (motionBounds this) in
  let minZ := getMinZ bounds currentLocation in
  (mkVector3
     (v3_x currentLocation + v_x (currentMotionVector2D this) * dt)
     (v3_y currentLocation + v_y (currentMotionVector2D this) * dt)
     (clamp (v3_z currentLocation + currentZVelocity this * dt) minZ 0),
   this).

Definition RandomWalkMotionStrategy_getNextLocation
  (currentLocation : Vector2) (bounds : Bounds2) (dt : Q)
  (draws : RandomDraws) (this : RandomWalkMotionStrategy)
  : Vector2 * RandomWalkMotionStrategy :=
  let nextLocation3DScratchInVector :=
    mkVector3 (v_x currentLocation) (v_y currentLocation) 0 in
  let (location3D, this) :=
    getNextLocation3D nextLocation3DScratchInVector bounds dt draws this in
  (mkVector2 (v3_x location3D) (v3_y location3D), this).

(** A walk: the strategy after a list of steps, each with its location,
    bounds, time step and draws. *)
Definition walk
  (steps : list (Vector3 * Bounds2 * Q * RandomDraws))
  (this : RandomWalkMotionStrategy) : RandomWalkMotionStrategy :=
  foldl (fun this step =>
           match step with
           | (currentLocation, bounds, dt, draws) =>
               snd (getNextLocation3D currentLocation bounds dt draws this)
           end)
    this steps.

(** Steps as the model calls them: a time step that is not negative, and
    draws from the unit interval. *)
Definition soundStep (step : Vector3 * Bounds2 * Q * RandomDraws) : Prop :=
  match step with
  | (_, _, dt, draws) => 0 <= dt /\ unitDraws draws
  end.

End RandomWalk.

Section Strand.

(** ** What the model takes as given

    ShapeSegment, SquareSegment and WindingBiomolecule are not under src/.
    Their constants and the parts of them that no claim speaks about are
    parameters of the development. *)

(** ShapeSegment.FLOATING_POINT_COMP_FACTOR, the comparison epsilon. *)
Variable FLOATING_POINT_COMP_FACTOR : Q.

(** The length of the leader (GEEConstants.LEADER_LENGTH in FlatSegment,
    MessengerRna.LEADER_LENGTH in MessengerRna). *)
Variable LEADER_LENGTH : Q.

(** The capacity a segment has until setCapacity is called. *)
Variable INITIAL_CAPACITY : Q.

(** The position updateAttachmentSiteLocation gives the attachment site of
    a segment with the given bounds. *)
Variable attachmentSiteLocationFor : Bounds2 -> Vector2.

(** WindingBiomolecule.realignSegmentsFrom and windPointsThroughSegments:
    they reposition segments and points after a structural change. *)
Variable realignSegmentsFrom : nat -> MessengerRna -> MessengerRna.
Variable windPointsThroughSegments : MessengerRna -> MessengerRna.

(** ** ShapeSegment: what every segment has *)

Definition updateAttachmentSiteLocation (this : nat) : M unit :=
  updateSegment this
    (fun s => withSiteLocation (attachmentSiteLocationFor (bounds s)) s).

Definition setCapacity (this : nat) (c : Q) : M unit :=
  updateSegment this (withCapacity c).

Definition setBounds (this : nat) (b : Bounds2) : M unit :=
  updateSegment this (withBounds b).

(** The object the ShapeSegment constructor leaves for a subclass
    constructor: no molecule at the attachment site. *)
Definition blankSegment (k : SegmentKind) (origin : Vector2) : ShapeSegment :=
  mkShapeSegment k
    (setMinMax (v_x origin) (v_y origin) (v_x origin) (v_y origin))
    INITIAL_CAPACITY 0
    (mkAttachmentSite (mkVector2 0 0) None).

(** ** WindingBiomolecule: the segment list *)

(** Modelled from the spec: WindingBiomolecule.getPreviousShapeSegment is
    not under src/.  The output segment is the previous one in the list,
    null when there is none. *)
Definition getPreviousShapeSegment (this : nat) : M (option nat) :=
  gets (fun st =>
    let i := indexOf this (shapeSegments st) in
    if (0 <? i)%Z then shapeSegments st !! Z.to_nat (i - 1) else None).

(** Modelled from the spec: WindingBiomolecule.getNextShapeSegment is not
    under src/.  The input segment is the next one in the list, null when
    there is none. *)
Definition getNextShapeSegment (this : nat) : M (option nat) :=
  gets (fun st =>
    let i := indexOf this (shapeSegments st) in
    if (i <? 0)%Z then None else shapeSegments st !! Z.to_nat (i + 1)).

(** Modelled from the spec: WindingBiomolecule.insertAfterShapeSegment is
    not under src/.  The new segment goes immediately after the existing
    one; the spec is silent on an existing segment that is not in the
    list, and the model leaves the list alone then. *)
Definition insertAfterShapeSegment (existing inserted : nat) : M unit :=
  modify (fun st =>
    withShapeSegments (insertedAfter existing inserted (shapeSegments st)) st).

(** Modelled from the spec: WindingBiomolecule.insertBeforeShapeSegment is
    not under src/.  The new segment goes immediately before the existing
    one, with the same convention as insertAfterShapeSegment. *)
Definition insertBeforeShapeSegment (existing inserted : nat) : M unit :=
  modify (fun st =>
    withShapeSegments (insertedBefore existing inserted (shapeSegments st)) st).

(** ** SquareSegment *)

(** Modelled from the spec: the SquareSegment constructor is not under
    src/.  A new segment contains nothing. *)
Definition SquareSegment_new (origin : Vector2) : M nat :=
  allocate (blankSegment SquareSegment origin).

(** Modelled from the spec: SquareSegment.add is not under src/.  It grows
    the segment by [length].  The overflow clause of the spec needs a
    capacity, and nothing gives a square segment one, so the growth is
    unconditional. *)
Definition SquareSegment_add (length : Q) (this : nat) : M unit :=
  updateSegment this
    (fun s => withSquareContainedLength (squareContainedLength s + length) s).

(** Modelled from the spec: SquareSegment.remove is not under src/.  It
    shrinks the segment and, when the contained length drops below the
    comparison epsilon, removes the segment from the list. *)
Definition SquareSegment_remove (length : Q) (this : nat) : M unit :=
  updateSegment this
    (fun s => withSquareContainedLength (squareContainedLength s - length) s) ;;;
  let! s := getSegment this in
  if Qlt_le_dec (getContainedLength s) FLOATING_POINT_COMP_FACTOR
  then modify (fun st =>
         withShapeSegments (removedFrom this (shapeSegments st)) st)
  else ret tt.

(** ** FlatSegment (src/unnamed/part_001) *)

Definition FlatSegment_new (origin : Vector2) : M nat :=
  let! this := allocate (blankSegment FlatSegment origin) in
  updateAttachmentSiteLocation this ;;;
  ret this.

(** The last statement of add: grow the bounds to the left. *)
Definition growLeft (growthAmount : Q) (this : nat) : M unit :=
  let! s := getSegment this in
  let b := bounds s in
  setBounds this
    (setMinMax (minX b - growthAmount) (minY b) (minX b + getWidth b) (minY b)) ;;;
  updateAttachmentSiteLocation this.

Definition FlatSegment_add (length : Q) (this : nat) : M unit :=
  let! s := getSegment this in
  if Qlt_le_dec (capacity s) (getContainedLength s + length)
  then
    let! newSquareSegment := SquareSegment_new (getLowerRightCornerPos s) in
    let growthAmount := capacity s - getContainedLength s in
    SquareSegment_add (length - growthAmount) newSquareSegment ;;;
    insertAfterShapeSegment this newSquareSegment ;;;
    growLeft growthAmount this
  else growLeft length this.

Definition FlatSegment_remove (length : Q) (this : nat) : M unit :=
  let! s := getSegment this in
  let b := bounds s in
  setBounds this
    (setMinMax (minX b) (minY b) (minX b + getWidth b - length) (minY b)) ;;;
  let! s' := getSegment this in
  (if Qlt_le_dec (getContainedLength s') FLOATING_POINT_COMP_FACTOR
   then modify (fun st =>
          withShapeSegments (splicedOut this (shapeSegments st)) st)
   else ret tt) ;;;
  updateAttachmentSiteLocation this.

Definition FlatSegment_maxOutLength (this : nat) : M unit :=
  let! s := getSegment this in
  let growthAmount := getRemainingCapacity s in
  let b := bounds s in
  setBounds this
    (setMinMax (minX b - growthAmount) (minY b)
       (minX b - growthAmount + capacity s) (minY b)) ;;;
  updateAttachmentSiteLocation this.

(** [segment.add( ... )] and [segment.remove( ... )] on a reference whose
    class is only known at run time; on null they throw. *)
Definition ShapeSegment_add (length : Q) (segment : option nat) : M unit :=
  match segment with
  | None => throw TypeError
  | Some id =>
      let! s := getSegment id in
      match kind s with
      | FlatSegment => FlatSegment_add length id
      | SquareSegment => SquareSegment_add length id
      end
  end.

Definition ShapeSegment_remove (length : Q) (segment : nat) : M unit :=
  let! s := getSegment segment in
  match kind s with
  | FlatSegment => FlatSegment_remove length segment
  | SquareSegment => SquareSegment_remove length segment
  end.

(** advance and advanceAndRemove called with the arguments they declare:
    [windingBiomolecule] is the strand and [shapeSegmentList] its array of
    segments. *)
Definition FlatSegment_advance (length : Q) (this : nat) : M unit :=
  let! outputSegment := getPreviousShapeSegment this in
  let! inputSegment := getNextShapeSegment this in
  match inputSegment with
  | None =>
      let! s := getSegment this in
      let lengthToAdvance := Qmin length (getContainedLength s) in
      FlatSegment_remove lengthToAdvance this ;;;
      ShapeSegment_add lengthToAdvance outputSegment
  | Some input =>
      let! i := getSegment input in
      if Qlt_le_dec length (getContainedLength i)
      then
        let! s := getSegment this in
        (if Qlt_le_dec (capacity s) (getContainedLength s + length)
         then
           let remainingCapacity := getRemainingCapacity s in
           let! outputSegment' :=
             (if Qlt_le_dec FLOATING_POINT_COMP_FACTOR remainingCapacity
              then
                FlatSegment_maxOutLength this ;;;
                let! s1 := getSegment this in
                let! newLeaderSegment :=
                  FlatSegment_new (getUpperLeftCornerPos s1) in
                setCapacity newLeaderSegment LEADER_LENGTH ;;;
                insertBeforeShapeSegment this newLeaderSegment ;;;
                ret (Some newLeaderSegment)
              else ret outputSegment) in
           ShapeSegment_add (length - remainingCapacity) outputSegment'
         else FlatSegment_add length this) ;;;
        ShapeSegment_remove length input
      else
        let! i0 := getSegment input in
        FlatSegment_remove (length - getContainedLength i0) this ;;;
        let! i1 := getSegment input in
        ShapeSegment_remove (getContainedLength i1) input ;;;
        ShapeSegment_add length outputSegment
  end ;;;
  updateAttachmentSiteLocation this.

Definition FlatSegment_advanceAndRemove (length : Q) (this : nat) : M unit :=
  let! inputSegment := getNextShapeSegment this in
  match inputSegment with
  | None =>
      let! s := getSegment this in
      let lengthToRemove := Qmin length (getContainedLength s) in
      FlatSegment_remove lengthToRemove this
  | Some input =>
      let! i := getSegment input in
      if Qlt_le_dec length (getContainedLength i)
      then ShapeSegment_remove length input
      else
        let! i0 := getSegment input in
        FlatSegment_remove (length - getContainedLength i0) this ;;;
        let! i1 := getSegment input in
        ShapeSegment_remove (getContainedLength i1) input
  end ;;;
  updateAttachmentSiteLocation this.

(** ** MessengerRna (src/js/common/model/MessengerRna.js) *)

Definition totalTargetDistance (ps : list PointMass) : Q :=
  foldr (fun p acc => targetDistanceToPreviousPoint p + acc) 0 ps.

(** Modelled from the spec: WindingBiomolecule.getLength is not under src/.
    The total strand length is the sum of targetDistanceToPreviousPoint
    across the PointMass chain. *)
Definition getLength (st : MessengerRna) : Q :=
  totalTargetDistance (shapeDefiningPoints st).

(** The sum of getContainedLength over the segment list; a reference with
    no object counts for nothing. *)
Definition containedLengthOf (h : gmap nat ShapeSegment) (id : nat) : Q :=
  match h !! id with
  | Some s => getContainedLength s
  | None => 0
  end.

Definition totalContainedLength (st : MessengerRna) : Q :=
  foldr (fun id acc => containedLengthOf (segmentObjects st) id + acc) 0
    (shapeSegments st).

(** [shapeSegments.contains( segment )] *)
Definition containsSegment (id : nat) (st : MessengerRna) : bool :=
  negb (indexOf id (shapeSegments st) <? 0)%Z.

Definition log (message : string) : M unit :=
  modify (fun st => withConsole (console st ++ [message]) st).

Definition notifyStateMachine (n : Notification) : M unit :=
  modify (fun st =>
    withAttachmentStateMachine (notify n (mRnaAttachmentStateMachine st)) st).

(** [segmentToAdvance.advance( length, this.shapeSegments )], as
    advanceTranslation calls it, on a reference whose class is only known
    at run time.  FlatSegment.advance takes
    [( length, windingBiomolecule, shapeSegmentList )], so the array of
    segments arrives as [windingBiomolecule], and the first statement of
    the method, [windingBiomolecule.getPreviousShapeSegment( this )],
    calls a method that an array does not have: a TypeError, before
    anything is changed.  SquareSegment.advance is not under src/ and the
    spec gives translation to flat segments only. *)
Definition ShapeSegment_advance (length : Q) (segment : option nat) : M unit :=
  match segment with
  | None => throw TypeError
  | Some id =>
      let! s := getSegment id in
      match kind s with
      | FlatSegment => throw TypeError
      | SquareSegment => throw Unmodelled
      end
  end.

(** [segmentWhereDestroyerConnects.advanceAndRemove( reductionAmount,
    this.shapeSegments )], as reduceLength calls it: the array arrives as
    [windingBiomolecule] here too, and the first statement of
    FlatSegment.advanceAndRemove,
    [windingBiomolecule.getNextShapeSegment( this )], throws the
    TypeError. *)
Definition ShapeSegment_advanceAndRemove (length : Q) (segment : option nat)
  : M unit :=
  match segment with
  | None => throw TypeError
  | Some id =>
      let! s := getSegment id in
      match kind s with
      | FlatSegment => throw TypeError
      | SquareSegment => throw Unmodelled
      end
  end.

Definition advanceTranslation (ribosome : Ribosome) (length : Q) : M bool :=
  let! segmentToAdvance :=
    gets (fun st => mapRibosomeToShapeSegment st !! ribosomeId ribosome) in
  match segmentToAdvance with
  | None => throw TypeError
  | Some seg =>
      ShapeSegment_advance length (Some seg) ;;;
      let! present := gets (containsSegment seg) in
      (if present then modify (realignSegmentsFrom seg) else ret tt) ;;;
      modify windPointsThroughSegments ;;;
      let! s := getSegment seg in
      ret (if Qlt_le_dec 0 (getContainedLength s) then false else true)
  end.

(** The loop of reduceLength over the chain, from its last point
    backwards: [reversed] is the chain with the last point first.  It
    returns None when the loop steps back past the first point, where the
    source calls a method on null. *)
Fixpoint removeFromChainEnd (reductionAmount amountRemoved : Q)
  (reversed : list PointMass) {struct reversed} : option (list PointMass) :=
  if Qlt_le_dec amountRemoved reductionAmount then
    match reversed with
    | [] => None
    | lastPoint :: previous =>
        if Qlt_le_dec (reductionAmount - amountRemoved)
             (targetDistanceToPreviousPoint lastPoint)
        then
          Some (setTargetDistanceToPreviousPoint
                  (targetDistanceToPreviousPoint lastPoint
                   - (reductionAmount - amountRemoved)) lastPoint
                :: previous)
        else
          match previous with
          | [] => None
          | _ :: _ =>
              removeFromChainEnd reductionAmount
                (amountRemoved + targetDistanceToPreviousPoint lastPoint)
                previous
          end
    end
  else Some reversed.

Definition reduceLength (reductionAmount : Q) : M unit :=
  let! length := gets getLength in
  if Qlt_le_dec reductionAmount length
  then
    let! destroyerSegment := gets segmentWhereDestroyerConnects in
    ShapeSegment_advanceAndRemove reductionAmount destroyerSegment ;;;
    let! points := gets shapeDefiningPoints in
    match removeFromChainEnd reductionAmount 0 (reverse points) with
    | Some reversed => modify (withShapeDefiningPoints (reverse reversed))
    | None => modify (withShapeDefiningPoints []) ;;; throw TypeError
    end
  else
    let! points := gets shapeDefiningPoints in
    match points with
    | [] => throw TypeError
    | first :: _ =>
        modify (withShapeDefiningPoints [first]) ;;;
        modify (withShapeSegments [])
    end.

Definition advanceDestruction (length : Q) : M bool :=
  let! destroyerSegment := gets segmentWhereDestroyerConnects in
  match destroyerSegment with
  | None =>
      log " - Warning: Attempt to advance the destruction of mRNA that has no content left." ;;;
      ret true
  | Some seg =>
      reduceLength length ;;;
      let! present := gets (containsSegment seg) in
      (if present then modify (realignSegmentsFrom seg) else ret tt) ;;;
      let! segments := gets shapeSegments in
      (match segments with
       | [] => ret tt
       | _ :: _ => modify windPointsThroughSegments
       end) ;;;
      let! points := gets shapeDefiningPoints in
      ret (match points with [_] => true | _ => false end)
  end.

Definition getRibosomeAttachmentLocation (ribosome : Ribosome)
  : M (option Vector2) :=
  let! entry :=
    gets (fun st => mapRibosomeToShapeSegment st !! ribosomeId ribosome) in
  match entry with
  | None =>
      log " Warning: Ignoring attempt to obtain attachment point for non-attached ribosome." ;;;
      ret None
  | Some segment =>
      let! s := getSegment segment in
      let! previous := getPreviousShapeSegment segment in
      match previous with
      | None =>
          ret (Some (mkVector2 (v_x (getLowerRightCornerPos s) - LEADER_LENGTH)
                       (v_y (getLowerRightCornerPos s))))
      | Some _ =>
          ret (Some (mkVector2
                       (v_x (getUpperLeftCornerPos s)
                        + translationChannelLength ribosome)
                       (v_y (getUpperLeftCornerPos s))))
      end
  end.

Definition getDestroyerAttachmentLocation : M Vector2 :=
  let! destroyerSegment := gets segmentWhereDestroyerConnects in
  match destroyerSegment with
  | None => ret (mkVector2 0 0)
  | Some segment =>
      let! s := getSegment segment in
      ret (mkVector2 (v_x (getLowerRightCornerPos s) - LEADER_LENGTH)
             (v_y (getLowerRightCornerPos s)))
  end.

Definition releaseFromRibosome (ribosome : Ribosome) : M unit :=
  modify (fun st =>
    withMapRibosomeToShapeSegment
      (delete (ribosomeId ribosome) (mapRibosomeToShapeSegment st)) st) ;;;
  let! m := gets mapRibosomeToShapeSegment in
  if decide (m = ∅) then notifyStateMachine allRibosomesDetached else ret tt.

Definition releaseFromPolymerase : M unit := notifyStateMachine detach.

(** The forEach of getProportionOfRnaTranslated: contained lengths are
    added up until the callback meets the ribosome's segment and returns
    false, which ends the iteration. *)
Fixpoint lengthBeforeSegment (h : gmap nat ShapeSegment) (stop : nat)
  (segments : list nat) (translatedLength : Q) : Q :=
  match segments with
  | [] => translatedLength
  | shapeSegment :: rest =>
      if Nat.eqb shapeSegment stop then translatedLength
      else lengthBeforeSegment h stop rest
             (translatedLength + containedLengthOf h shapeSegment)
  end.

Definition getProportionOfRnaTranslated (ribosome : Ribosome) : M JsNumber :=
  let! segmentInRibosomeChannel :=
    gets (fun st => mapRibosomeToShapeSegment st !! ribosomeId ribosome) in
  match segmentInRibosomeChannel with
  | None => throw TypeError
  | Some seg =>
      let! translatedLength :=
        gets (fun st =>
          lengthBeforeSegment (segmentObjects st) seg (shapeSegments st) 0) in
      let! s := getSegment seg in
      let translatedLength :=
        translatedLength
        + (getContainedLength s
           - (v_x (getLowerRightCornerPos s)
              - v_x (locationProperty (attachmentSite s)))) in
      let! length := gets getLength in
      ret (jsMax (jsDivide translatedLength length) 0)
  end.

Definition RIBOSOME_CONNECTION_DISTANCE : Q := 400.
Definition MRNA_DESTROYER_CONNECT_DISTANCE : Q := 400.

(** The attachment site a proposal returns is the one owned by a segment;
    the model returns the reference of that segment. *)
Definition considerProposalFromByRibosome (ribosome : Ribosome)
  : M (option nat) :=
  let! destroyer := gets messengerRnaDestroyer in
  match destroyer with
  | Some _ => ret None
  | None =>
      let! segments := gets shapeSegments in
      match segments with
      | [] => throw TypeError
      | leading :: _ =>
          let! s := getSegment leading in
          let leadingEdgeAttachmentSite := attachmentSite s in
          match attachedOrAttachingMolecule leadingEdgeAttachmentSite with
          | Some _ => ret None
          | None =>
              if Qlt_le_dec
                   (distanceSquared (locationProperty leadingEdgeAttachmentSite)
                      (entranceOfRnaChannelPos ribosome))
                   (RIBOSOME_CONNECTION_DISTANCE * RIBOSOME_CONNECTION_DISTANCE)
              then
                notifyStateMachine attachedToRibosome ;;;
                modify (fun st =>
                  withMapRibosomeToShapeSegment
                    (<[ribosomeId ribosome := leading]>
                       (mapRibosomeToShapeSegment st)) st) ;;;
                ret (Some leading)
              else ret None
          end
      end
  end.

Definition considerProposalFromByMessengerRnaDestroyer
  (destroyer : MessengerRnaDestroyer) : M (option nat) :=
  let! current := gets messengerRnaDestroyer in
  match current with
  | Some _ => ret None
  | None =>
      let! segments := gets shapeSegments in
      match segments with
      | [] => throw TypeError
      | leading :: _ =>
          let! s := getSegment leading in
          let leadingEdgeAttachmentSite := attachmentSite s in
          match attachedOrAttachingMolecule leadingEdgeAttachmentSite with
          | Some _ => ret None
          | None =>
              if Qlt_le_dec
                   (distanceSquared (locationProperty leadingEdgeAttachmentSite)
                      (destroyerPosition destroyer))
                   (MRNA_DESTROYER_CONNECT_DISTANCE
                    * MRNA_DESTROYER_CONNECT_DISTANCE)
              then
                notifyStateMachine attachToDestroyer ;;;
                modify (withMessengerRnaDestroyer (Some (destroyerId destroyer))) ;;;
                ret (Some leading)
              else ret None
          end
      end
  end.

Definition abortDestruction : M unit :=
  modify (withMessengerRnaDestroyer None) ;;;
  notifyStateMachine forceImmediateUnattachedAndAvailable.


(** ** Reading outcomes *)

Definition outcomeState {A} (o : Outcome A) : MessengerRna :=
  match o with
  | Returns _ st => st
  | Throws _ st => st
  end.

Definition returned {A} (o : Outcome A) : option A :=
  match o with
  | Returns a _ => Some a
  | Throws _ _ => None
  end.

(** [preserves P m]: [P] survives [m], whether [m] returns or throws. *)
Definition preserves {A} (P : MessengerRna -> Prop) (m : M A) : Prop :=
  forall st, P st -> P (outcomeState (m st)).

(** The part of the strand outside the segment store and the segment
    list. *)
Definition facade (st : MessengerRna) :=
  (shapeDefiningPoints st, mapRibosomeToShapeSegment st,
   messengerRnaDestroyer st, segmentWhereDestroyerConnects st,
   mRnaAttachmentStateMachine st, console st).

(** ** Flat segments *)

(** A flat segment has bounds of height zero. *)
Definition flatHeightZero (s : ShapeSegment) : Prop :=
  kind s = FlatSegment -> getHeight (bounds s) == 0.

Definition flatSegmentsFlat (st : MessengerRna) : Prop :=
  forall id s, segmentObjects st !! id = Some s -> flatHeightZero s.

(** The operations of FlatSegment that write bounds. *)
Inductive FlatOperation :=
| OpAdd (length : Q)
| OpRemove (length : Q)
| OpAdvance (length : Q)
| OpAdvanceAndRemove (length : Q)
| OpMaxOutLength.

Definition performFlat (op : FlatOperation) (this : nat) : M unit :=
  match op with
  | OpAdd length => FlatSegment_add length this
  | OpRemove length => FlatSegment_remove length this
  | OpAdvance length => FlatSegment_advance length this
  | OpAdvanceAndRemove length => FlatSegment_advanceAndRemove length this
  | OpMaxOutLength => FlatSegment_maxOutLength this
  end.

(** ** What repositioning may change

    realignSegmentsFrom and windPointsThroughSegments move segments and
    points.  [repositioned st st'] says that [st'] differs from [st] at
    most in where things are: the positions of the points, and the
    position of the bounds and of the attachment site of each segment. *)

Definition sameLengths (s s' : ShapeSegment) : Prop :=
  kind s' = kind s
  /\ capacity s' = capacity s
  /\ getContainedLength s' == getContainedLength s
  /\ getHeight (bounds s') == getHeight (bounds s)
  /\ attachedOrAttachingMolecule (attachmentSite s')
     = attachedOrAttachingMolecule (attachmentSite s).

Definition repositioned (st st' : MessengerRna) : Prop :=
  shapeSegments st' = shapeSegments st
  /\ nextObjectId st' = nextObjectId st
  /\ map targetDistanceToPreviousPoint (shapeDefiningPoints st')
     = map targetDistanceToPreviousPoint (shapeDefiningPoints st)
  /\ mapRibosomeToShapeSegment st' = mapRibosomeToShapeSegment st
  /\ messengerRnaDestroyer st' = messengerRnaDestroyer st
  /\ segmentWhereDestroyerConnects st' = segmentWhereDestroyerConnects st
  /\ mRnaAttachmentStateMachine st' = mRnaAttachmentStateMachine st
  /\ console st' = console st
  /\ (forall id, segmentObjects st' !! id = None <-> segmentObjects st !! id = None)
  /\ (forall id s s',
        segmentObjects st !! id = Some s ->
        segmentObjects st' !! id = Some s' -> sameLengths s s').

(** ** Calls on a strand, and what the caller sees *)

Inductive Call :=
| Call_considerProposalFromByRibosome (ribosome : Ribosome)
| Call_considerProposalFromByMessengerRnaDestroyer
    (destroyer : MessengerRnaDestroyer)
| Call_advanceTranslation (ribosome : Ribosome) (length : Q)
| Call_advanceDestruction (length : Q)
| Call_releaseFromRibosome (ribosome : Ribosome)
| Call_releaseFromPolymerase
| Call_getRibosomeAttachmentLocation (ribosome : Ribosome)
| Call_getDestroyerAttachmentLocation
| Call_getProportionOfRnaTranslated (ribosome : Ribosome)
| Call_abortDestruction.

Inductive Answer :=
| AnswerSite (site : option nat)
| AnswerBoolean (b : bool)
| AnswerNothing
| AnswerLocation (location : option Vector2)
| AnswerNumber (n : JsNumber)
| AnswerThrown (e : Exception).

Definition answer {A} (wrap : A -> Answer) (o : Outcome A)
  : Answer * MessengerRna :=
  match o with
  | Returns a st => (wrap a, st)
  | Throws e st => (AnswerThrown e, st)
  end.

Definition perform (c : Call) (st : MessengerRna) : Answer * MessengerRna :=
  match c with
  | Call_considerProposalFromByRibosome r =>
      answer AnswerSite (considerProposalFromByRibosome r st)
  | Call_considerProposalFromByMessengerRnaDestroyer d =>
      answer AnswerSite (considerProposalFromByMessengerRnaDestroyer d st)
  | Call_advanceTranslation r length =>
      answer AnswerBoolean (advanceTranslation r length st)
  | Call_advanceDestruction length =>
      answer AnswerBoolean (advanceDestruction length st)
  | Call_releaseFromRibosome r =>
      answer (fun _ => AnswerNothing) (releaseFromRibosome r st)
  | Call_releaseFromPolymerase =>
      answer (fun _ => AnswerNothing) (releaseFromPolymerase st)
  | Call_getRibosomeAttachmentLocation r =>
      answer AnswerLocation (getRibosomeAttachmentLocation r st)
  | Call_getDestroyerAttachmentLocation =>
      answer (fun v => AnswerLocation (Some v)) (getDestroyerAttachmentLocation st)
  | Call_getProportionOfRnaTranslated r =>
      answer AnswerNumber (getProportionOfRnaTranslated r st)
  | Call_abortDestruction =>
      answer (fun _ => AnswerNothing) (abortDestruction st)
  end.

(** A sequence of calls, each on the strand the previous one left. *)
Fixpoint performAll (cs : list Call) (st : MessengerRna)
  : list Answer * MessengerRna :=
  match cs with
  | [] => ([], st)
  | c :: cs' =>
      let (a, st1) := perform c st in
      let (answers, st2) := performAll cs' st1 in
      (a :: answers, st2)
  end.

Definition isProposal (c : Call) : bool :=
  match c with
  | Call_considerProposalFromByRibosome _
  | Call_considerProposalFromByMessengerRnaDestroyer _ => true
  | _ => false
  end.

Definition isAbort (c : Call) : bool :=
  match c with
  | Call_abortDestruction => true
  | _ => false
  end.

(** ** Example data *)

Definition exampleEpsilon : Q := 1 # 10000000.
Definition exampleLeaderLength : Q := 100.
Definition exampleInitialCapacity : Q := 1000000000.

(** The upper left corner of the bounds, as a site location. *)
Definition upperLeftCorner (b : Bounds2) : Vector2 :=
  mkVector2 (minX b) (maxY b).

Definition stayInPlace (st : MessengerRna) : MessengerRna := st.
Definition stayAligned (_ : nat) (st : MessengerRna) : MessengerRna := st.

(** A flat segment on the x axis from [lo] to [hi]. *)
Definition flatSegmentOn (lo hi cap : Q) : ShapeSegment :=
  mkShapeSegment FlatSegment (mkBounds2 lo 0 hi 0) cap 0
    (mkAttachmentSite (mkVector2 lo 0) None).

Definition squareSegmentOf (len : Q) : ShapeSegment :=
  mkShapeSegment SquareSegment (mkBounds2 0 0 0 0) exampleInitialCapacity len
    (mkAttachmentSite (mkVector2 0 0) None).

Definition initialStateMachine : AttachmentStateMachine :=
  mkAttachmentStateMachine UnattachedAndAvailable [].

(** A strand whose segment list is [segments], in this order, with object
    ids 0, 1, ..., and whose chain has the given target distances. *)
Definition strandOf (segments : list ShapeSegment) (distances : list Q)
  : MessengerRna :=
  mkMessengerRna
    (list_to_map (zip (seq 0 (length segments)) segments))
    (length segments)
    (seq 0 (length segments))
    (map (mkPointMass (mkVector2 0 0)) distances)
    ∅ None None initialStateMachine [].

Definition exampleRibosome : Ribosome :=
  mkRibosome 7 (mkVector2 0 0) 50.

Definition exampleDestroyer : MessengerRnaDestroyer :=
  mkMessengerRnaDestroyer 9 (mkVector2 0 0) 50.

(** One flat leader of capacity 200 holding 150, followed by a square
    segment holding 850; the chain holds the same 1000. *)
Definition exampleStrand : MessengerRna :=
  strandOf [flatSegmentOn 0 150 200; squareSegmentOf 850] [0; 500; 500].

(** The same strand once a destroyer proposal has been accepted. *)
Definition exampleStrandWithDestroyer : MessengerRna :=
  withMessengerRnaDestroyer (Some 9%nat) exampleStrand.

Definition flatHeightZerob (s : ShapeSegment) : bool :=
  match kind s with
  | FlatSegment => Qeq_bool (getHeight (bounds s)) 0
  | SquareSegment => true
  end.

Definition storeForallb (f : ShapeSegment -> bool) (st : MessengerRna) : bool :=
  forallb (fun e => f (snd e)) (map_to_list (segmentObjects st)).

(** The three grounds for rejecting a proposal made at position [p], within
    [d] of which the proposer must be. *)
Definition rejectionGround (p : Vector2) (d : Q) (st : MessengerRna) : Prop :=
  messengerRnaDestroyer st <> None
  \/ exists leading rest s,
       shapeSegments st = leading :: rest
       /\ segmentObjects st !! leading = Some s
       /\ (attachedOrAttachingMolecule (attachmentSite s) <> None
           \/ d * d <= distanceSquared (locationProperty (attachmentSite s)) p).


(** ** Invariants of the segment operations *)

(** [Good] holds of every segment in the store and [Frame] of the
    strand. *)
Definition segmentWise (Good : ShapeSegment -> Prop)
  (Frame : MessengerRna -> Prop) (st : MessengerRna) : Prop :=
  Frame st /\
  forall id s, segmentObjects st !! id = Some s -> Good s.

Definition destroyerIs (v : option nat) : MessengerRna -> Prop :=
  segmentWise (fun _ => True) (fun st => messengerRnaDestroyer st = v).

(** ** The segments the writes of FlatSegment leave *)

(** The segment after the last statement of add. *)
Definition grownLeft (siteFor : Bounds2 -> Vector2) (growthAmount : Q)
  (s : ShapeSegment) : ShapeSegment :=
  let b := bounds s in
  let b' := setMinMax (minX b - growthAmount) (minY b) (minX b + getWidth b)
              (minY b) in
  withSiteLocation (siteFor b') (withBounds b' s).

(** The segment after the bounds update of remove and the site update that
    ends it. *)
Definition shrunk (siteFor : Bounds2 -> Vector2) (length : Q)
  (s : ShapeSegment) : ShapeSegment :=
  let b := bounds s in
  let b' := setMinMax (minX b) (minY b) (minX b + getWidth b - length)
              (minY b) in
  withSiteLocation (siteFor b') (withBounds b' s).

(** The segment after maxOutLength. *)
Definition maxedOut (siteFor : Bounds2 -> Vector2) (s : ShapeSegment)
  : ShapeSegment :=
  let b := bounds s in
  let g := getRemainingCapacity s in
  let b' := setMinMax (minX b - g) (minY b) (minX b - g + capacity s)
              (minY b) in
  withSiteLocation (siteFor b') (withBounds b' s).

(** ** The proportion translated, in the words of the spec *)

(** The sum of the contained lengths of the listed segments. *)
Definition containedLengthOver (h : gmap nat ShapeSegment) (l : list nat) : Q :=
  foldr (fun id acc => containedLengthOf h id + acc) 0 l.

(** The contained length of all segments preceding the ribosome's segment
    ([preceding]), plus the part of its own segment [s] already past the
    channel entrance. *)
Definition translatedLengthBySpec (h : gmap nat ShapeSegment)
  (preceding : list nat) (s : ShapeSegment) : Q :=
  containedLengthOver h preceding
  + (getContainedLength s
     - (v_x (getLowerRightCornerPos s)
        - v_x (locationProperty (attachmentSite s)))).

(** Two JavaScript numbers that denote the same number. *)
Definition jsSame (m n : JsNumber) : Prop :=
  match m, n with
  | Finite p, Finite q => p == q
  | PosInfinity, PosInfinity => True
  | NegInfinity, NegInfinity => True
  | NaN, NaN => True
  | _, _ => False
  end.

(** A strand whose segments hold more than its chain: a square segment of
    15 before the empty flat segment of the ribosome, and a chain of
    length 12. *)
Definition exampleOvershootStrand : MessengerRna :=
  withMapRibosomeToShapeSegment (<[7%nat := 1%nat]> ∅)
    (strandOf [squareSegmentOf 15; flatSegmentOn 0 0 200] [0; 12]).

(** A strand that has just been made, with its first flat segment still
    empty and a chain of one point, to which the ribosome has attached. *)
Definition exampleNewStrand : MessengerRna :=
  withMapRibosomeToShapeSegment (<[7%nat := 0%nat]> ∅)
    (strandOf [flatSegmentOn 0 0 200] [0]).

(** ** Well-formed strands *)

(** No segment is listed twice, every listed reference has its object, and
    object ids from [nextObjectId] on are unused. *)
Definition wellFormed (st : MessengerRna) : Prop :=
  NoDup (shapeSegments st)
  /\ (forall id, id ∈ shapeSegments st -> is_Some (segmentObjects st !! id))
  /\ (forall j, (nextObjectId st <= j)%nat -> segmentObjects st !! j = None).

Definition wellFormedb (st : MessengerRna) : bool :=
  bool_decide (NoDup (shapeSegments st))
  && forallb (fun id => bool_decide (is_Some (segmentObjects st !! id)))
       (shapeSegments st)
  && forallb (fun e => (fst e <? nextObjectId st)%nat)
       (map_to_list (segmentObjects st)).

(** The strand with a new store, id counter and segment list. *)
Definition withSegments (h : gmap nat ShapeSegment) (n : nat) (l : list nat)
  (st : MessengerRna) : MessengerRna :=
  mkMessengerRna h n l
    (shapeDefiningPoints st) (mapRibosomeToShapeSegment st)
    (messengerRnaDestroyer st) (segmentWhereDestroyerConnects st)
    (mRnaAttachmentStateMachine st) (console st).

(** ** What the segment operations do to a well-formed strand *)

(** The effect of [remove( length )] on the segment [id], listed between
    [A] and [B]: its object shrinks by [length], and it leaves the list
    when less than epsilon is left in it. *)
Definition removeEffect (epsilon length : Q) (id : nat) (A B : list nat)
  (st st' : MessengerRna) : Prop :=
  facade st' = facade st
  /\ nextObjectId st' = nextObjectId st
  /\ exists p p',
       segmentObjects st !! id = Some p
       /\ segmentObjects st' = <[id := p']> (segmentObjects st)
       /\ kind p' = kind p
       /\ capacity p' = capacity p
       /\ getContainedLength p' == getContainedLength p - length
       /\ ((getContainedLength p' < epsilon /\ shapeSegments st' = A ++ B)
           \/ (epsilon <= getContainedLength p'
               /\ shapeSegments st' = A ++ id :: B)).

(** The effect of [add( amount )] on the segment [id], listed between [A]
    and [B]: the segment and the segment created for the overflow, if
    any, which follows it in the list, together gain [amount]. *)
Definition addEffect (amount : Q) (id : nat) (A B : list nat)
  (st st' : MessengerRna) : Prop :=
  facade st' = facade st
  /\ exists o o' extra,
       segmentObjects st !! id = Some o
       /\ segmentObjects st' !! id = Some o'
       /\ kind o' = kind o
       /\ capacity o' = capacity o
       /\ shapeSegments st' = A ++ id :: extra ++ B
       /\ nextObjectId st' = (nextObjectId st + length extra)%nat
       /\ (extra = [] \/ extra = [nextObjectId st])
       /\ (forall j, j <> id -> j ∉ extra ->
             segmentObjects st' !! j = segmentObjects st !! j)
       /\ (forall j, j ∈ extra -> is_Some (segmentObjects st' !! j))
       /\ getContainedLength o' + containedLengthOver (segmentObjects st') extra
          == getContainedLength o + amount.

(** The effect of [advance] on the segment [this], listed between [pre]
    (the output side) and [post] (the input side): [this] ends with
    [newThis] and stays listed or not as [thisListed] says; the output
    side, with the segments [extra] created there, gains [delivered]; the
    input segment, when there is one, ends with [newInput] and leaves the
    list when less than epsilon is left in it. *)
Definition advanceEffect (epsilon : Q) (this : nat) (pre post : list nat)
  (st st' : MessengerRna) (newThis delivered newInput : Q)
  (thisListed : bool) : Prop :=
  facade st' = facade st
  /\ wellFormed st'
  /\ (exists s s',
        segmentObjects st !! this = Some s
        /\ segmentObjects st' !! this = Some s'
        /\ kind s' = kind s
        /\ capacity s' = capacity s
        /\ getContainedLength s' == newThis)
  /\ exists extra post',
       shapeSegments st'
       = (pre ++ extra) ++ (if thisListed then [this] else []) ++ post'
       /\ containedLengthOver (segmentObjects st') (pre ++ extra)
          == containedLengthOver (segmentObjects st) pre + delivered
       /\ match post with
          | [] => post' = []
          | input :: rest =>
              (forall j, j ∈ rest ->
                 segmentObjects st' !! j = segmentObjects st !! j)
              /\ exists i i',
                   segmentObjects st !! input = Some i
                   /\ segmentObjects st' !! input = Some i'
                   /\ kind i' = kind i
                   /\ capacity i' = capacity i
                   /\ getContainedLength i' == newInput
                   /\ ((getContainedLength i' < epsilon /\ post' = rest)
                       \/ (epsilon <= getContainedLength i' /\ post' = post))
          end.

(** A flat segment of capacity 150 that is full, between a square output
    segment holding 300 and a square input segment holding 700; the chain
    holds the same 1150, and the ribosome is attached to the flat
    segment. *)
Definition exampleTranslationStrand : MessengerRna :=
  withMapRibosomeToShapeSegment (<[7%nat := 1%nat]> ∅)
    (strandOf [squareSegmentOf 300; flatSegmentOn 0 150 150; squareSegmentOf 700]
       [0; 400; 400; 350]).

(** ** Length conservation *)

(** How far the segments are ahead of the chain: the sum of the contained
    lengths over the segment list less the sum of the target distances
    over the chain. *)
Definition lengthGap (st : MessengerRna) : Q :=
  totalContainedLength st - getLength st.

(** The operations that move or remove length on a whole strand. *)
Inductive LengthOperation :=
| Advance (this : nat) (length : Q)
| ReduceLength (reductionAmount : Q).

Definition runLengthOperation (op : LengthOperation) : M unit :=
  match op with
  | Advance this length => FlatSegment_advance length this
  | ReduceLength reductionAmount => reduceLength reductionAmount
  end.

(** The strands on which an operation is used as meant.  advance: the
    segment is flat, listed and within its capacity; it has an output
    segment wherever advance gives length to the one it found, which is
    with no input segment, with an input segment that cannot supply
    [length], and with one that can while the segment is within epsilon
    of full and [length] does not fit; and where the input segment cannot
    supply [length] the two together can.  reduceLength: the amount is
    at least the strand length, and the chain has its first point. *)
Definition admissible (op : LengthOperation) (st : MessengerRna) : Prop :=
  match op with
  | Advance this length =>
      exists s pre post,
        segmentObjects st !! this = Some s
        /\ kind s = FlatSegment
        /\ shapeSegments st = pre ++ this :: post
        /\ getContainedLength s <= capacity s
        /\ (post = [] -> pre <> [])
        /\ (forall input rest i,
              post = input :: rest ->
              segmentObjects st !! input = Some i ->
              (getContainedLength i <= length ->
               pre <> []
               /\ length <= getContainedLength s + getContainedLength i)
              /\ (length < getContainedLength i ->
                  pre <> []
                  \/ getContainedLength s + length <= capacity s
                  \/ FLOATING_POINT_COMP_FACTOR < getRemainingCapacity s))
  | ReduceLength reductionAmount =>
      getLength st <= reductionAmount
      /\ shapeDefiningPoints st <> []
  end.

(** A flat segment holding 1 between a square output segment holding 10
    and a square input segment holding 1; the chain holds the same 12. *)
Definition exampleShortStrand : MessengerRna :=
  strandOf [squareSegmentOf 10; flatSegmentOn 0 1 100; squareSegmentOf 1]
    [0; 12].

(** A flat segment of capacity 100 that is half an epsilon short of full,
    between a square output segment holding 10 and a square input segment
    holding 1000; the chain holds the same length. *)
Definition exampleNearlyFullStrand : MessengerRna :=
  strandOf
    [squareSegmentOf 10;
     flatSegmentOn 0 (100 - exampleEpsilon / 2) 100;
     squareSegmentOf 1000]
    [0; 1110 - exampleEpsilon / 2].

(** [n] times the same computation, stopping at the first exception. *)
Fixpoint repeatedly (n : nat) (m : M unit) : M unit :=
  match n with
  | O => ret tt
  | S n' => bind m (fun _ => repeatedly n' m)
  end.

(** ** Repeated translation *)

(** What [n] calls of advanceTranslation in a row answer. *)
Definition translationAnswers (ribosome : Ribosome) (step : Q) (n : nat)
  (st : MessengerRna) : list Answer :=
  fst (performAll (replicate n (Call_advanceTranslation ribosome step)) st).


(** ** DestroyerTrackingRnaMotionStrategy
    (src/js/common/model/motion-strategies/DestroyerTrackingRnaMotionStrategy.js) *)

(** getNextLocation, for the strategy of a destroyer whose
    [messengerRna] is the strand. *)
Definition DestroyerTrackingRnaMotionStrategy_getNextLocation
  (currentLocation : Vector2) (bounds : Bounds2) (dt : Q) : M Vector2 :=
  let! attachmentLocation := getDestroyerAttachmentLocation in
  ret (mkVector2 (v_x attachmentLocation) (v_y attachmentLocation)).

(** ** Further example strands *)

(** The example strand with the destroyer attached to its leader. *)
Definition exampleStrandBeingDestroyed : MessengerRna :=
  mkMessengerRna (segmentObjects exampleStrand) (nextObjectId exampleStrand)
    (shapeSegments exampleStrand) (shapeDefiningPoints exampleStrand)
    (mapRibosomeToShapeSegment exampleStrand) (Some 9%nat) (Some 0%nat)
    (mRnaAttachmentStateMachine exampleStrand) (console exampleStrand).

(** The example strand with one more flat segment, empty and in no list,
    as a segment is once remove has spliced it out. *)
Definition exampleStrandWithOrphan : MessengerRna :=
  withNextObjectId 3
    (withSegmentObjects
       (<[2%nat := flatSegmentOn 0 0 100]> (segmentObjects exampleStrand))
       exampleStrand).

(** A full leader with nothing before it and a square segment holding 700
    after it. *)
Definition exampleLeaderStrand : MessengerRna :=
  strandOf [flatSegmentOn 0 150 150; squareSegmentOf 700] [0; 850].

(** A strand whose chain is a single point, so that its length is zero,
    with a ribosome on its second segment. *)
Definition exampleStrandOfLengthZero : MessengerRna :=
  withMapRibosomeToShapeSegment (<[7%nat := 1%nat]> ∅)
    (strandOf [squareSegmentOf 15; flatSegmentOn 0 0 200] [0]).

(** A strand with no segment. *)
Definition exampleEmptyStrand : MessengerRna := strandOf [] [0].


(** * Properties *)

(** ** Reasoning about computations *)

Lemma bind_returns {A B} (m : M A) (k : A -> M B) st a st' :
  m st = Returns a st' -> bind m k st = k a st'.
Proof. unfold bind. intros ->. reflexivity. Qed.

Lemma bind_throws {A B} (m : M A) (k : A -> M B) st e st' :
  m st = Throws e st' -> bind m k st = Throws e st'.
Proof. unfold bind. intros ->. reflexivity. Qed.

Lemma bind_bind {A B C} (m : M A) (k : A -> M B) (k' : B -> M C) st :
  bind (bind m k) k' st = bind m (fun a => bind (k a) k') st.
Proof. unfold bind. destruct (m st); reflexivity. Qed.

Lemma bind_ret {A B} (a : A) (k : A -> M B) st : bind (ret a) k st = k a st.
Proof. reflexivity. Qed.

Lemma bind_gets {A B} (f : MessengerRna -> A) (k : A -> M B) st :
  bind (gets f) k st = k (f st) st.
Proof. reflexivity. Qed.

Lemma bind_modify {B} (f : MessengerRna -> MessengerRna) (k : unit -> M B) st :
  bind (modify f) k st = k tt (f st).
Proof. reflexivity. Qed.

(** Run the first step of a computation with a known outcome. *)
Ltac run H := rewrite ?bind_bind; rewrite (bind_returns _ _ _ _ _ H).

Lemma preserves_ret {A} P (a : A) : preserves P (ret a).
Proof. intros st H. exact H. Qed.

Lemma preserves_throw {A} P e : preserves P (@throw A e).
Proof. intros st H. exact H. Qed.

Lemma preserves_gets {A} P (f : MessengerRna -> A) : preserves P (gets f).
Proof. intros st H. exact H. Qed.

Lemma preserves_modify P f :
  (forall st, P st -> P (f st)) -> preserves P (modify f).
Proof. intros Hf st H. apply Hf, H. Qed.

Lemma preserves_bind {A B} P (m : M A) (k : A -> M B) :
  preserves P m -> (forall a, preserves P (k a)) -> preserves P (bind m k).
Proof.
  intros Hm Hk st H. unfold bind.
  specialize (Hm st H). destruct (m st) as [a st'|e st']; simpl in *.
  - apply Hk, Hm.
  - exact Hm.
Qed.

Lemma preserves_getSegment P id : preserves P (getSegment id).
Proof.
  intros st H. unfold getSegment.
  destruct (segmentObjects st !! id); exact H.
Qed.

(** Projections of updated strands and segments. *)
Ltac fields :=
  cbn [segmentObjects nextObjectId shapeSegments shapeDefiningPoints
       mapRibosomeToShapeSegment messengerRnaDestroyer
       segmentWhereDestroyerConnects mRnaAttachmentStateMachine console
       withSegmentObjects withNextObjectId withShapeSegments
       withShapeDefiningPoints withMapRibosomeToShapeSegment
       withMessengerRnaDestroyer withAttachmentStateMachine withConsole
       kind bounds capacity squareContainedLength attachmentSite
       withBounds withCapacity withSquareContainedLength withSiteLocation
       outcomeState returned] in *.

(** One step through a computation, for goals of the form
    [preserves P m]. *)
Ltac preserves_step :=
  lazymatch goal with
  | |- preserves _ (bind _ _) => apply preserves_bind; [| intros ?]
  | |- preserves _ (ret _) => apply preserves_ret
  | |- preserves _ (throw _) => apply preserves_throw
  | |- preserves _ (gets _) => apply preserves_gets
  | |- preserves _ (getSegment _) => apply preserves_getSegment
  | |- preserves _ (match ?x with _ => _ end) => destruct x
  end.

(** ** Operations that only touch the segment store and the segment list *)

Section SegmentWise.

(** [Good] is a property of single segments that every write of the
    segment operations respects; [Frame] is a property of the rest of the
    strand. *)
Variable Good : ShapeSegment -> Prop.
Variable Frame : MessengerRna -> Prop.

Hypothesis Good_site : forall p s, Good s -> Good (withSiteLocation p s).
Hypothesis Good_capacity : forall c s, Good s -> Good (withCapacity c s).
Hypothesis Good_square :
  forall l s, Good s -> Good (withSquareContainedLength l s).
Hypothesis Good_bounds :
  forall x0 y0 x1 s, Good s -> Good (withBounds (setMinMax x0 y0 x1 y0) s).
Hypothesis Good_blank : forall k o, Good (blankSegment k o).

Hypothesis Frame_store :
  forall h st, Frame st -> Frame (withSegmentObjects h st).
Hypothesis Frame_next :
  forall n st, Frame st -> Frame (withNextObjectId n st).
Hypothesis Frame_list :
  forall l st, Frame st -> Frame (withShapeSegments l st).

Local Abbreviation segmentWise := (segmentWise Good Frame).

Lemma segmentWise_updateSegment id f :
  (forall s, Good s -> Good (f s)) ->
  preserves segmentWise (updateSegment id f).
Proof.
  intros Hf st [HF HG]. unfold updateSegment, bind, getSegment.
  destruct (segmentObjects st !! id) as [s|] eqn:E; simpl; [|split; assumption].
  split; [apply Frame_store, HF|].
  intros id' s'. fields. rewrite lookup_insert.
  case_decide; intros Hs; [|eapply HG, Hs].
  inversion Hs; subst. eapply Hf, HG, E.
Qed.

Lemma segmentWise_allocate s :
  Good s -> preserves segmentWise (allocate s).
Proof.
  intros Hs st [HF HG]. unfold allocate; simpl.
  split; [apply Frame_next, Frame_store, HF|].
  intros id' s'. fields. rewrite lookup_insert.
  case_decide; intros Hs'; [|eapply HG, Hs'].
  inversion Hs'; subst. exact Hs.
Qed.

Lemma segmentWise_modify g :
  (forall st, g st = st \/ exists l, g st = withShapeSegments l st) ->
  preserves segmentWise (modify g).
Proof.
  intros Hg st [HF HG]. simpl.
  destruct (Hg st) as [-> | [l ->]]; [split; assumption|].
  split; [apply Frame_list, HF|exact HG].
Qed.

Ltac segment_wise :=
  repeat first
    [ preserves_step
    | apply segmentWise_updateSegment; intros; auto
    | apply segmentWise_allocate; auto
    | apply segmentWise_modify; intros ?; cbv beta zeta;
      try (destruct (_ <? _)%Z); eauto ].

Lemma segmentWise_updateAttachmentSiteLocation this :
  preserves segmentWise
    (updateAttachmentSiteLocation this).
Proof. unfold updateAttachmentSiteLocation. segment_wise. Qed.

Lemma segmentWise_setBounds this x0 y0 x1 :
  preserves segmentWise (setBounds this (setMinMax x0 y0 x1 y0)).
Proof. unfold setBounds. segment_wise. Qed.

Lemma segmentWise_SquareSegment_add l this :
  preserves segmentWise (SquareSegment_add l this).
Proof. unfold SquareSegment_add. segment_wise. Qed.

Lemma segmentWise_SquareSegment_remove l this :
  preserves segmentWise
    (SquareSegment_remove l this).
Proof. unfold SquareSegment_remove. segment_wise. Qed.

Lemma segmentWise_setCapacity this c :
  preserves segmentWise (setCapacity this c).
Proof. unfold setCapacity. segment_wise. Qed.

Lemma segmentWise_FlatSegment_new origin :
  preserves segmentWise (FlatSegment_new origin).
Proof.
  unfold FlatSegment_new, updateAttachmentSiteLocation. segment_wise.
Qed.

Lemma segmentWise_growLeft g this : preserves segmentWise (growLeft g this).
Proof.
  unfold growLeft, setBounds, updateAttachmentSiteLocation. segment_wise.
Qed.

Lemma segmentWise_insertAfterShapeSegment a b :
  preserves segmentWise (insertAfterShapeSegment a b).
Proof. unfold insertAfterShapeSegment. segment_wise. Qed.

Lemma segmentWise_insertBeforeShapeSegment a b :
  preserves segmentWise (insertBeforeShapeSegment a b).
Proof. unfold insertBeforeShapeSegment. segment_wise. Qed.

Lemma segmentWise_FlatSegment_add l this :
  preserves segmentWise (FlatSegment_add l this).
Proof.
  unfold FlatSegment_add, SquareSegment_new.
  repeat first
    [ preserves_step
    | apply segmentWise_allocate; auto
    | apply segmentWise_SquareSegment_add
    | apply segmentWise_insertAfterShapeSegment
    | apply segmentWise_growLeft ].
Qed.

Lemma segmentWise_FlatSegment_remove l this :
  preserves segmentWise (FlatSegment_remove l this).
Proof.
  unfold FlatSegment_remove, setBounds, updateAttachmentSiteLocation.
  segment_wise.
Qed.

Lemma segmentWise_FlatSegment_maxOutLength this :
  preserves segmentWise (FlatSegment_maxOutLength this).
Proof.
  unfold FlatSegment_maxOutLength, setBounds, updateAttachmentSiteLocation.
  segment_wise.
Qed.

Lemma segmentWise_ShapeSegment_add l o :
  preserves segmentWise (ShapeSegment_add l o).
Proof.
  unfold ShapeSegment_add.
  repeat first
    [ preserves_step
    | apply segmentWise_FlatSegment_add
    | apply segmentWise_SquareSegment_add ].
Qed.

Lemma segmentWise_ShapeSegment_remove l id :
  preserves segmentWise (ShapeSegment_remove l id).
Proof.
  unfold ShapeSegment_remove.
  repeat first
    [ preserves_step
    | apply segmentWise_FlatSegment_remove
    | apply segmentWise_SquareSegment_remove ].
Qed.

Ltac segment_ops :=
  repeat first
    [ preserves_step
    | apply segmentWise_FlatSegment_add
    | apply segmentWise_FlatSegment_remove
    | apply segmentWise_FlatSegment_maxOutLength
    | apply segmentWise_FlatSegment_new
    | apply segmentWise_ShapeSegment_add
    | apply segmentWise_ShapeSegment_remove
    | apply segmentWise_setCapacity
    | apply segmentWise_insertBeforeShapeSegment
    | apply segmentWise_updateAttachmentSiteLocation ].

Lemma segmentWise_FlatSegment_advance l this :
  preserves segmentWise (FlatSegment_advance l this).
Proof.
  unfold FlatSegment_advance, getPreviousShapeSegment, getNextShapeSegment.
  segment_ops.
Qed.

Lemma segmentWise_FlatSegment_advanceAndRemove l this :
  preserves segmentWise (FlatSegment_advanceAndRemove l this).
Proof.
  unfold FlatSegment_advanceAndRemove, getNextShapeSegment.
  segment_ops.
Qed.

End SegmentWise.

Lemma storeForallb_sound (f : ShapeSegment -> bool) (P : ShapeSegment -> Prop)
  st :
  (forall s, f s = true -> P s) ->
  storeForallb f st = true ->
  forall id s, segmentObjects st !! id = Some s -> P s.
Proof.
  intros Hf Hall id s Hs. apply Hf.
  unfold storeForallb in Hall. rewrite forallb_forall in Hall.
  apply (Hall (id, s)). apply list_elem_of_In, elem_of_map_to_list, Hs.
Qed.

Lemma repositioned_refl st : repositioned st st.
Proof.
  clear. unfold repositioned. repeat split; try tauto.
  - congruence.
  - congruence.
  - replace s' with s by congruence. reflexivity.
  - replace s' with s by congruence. reflexivity.
  - congruence.
Qed.

(** ** Flat segments stay flat *)

Lemma flatHeightZero_site p s :
  flatHeightZero s -> flatHeightZero (withSiteLocation p s).
Proof. intros H. exact H. Qed.

Lemma flatHeightZero_capacity c s :
  flatHeightZero s -> flatHeightZero (withCapacity c s).
Proof. intros H. exact H. Qed.

Lemma flatHeightZero_square l s :
  flatHeightZero s -> flatHeightZero (withSquareContainedLength l s).
Proof. intros H. exact H. Qed.

Lemma flatHeightZero_bounds x0 y0 x1 s :
  flatHeightZero s -> flatHeightZero (withBounds (setMinMax x0 y0 x1 y0) s).
Proof. intros _ _. unfold getHeight. simpl. lra. Qed.

Lemma flatHeightZero_blank k o : flatHeightZero (blankSegment k o).
Proof. intros _. unfold getHeight. simpl. lra. Qed.

Lemma flatSegmentsFlat_segmentWise st :
  flatSegmentsFlat st <-> segmentWise flatHeightZero (fun _ => True) st.
Proof. clear. unfold segmentWise, flatSegmentsFlat. tauto. Qed.

Lemma performFlat_flat op this : preserves flatSegmentsFlat (performFlat op this).
Proof.
  intros st H. apply flatSegmentsFlat_segmentWise.
  apply flatSegmentsFlat_segmentWise in H. revert st H.
  change (preserves (segmentWise flatHeightZero (fun _ => True))
            (performFlat op this)).
  destruct op; simpl;
    [ apply segmentWise_FlatSegment_add
    | apply segmentWise_FlatSegment_remove
    | apply segmentWise_FlatSegment_advance
    | apply segmentWise_FlatSegment_advanceAndRemove
    | apply segmentWise_FlatSegment_maxOutLength ];
    first [ exact flatHeightZero_site | exact flatHeightZero_capacity
          | exact flatHeightZero_square | exact flatHeightZero_bounds
          | exact flatHeightZero_blank | intros; exact I ].
Qed.

Lemma FlatSegment_new_returns origin st :
  exists s,
    FlatSegment_new origin st
    = Returns (nextObjectId st)
        (withSegmentObjects
           (<[nextObjectId st := s]>
              (<[nextObjectId st := blankSegment FlatSegment origin]>
                 (segmentObjects st)))
           (withNextObjectId (S (nextObjectId st))
              (withSegmentObjects
                 (<[nextObjectId st := blankSegment FlatSegment origin]>
                    (segmentObjects st)) st)))
    /\ kind s = FlatSegment
    /\ bounds s = setMinMax (v_x origin) (v_y origin) (v_x origin) (v_y origin)
    /\ capacity s = INITIAL_CAPACITY.
Proof.
  eexists. split.
  - unfold FlatSegment_new, bind, allocate, updateAttachmentSiteLocation,
      updateSegment, bind, getSegment, modify, ret. fields.
    rewrite lookup_insert_eq. reflexivity.
  - repeat split.
Qed.

(** C10.  Flat segments stay flat: a newly constructed flat segment has
    bounds of height zero, and add, remove, advance, advanceAndRemove and
    maxOutLength, whether they return or throw, leave every flat segment
    with bounds of height zero; the contained length of a flat segment is
    the width of its bounds. *)
Theorem flat_segments_stay_flat
  (op : FlatOperation) (this : nat) (origin : Vector2) (st : MessengerRna) :
  flatSegmentsFlat st ->
  (exists id st' s,
      FlatSegment_new origin st = Returns id st'
      /\ segmentObjects st' !! id = Some s
      /\ kind s = FlatSegment
      /\ getHeight (bounds s) == 0
      /\ getWidth (bounds s) == 0
      /\ flatSegmentsFlat st')
  /\ flatSegmentsFlat (outcomeState (performFlat op this st))
  /\ (forall id s,
        segmentObjects (outcomeState (performFlat op this st)) !! id = Some s ->
        kind s = FlatSegment ->
        getHeight (bounds s) == 0
        /\ getContainedLength s = getWidth (bounds s)).
Proof.
  intros Hflat. split; [|split].
  - destruct (FlatSegment_new_returns origin st) as (s & Hrun & Hk & Hb & _).
    eexists _, _, s. split; [exact Hrun|]. fields.
    split; [apply lookup_insert_eq|]. split; [exact Hk|].
    rewrite Hb. unfold getHeight, getWidth. simpl.
    split; [lra|]. split; [lra|].
    assert (Hnew : preserves flatSegmentsFlat (FlatSegment_new origin)).
    { intros st0 H0. apply flatSegmentsFlat_segmentWise.
      apply flatSegmentsFlat_segmentWise in H0. revert st0 H0.
      apply segmentWise_FlatSegment_new;
        first [ exact flatHeightZero_site | exact flatHeightZero_blank
              | intros; exact I ]. }
    specialize (Hnew st Hflat). rewrite Hrun in Hnew. exact Hnew.
  - apply performFlat_flat, Hflat.
  - intros id s Hs Hk. split.
    + exact (performFlat_flat op this st Hflat id s Hs Hk).
    + unfold getContainedLength. rewrite Hk. reflexivity.
Qed.

(** ** Precondition violations *)

(** C8.  With no segment connected to a destroyer, advanceDestruction logs
    a warning and returns true, and the segment list, the segments and the
    point chain are as before. *)
Theorem advanceDestruction_without_connected_segment
  (length : Q) (st : MessengerRna) :
  segmentWhereDestroyerConnects st = None ->
  exists st',
    advanceDestruction length st = Returns true st'
    /\ console st'
       = console st
         ++ [" - Warning: Attempt to advance the destruction of mRNA that has no content left."]
    /\ shapeSegments st' = shapeSegments st
    /\ segmentObjects st' = segmentObjects st
    /\ shapeDefiningPoints st' = shapeDefiningPoints st.
Proof.
  intros Hnull. eexists. split.
  - unfold advanceDestruction, bind, gets. rewrite Hnull.
    unfold log, modify, ret. reflexivity.
  - fields. repeat split.
Qed.

(** C7, as the code has it.  For a ribosome that is not in the
    ribosome-to-segment map, getRibosomeAttachmentLocation logs a warning
    and returns null; it does not throw and changes nothing else. *)
Theorem getRibosomeAttachmentLocation_not_attached
  (ribosome : Ribosome) (st : MessengerRna) :
  mapRibosomeToShapeSegment st !! ribosomeId ribosome = None ->
  getRibosomeAttachmentLocation ribosome st
  = Returns None
      (withConsole
         (console st
          ++ [" Warning: Ignoring attempt to obtain attachment point for non-attached ribosome."])
         st).
Proof.
  intros Hnone. unfold getRibosomeAttachmentLocation, bind, gets.
  rewrite Hnone. reflexivity.
Qed.

(** ** Proposals *)

Lemma considerProposalFromByRibosome_rejects ribosome st st' :
  considerProposalFromByRibosome ribosome st = Returns None st' -> st' = st.
Proof.
  unfold considerProposalFromByRibosome, bind, gets, getSegment, ret, throw,
    notifyStateMachine, modify.
  destruct (messengerRnaDestroyer st); [congruence|].
  destruct (shapeSegments st) as [|leading rest]; [congruence|].
  destruct (segmentObjects st !! leading) as [s|]; [|congruence].
  destruct (attachedOrAttachingMolecule (attachmentSite s)); [congruence|].
  destruct (Qlt_le_dec _ _); congruence.
Qed.

Lemma considerProposalFromByMessengerRnaDestroyer_rejects destroyer st st' :
  considerProposalFromByMessengerRnaDestroyer destroyer st = Returns None st' ->
  st' = st.
Proof.
  unfold considerProposalFromByMessengerRnaDestroyer, bind, gets, getSegment,
    ret, throw, notifyStateMachine, modify.
  destruct (messengerRnaDestroyer st); [congruence|].
  destruct (shapeSegments st) as [|leading rest]; [congruence|].
  destruct (segmentObjects st !! leading) as [s|]; [|congruence].
  destruct (attachedOrAttachingMolecule (attachmentSite s)); [congruence|].
  destruct (Qlt_le_dec _ _); congruence.
Qed.

Lemma considerProposalFromByRibosome_ground ribosome st :
  rejectionGround (entranceOfRnaChannelPos ribosome)
    RIBOSOME_CONNECTION_DISTANCE st ->
  considerProposalFromByRibosome ribosome st = Returns None st.
Proof.
  unfold considerProposalFromByRibosome, bind, gets, getSegment, ret.
  intros [Hd | (leading & rest & s & Hl & Hs & Hsite)].
  - destruct (messengerRnaDestroyer st); [reflexivity|congruence].
  - destruct (messengerRnaDestroyer st); [reflexivity|].
    rewrite Hl, Hs.
    destruct (attachedOrAttachingMolecule (attachmentSite s)); [reflexivity|].
    destruct Hsite as [Hocc | Hfar]; [congruence|].
    destruct (Qlt_le_dec _ _) as [Hnear|_]; [lra|reflexivity].
Qed.

Lemma considerProposalFromByMessengerRnaDestroyer_ground destroyer st :
  rejectionGround (destroyerPosition destroyer)
    MRNA_DESTROYER_CONNECT_DISTANCE st ->
  considerProposalFromByMessengerRnaDestroyer destroyer st = Returns None st.
Proof.
  unfold considerProposalFromByMessengerRnaDestroyer, bind, gets, getSegment,
    ret.
  intros [Hd | (leading & rest & s & Hl & Hs & Hsite)].
  - destruct (messengerRnaDestroyer st); [reflexivity|congruence].
  - destruct (messengerRnaDestroyer st); [reflexivity|].
    rewrite Hl, Hs.
    destruct (attachedOrAttachingMolecule (attachmentSite s)); [reflexivity|].
    destruct Hsite as [Hocc | Hfar]; [congruence|].
    destruct (Qlt_le_dec _ _) as [Hnear|_]; [lra|reflexivity].
Qed.

(** C9.  Rejected proposals are side-effect free: when a proposal from a
    ribosome or from a destroyer returns null the strand is exactly as it
    was, so the ribosome-to-segment map, the destroyer reference and the
    notifications of the state machine are unchanged; and a proposal is
    rejected in this way on each of the three grounds (destruction under
    way, leading site occupied, proposer out of range). *)
Theorem rejected_proposals_change_nothing
  (ribosome : Ribosome) (destroyer : MessengerRnaDestroyer)
  (st st' : MessengerRna) :
  considerProposalFromByRibosome ribosome st = Returns None st'
  \/ considerProposalFromByMessengerRnaDestroyer destroyer st = Returns None st' ->
  st' = st
  /\ mapRibosomeToShapeSegment st' = mapRibosomeToShapeSegment st
  /\ messengerRnaDestroyer st' = messengerRnaDestroyer st
  /\ notifications (mRnaAttachmentStateMachine st')
     = notifications (mRnaAttachmentStateMachine st)
  /\ (forall st0,
        rejectionGround (entranceOfRnaChannelPos ribosome)
          RIBOSOME_CONNECTION_DISTANCE st0 ->
        considerProposalFromByRibosome ribosome st0 = Returns None st0)
  /\ (forall st0,
        rejectionGround (destroyerPosition destroyer)
          MRNA_DESTROYER_CONNECT_DISTANCE st0 ->
        considerProposalFromByMessengerRnaDestroyer destroyer st0
        = Returns None st0).
Proof.
  intros H.
  assert (st' = st) as ->.
  { destruct H as [H|H].
    - eapply considerProposalFromByRibosome_rejects, H.
    - eapply considerProposalFromByMessengerRnaDestroyer_rejects, H. }
  repeat split.
  - apply considerProposalFromByRibosome_ground.
  - apply considerProposalFromByMessengerRnaDestroyer_ground.
Qed.

(** ** Destruction *)

(** Repositioning does what its name says. *)
Hypothesis realignSegmentsFrom_repositions :
  forall id st, repositioned st (realignSegmentsFrom id st).
Hypothesis windPointsThroughSegments_repositions :
  forall st, repositioned st (windPointsThroughSegments st).

Lemma destroyerIs_iff v st : destroyerIs v st <-> messengerRnaDestroyer st = v.
Proof. unfold destroyerIs, segmentWise. tauto. Qed.

Lemma destroyerIs_modify v f :
  (forall st, messengerRnaDestroyer (f st) = messengerRnaDestroyer st) ->
  preserves (destroyerIs v) (modify f).
Proof.
  intros Hf. apply preserves_modify. intros st H.
  apply destroyerIs_iff. apply destroyerIs_iff in H. rewrite Hf. exact H.
Qed.

Lemma destroyerIs_realign v seg :
  preserves (destroyerIs v) (modify (realignSegmentsFrom seg)).
Proof.
  apply destroyerIs_modify. intros st.
  apply (realignSegmentsFrom_repositions seg st).
Qed.

Lemma destroyerIs_wind v :
  preserves (destroyerIs v) (modify windPointsThroughSegments).
Proof.
  apply destroyerIs_modify. intros st.
  apply (windPointsThroughSegments_repositions st).
Qed.

Ltac destroyer_kept :=
  repeat first
    [ preserves_step
    | apply destroyerIs_realign
    | apply destroyerIs_wind
    | apply destroyerIs_modify; intros ?; reflexivity
    | apply segmentWise_FlatSegment_advance; auto
    | apply segmentWise_FlatSegment_advanceAndRemove; auto ].

Lemma destroyerIs_advanceTranslation v ribosome length :
  preserves (destroyerIs v) (advanceTranslation ribosome length).
Proof. unfold advanceTranslation, ShapeSegment_advance. destroyer_kept. Qed.

Lemma destroyerIs_reduceLength v length :
  preserves (destroyerIs v) (reduceLength length).
Proof.
  unfold reduceLength, ShapeSegment_advanceAndRemove. destroyer_kept.
Qed.

Lemma destroyerIs_advanceDestruction v length :
  preserves (destroyerIs v) (advanceDestruction length).
Proof.
  unfold advanceDestruction, log.
  repeat first [ apply destroyerIs_reduceLength | destroyer_kept ].
Qed.

Lemma destroyerIs_perform d c st :
  isAbort c = false ->
  messengerRnaDestroyer st = Some d ->
  messengerRnaDestroyer (snd (perform c st)) = Some d.
Proof.
  intros Hc Hd.
  assert (Hanswer : forall A (wrap : A -> Answer) (m : M A),
             preserves (destroyerIs (Some d)) m ->
             messengerRnaDestroyer (snd (answer wrap (m st))) = Some d).
  { intros A wrap m Hm. apply destroyerIs_iff in Hd. specialize (Hm st Hd).
    apply destroyerIs_iff in Hm. destruct (m st); exact Hm. }
  destruct c; try (simpl in Hc; discriminate Hc); unfold perform;
    apply Hanswer.
  - unfold considerProposalFromByRibosome, notifyStateMachine. destroyer_kept.
  - intros st0 H0. apply destroyerIs_iff in H0. apply destroyerIs_iff.
    unfold considerProposalFromByMessengerRnaDestroyer, bind, gets.
    rewrite H0. exact H0.
  - apply destroyerIs_advanceTranslation.
  - apply destroyerIs_advanceDestruction.
  - unfold releaseFromRibosome, notifyStateMachine. destroyer_kept.
  - unfold releaseFromPolymerase, notifyStateMachine. destroyer_kept.
  - unfold getRibosomeAttachmentLocation, getPreviousShapeSegment, log.
    destroyer_kept.
  - unfold getDestroyerAttachmentLocation. destroyer_kept.
  - unfold getProportionOfRnaTranslated. destroyer_kept.
Qed.

Lemma proposal_while_destroyed d c st :
  isProposal c = true ->
  messengerRnaDestroyer st = Some d ->
  perform c st = (AnswerSite None, st).
Proof.
  intros Hc Hd. destruct c; simpl in Hc; try discriminate; simpl.
  - unfold considerProposalFromByRibosome, bind, gets. rewrite Hd. reflexivity.
  - unfold considerProposalFromByMessengerRnaDestroyer, bind, gets.
    rewrite Hd. reflexivity.
Qed.

Lemma performAll_while_destroyed d cs : forall st,
  forallb (fun c => negb (isAbort c)) cs = true ->
  messengerRnaDestroyer st = Some d ->
  messengerRnaDestroyer (snd (performAll cs st)) = Some d
  /\ forall i c,
       cs !! i = Some c -> isProposal c = true ->
       fst (performAll cs st) !! i = Some (AnswerSite None).
Proof.
  induction cs as [|c cs IH]; intros st Hcs Hd; simpl.
  - split; [exact Hd|]. intros i c Hi. destruct i; discriminate.
  - simpl in Hcs. apply andb_prop in Hcs as [Hc Hcs].
    apply negb_true_iff in Hc.
    pose proof (destroyerIs_perform d c st Hc Hd) as Hd1.
    destruct (perform c st) as [a st1] eqn:Hp. simpl in Hd1.
    destruct (IH st1 Hcs Hd1) as [Hd2 Hans].
    destruct (performAll cs st1) as [answers st2] eqn:Hrest. simpl in *.
    split; [exact Hd2|].
    intros [|i] c' Hi Hprop; simpl in *.
    + inversion Hi; subst c'.
      rewrite (proposal_while_destroyed d c st Hprop Hd) in Hp.
      inversion Hp; subst. reflexivity.
    + apply (Hans i c' Hi Hprop).
Qed.

(** C4.  Destruction is terminal.  A destroyer proposal that is accepted
    sets the destroyer reference.  From a strand whose destroyer reference
    is set, along any sequence of calls without abortDestruction, the
    reference stays set and every proposal, from a ribosome or from a
    destroyer, returns null; abortDestruction then sets the reference to
    null and puts the attachment state machine in
    unattached-and-available. *)
Theorem destruction_is_terminal
  (d : nat) (cs : list Call) (st : MessengerRna) :
  messengerRnaDestroyer st = Some d ->
  forallb (fun c => negb (isAbort c)) cs = true ->
  (forall destroyer st0 site st1,
      considerProposalFromByMessengerRnaDestroyer destroyer st0
      = Returns (Some site) st1 ->
      messengerRnaDestroyer st1 = Some (destroyerId destroyer))
  /\ messengerRnaDestroyer (snd (performAll cs st)) = Some d
  /\ (forall i c,
        cs !! i = Some c -> isProposal c = true ->
        fst (performAll cs st) !! i = Some (AnswerSite None))
  /\ exists st',
       abortDestruction (snd (performAll cs st)) = Returns tt st'
       /\ messengerRnaDestroyer st' = None
       /\ attachmentState (mRnaAttachmentStateMachine st')
          = UnattachedAndAvailable.
Proof.
  intros Hd Hcs. split; [|split; [|split]].
  - intros destroyer st0 site st1.
    unfold considerProposalFromByMessengerRnaDestroyer, bind, gets, getSegment,
      ret, throw, notifyStateMachine, modify.
    destruct (messengerRnaDestroyer st0); [congruence|].
    destruct (shapeSegments st0) as [|leading rest]; [congruence|].
    destruct (segmentObjects st0 !! leading) as [s|]; [|congruence].
    destruct (attachedOrAttachingMolecule (attachmentSite s)); [congruence|].
    destruct (Qlt_le_dec _ _); [|congruence].
    intros H. inversion H; subst. reflexivity.
  - apply (performAll_while_destroyed d cs st Hcs Hd).
  - apply (performAll_while_destroyed d cs st Hcs Hd).
  - eexists. split; [reflexivity|]. split; reflexivity.
Qed.

(** ** Running the segment operations *)

Lemma getSegment_returns id s st :
  segmentObjects st !! id = Some s -> getSegment id st = Returns s st.
Proof. unfold getSegment. intros ->. reflexivity. Qed.

Lemma updateSegment_returns id f s st :
  segmentObjects st !! id = Some s ->
  updateSegment id f st
  = Returns tt (withSegmentObjects (<[id := f s]> (segmentObjects st)) st).
Proof.
  intros H. unfold updateSegment.
  rewrite (bind_returns _ _ _ _ _ (getSegment_returns id s st H)).
  reflexivity.
Qed.

Lemma growLeft_returns g this s st :
  segmentObjects st !! this = Some s ->
  growLeft g this st
  = Returns tt
      (withSegmentObjects
         (<[this := grownLeft attachmentSiteLocationFor g s]> (segmentObjects st))
         st).
Proof.
  intros H. unfold growLeft.
  rewrite (bind_returns _ _ _ _ _ (getSegment_returns this s st H)).
  unfold setBounds.
  erewrite bind_returns by (apply updateSegment_returns; exact H).
  unfold updateAttachmentSiteLocation.
  erewrite updateSegment_returns by (fields; apply lookup_insert_eq).
  fields. rewrite insert_insert_eq. reflexivity.
Qed.

Lemma getContainedLength_grownLeft f g s :
  kind s = FlatSegment ->
  getContainedLength (grownLeft f g s) == getContainedLength s + g.
Proof.
  intros Hk. unfold getContainedLength, grownLeft. fields. rewrite Hk.
  unfold getWidth. simpl. lra.
Qed.

Lemma indexOf_app_here this pre post :
  this ∉ pre -> indexOf this (pre ++ this :: post) = Z.of_nat (length pre).
Proof.
  induction pre as [|a pre IH]; intros Hnot; simpl.
  - rewrite Nat.eqb_refl. reflexivity.
  - apply not_elem_of_cons in Hnot as [Hne Hnot].
    destruct (Nat.eqb_spec a this) as [->|_]; [congruence|].
    rewrite (IH Hnot).
    destruct (Z.ltb_spec (Z.of_nat (length pre)) 0); lia.
Qed.

Lemma indexOf_absent this l : this ∉ l -> indexOf this l = (-1)%Z.
Proof.
  induction l as [|a l IH]; intros Hnot; simpl; [reflexivity|].
  apply not_elem_of_cons in Hnot as [Hne Hnot].
  destruct (Nat.eqb_spec a this) as [->|_]; [congruence|].
  rewrite (IH Hnot). reflexivity.
Qed.

Lemma spliceStart_inside (i : nat) l :
  (i <= length l)%nat -> spliceStart (Z.of_nat i) l = i.
Proof.
  intros Hi. unfold spliceStart.
  destruct (Z.ltb_spec (Z.of_nat i) 0); lia.
Qed.

Lemma spliceInsert_after pre this post item :
  spliceInsert (Z.of_nat (length pre) + 1) item (pre ++ this :: post)
  = pre ++ this :: item :: post.
Proof.
  unfold spliceInsert.
  replace (Z.of_nat (length pre) + 1)%Z with (Z.of_nat (length (pre ++ [this])))
    by (rewrite length_app; simpl; lia).
  rewrite spliceStart_inside
    by (rewrite !length_app; simpl; lia).
  replace (pre ++ this :: post) with ((pre ++ [this]) ++ post)
    by (rewrite <- app_assoc; reflexivity).
  rewrite take_app_length, drop_app_length, <- app_assoc. reflexivity.
Qed.

Lemma spliceInsert_before pre this post item :
  spliceInsert (Z.of_nat (length pre)) item (pre ++ this :: post)
  = pre ++ item :: this :: post.
Proof.
  unfold spliceInsert.
  rewrite spliceStart_inside by (rewrite length_app; simpl; lia).
  rewrite take_app_length, drop_app_length. reflexivity.
Qed.

Lemma spliceRemoveOne_here pre this post :
  spliceRemoveOne (Z.of_nat (length pre)) (pre ++ this :: post) = pre ++ post.
Proof.
  unfold spliceRemoveOne.
  rewrite spliceStart_inside by (rewrite length_app; simpl; lia).
  induction pre as [|a pre IH]; simpl; [reflexivity|].
  f_equal. exact IH.
Qed.

Lemma insertedAfter_here pre this post item :
  this ∉ pre ->
  insertedAfter this item (pre ++ this :: post) = pre ++ this :: item :: post.
Proof.
  intros Hnot. unfold insertedAfter. rewrite (indexOf_app_here _ _ _ Hnot).
  destruct (Z.ltb_spec (Z.of_nat (length pre)) 0); [lia|].
  apply spliceInsert_after.
Qed.

Lemma insertedBefore_here pre this post item :
  this ∉ pre ->
  insertedBefore this item (pre ++ this :: post) = pre ++ item :: this :: post.
Proof.
  intros Hnot. unfold insertedBefore. rewrite (indexOf_app_here _ _ _ Hnot).
  destruct (Z.ltb_spec (Z.of_nat (length pre)) 0); [lia|].
  apply spliceInsert_before.
Qed.

Lemma splicedOut_here pre this post :
  this ∉ pre -> splicedOut this (pre ++ this :: post) = pre ++ post.
Proof.
  intros Hnot. unfold splicedOut. rewrite (indexOf_app_here _ _ _ Hnot).
  apply spliceRemoveOne_here.
Qed.

Lemma removedFrom_here pre this post :
  this ∉ pre -> removedFrom this (pre ++ this :: post) = pre ++ post.
Proof.
  intros Hnot. unfold removedFrom. rewrite (indexOf_app_here _ _ _ Hnot).
  destruct (Z.ltb_spec (Z.of_nat (length pre)) 0); [lia|].
  apply spliceRemoveOne_here.
Qed.

Lemma SquareSegment_add_returns length this s st :
  segmentObjects st !! this = Some s ->
  SquareSegment_add length this st
  = Returns tt
      (withSegmentObjects
         (<[this := withSquareContainedLength (squareContainedLength s + length) s]>
            (segmentObjects st)) st).
Proof.
  intros H. unfold SquareSegment_add.
  rewrite (updateSegment_returns _ _ s st H). reflexivity.
Qed.

(** The strand after an add that overflows: a new square segment holds
    the excess and follows the segment in the list. *)
Lemma FlatSegment_add_returns length this s st :
  segmentObjects st !! this = Some s ->
  segmentObjects st !! nextObjectId st = None ->
  FlatSegment_add length this st
  = Returns tt
      (if Qlt_le_dec (capacity s) (getContainedLength s + length)
       then
         withSegmentObjects
           (<[this := grownLeft attachmentSiteLocationFor
                        (capacity s - getContainedLength s) s]>
              (<[nextObjectId st :=
                   withSquareContainedLength
                     (0 + (length - (capacity s - getContainedLength s)))
                     (blankSegment SquareSegment (getLowerRightCornerPos s))]>
                 (segmentObjects st)))
           (withShapeSegments
              (insertedAfter this (nextObjectId st) (shapeSegments st))
              (withNextObjectId (S (nextObjectId st)) st))
       else
         withSegmentObjects
           (<[this := grownLeft attachmentSiteLocationFor length s]>
              (segmentObjects st)) st).
Proof.
  intros Hs Hfresh. unfold FlatSegment_add.
  rewrite (bind_returns _ _ _ _ _ (getSegment_returns this s st Hs)).
  destruct (Qlt_le_dec _ _) as [Hover|Hfits].
  - assert (Hne : nextObjectId st <> this) by congruence.
    unfold SquareSegment_new.
    erewrite bind_returns by reflexivity.
    erewrite bind_returns
      by (apply SquareSegment_add_returns; fields; apply lookup_insert_eq).
    erewrite bind_returns by reflexivity.
    erewrite growLeft_returns
      by (fields; rewrite !lookup_insert_ne by exact Hne; exact Hs).
    fields. rewrite insert_insert_eq. reflexivity.
  - apply growLeft_returns, Hs.
Qed.

(** C3.  Overflow splitting.  A flat segment of capacity [C] with room
    [r = C - contained length] that is asked to add [length > r] ends
    with contained length [C], and a newly created square segment holding
    [length - r] is inserted immediately after it in the segment list;
    with [length <= r] the segment grows by [length], the list is
    unchanged and no segment is created. *)
Theorem overflow_splitting
  (length : Q) (this : nat) (s : ShapeSegment) (st : MessengerRna)
  (pre post : list nat) :
  segmentObjects st !! this = Some s ->
  kind s = FlatSegment ->
  shapeSegments st = pre ++ this :: post ->
  this ∉ pre ->
  segmentObjects st !! nextObjectId st = None ->
  exists st' s',
    FlatSegment_add length this st = Returns tt st'
    /\ segmentObjects st' !! this = Some s'
    /\ kind s' = FlatSegment
    /\ capacity s' = capacity s
    /\ (getRemainingCapacity s < length ->
        getContainedLength s' == capacity s
        /\ exists square,
             segmentObjects st' !! nextObjectId st = Some square
             /\ kind square = SquareSegment
             /\ getContainedLength square == length - getRemainingCapacity s
             /\ shapeSegments st' = pre ++ this :: nextObjectId st :: post)
    /\ (length <= getRemainingCapacity s ->
        getContainedLength s' == getContainedLength s + length
        /\ shapeSegments st' = shapeSegments st
        /\ nextObjectId st' = nextObjectId st
        /\ forall id, id <> this ->
             segmentObjects st' !! id = segmentObjects st !! id).
Proof.
  intros Hs Hk Hlist Hpre Hfresh.
  pose proof (FlatSegment_add_returns length this s st Hs Hfresh) as Hrun.
  unfold getRemainingCapacity.
  destruct (Qlt_le_dec _ _) as [Hover|Hfits].
  - eexists _, _. split; [exact Hrun|]. fields.
    split; [apply lookup_insert_eq|].
    split; [exact Hk|]. split; [reflexivity|]. split.
    + intros _. split.
      * rewrite getContainedLength_grownLeft by exact Hk. lra.
      * assert (Hne : this <> nextObjectId st) by congruence.
        eexists. split.
        { rewrite lookup_insert_ne by exact Hne. apply lookup_insert_eq. }
        split; [reflexivity|]. split.
        { unfold getContainedLength. fields. simpl. lra. }
        rewrite Hlist. apply insertedAfter_here, Hpre.
    + intros Hle. lra.
  - eexists _, _. split; [exact Hrun|]. fields.
    split; [apply lookup_insert_eq|].
    split; [exact Hk|]. split; [reflexivity|]. split.
    + intros Hlt. lra.
    + intros _. split.
      * apply getContainedLength_grownLeft, Hk.
      * repeat split. intros id Hid. apply lookup_insert_ne. congruence.
Qed.

(** ** Sums of contained lengths *)

Lemma containedLengthOver_app h l1 l2 :
  containedLengthOver h (l1 ++ l2)
  == containedLengthOver h l1 + containedLengthOver h l2.
Proof.
  induction l1 as [|a l1 IH]; simpl; [lra|].
  unfold containedLengthOver in *. simpl. rewrite IH. lra.
Qed.

Lemma containedLengthOver_cons h a l :
  containedLengthOver h (a :: l)
  = containedLengthOf h a + containedLengthOver h l.
Proof. reflexivity. Qed.

Lemma containedLengthOver_agree h h' l :
  (forall j, j ∈ l -> h' !! j = h !! j) ->
  containedLengthOver h' l = containedLengthOver h l.
Proof.
  induction l as [|a l IH]; intros Hagree; [reflexivity|].
  rewrite !containedLengthOver_cons.
  rewrite IH by (intros j Hj; apply Hagree; right; exact Hj).
  unfold containedLengthOf. rewrite Hagree by left. reflexivity.
Qed.

Lemma totalContainedLength_over st :
  totalContainedLength st
  = containedLengthOver (segmentObjects st) (shapeSegments st).
Proof. reflexivity. Qed.

Lemma containedLengthOf_insert_eq h id s :
  containedLengthOf (<[id := s]> h) id = getContainedLength s.
Proof. unfold containedLengthOf. rewrite lookup_insert_eq. reflexivity. Qed.

Lemma containedLengthOf_lookup h id s :
  h !! id = Some s -> containedLengthOf h id = getContainedLength s.
Proof. unfold containedLengthOf. intros ->. reflexivity. Qed.

(** ** Well-formed strands *)

Lemma wellFormedb_sound st : wellFormedb st = true -> wellFormed st.
Proof.
  clear. unfold wellFormedb, wellFormed. intros H.
  apply andb_prop in H as [H Hfresh]. apply andb_prop in H as [Hnd Hobj].
  split; [|split].
  - apply bool_decide_eq_true in Hnd. exact Hnd.
  - intros id Hid. rewrite forallb_forall in Hobj.
    apply list_elem_of_In in Hid. apply Hobj in Hid.
    apply bool_decide_eq_true in Hid. exact Hid.
  - intros j Hj. destruct (segmentObjects st !! j) as [s|] eqn:E; [|reflexivity].
    rewrite forallb_forall in Hfresh.
    assert (Hin : In (j, s) (map_to_list (segmentObjects st))).
    { apply list_elem_of_In, elem_of_map_to_list, E. }
    apply Hfresh in Hin. simpl in Hin. apply Nat.ltb_lt in Hin. lia.
Qed.

Lemma wellFormed_fresh st j :
  wellFormed st -> j ∈ shapeSegments st -> (j < nextObjectId st)%nat.
Proof.
  clear. intros (_ & Hobj & Hfresh) Hj.
  destruct (le_lt_dec (nextObjectId st) j) as [Hle|Hlt]; [|exact Hlt].
  apply Hobj in Hj. rewrite (Hfresh j Hle) in Hj. destruct Hj; discriminate.
Qed.

(** ** Effects of remove and add *)

Lemma getContainedLength_shrunk f length s :
  kind s = FlatSegment ->
  getContainedLength (shrunk f length s) == getContainedLength s - length.
Proof.
  intros Hk. unfold getContainedLength, shrunk. fields. rewrite Hk.
  unfold getWidth. simpl. lra.
Qed.

Lemma FlatSegment_remove_returns length this s st :
  segmentObjects st !! this = Some s ->
  FlatSegment_remove length this st
  = Returns tt
      (withSegments
         (<[this := shrunk attachmentSiteLocationFor length s]>
            (segmentObjects st))
         (nextObjectId st)
         (if Qlt_le_dec
               (getContainedLength (shrunk attachmentSiteLocationFor length s))
               FLOATING_POINT_COMP_FACTOR
          then splicedOut this (shapeSegments st)
          else shapeSegments st)
         st).
Proof.
  intros Hs. unfold FlatSegment_remove.
  rewrite (bind_returns _ _ _ _ _ (getSegment_returns this s st Hs)).
  unfold setBounds.
  erewrite bind_returns by (apply updateSegment_returns; exact Hs).
  erewrite bind_returns
    by (apply getSegment_returns; fields; apply lookup_insert_eq).
  change (getContainedLength
            (withBounds
               (setMinMax (minX (bounds s)) (minY (bounds s))
                  (minX (bounds s) + getWidth (bounds s) - length)
                  (minY (bounds s))) s))
    with (getContainedLength (shrunk attachmentSiteLocationFor length s)).
  unfold updateAttachmentSiteLocation.
  destruct (Qlt_le_dec _ _).
  - erewrite bind_returns by reflexivity.
    erewrite updateSegment_returns by (fields; apply lookup_insert_eq).
    unfold withSegments. fields. rewrite insert_insert_eq. reflexivity.
  - erewrite bind_returns by reflexivity.
    erewrite updateSegment_returns by (fields; apply lookup_insert_eq).
    unfold withSegments. fields. rewrite insert_insert_eq. reflexivity.
Qed.

Lemma SquareSegment_remove_returns length this s st :
  segmentObjects st !! this = Some s ->
  SquareSegment_remove length this st
  = Returns tt
      (withSegments
         (<[this := withSquareContainedLength (squareContainedLength s - length) s]>
            (segmentObjects st))
         (nextObjectId st)
         (if Qlt_le_dec
               (getContainedLength
                  (withSquareContainedLength (squareContainedLength s - length) s))
               FLOATING_POINT_COMP_FACTOR
          then removedFrom this (shapeSegments st)
          else shapeSegments st)
         st).
Proof.
  intros Hs. unfold SquareSegment_remove.
  erewrite bind_returns
    by (exact (updateSegment_returns this _ s st Hs)).
  erewrite bind_returns
    by (apply getSegment_returns; fields; apply lookup_insert_eq).
  destruct (Qlt_le_dec _ _); reflexivity.
Qed.

Lemma ShapeSegment_remove_effect length id p A B st :
  segmentObjects st !! id = Some p ->
  shapeSegments st = A ++ id :: B ->
  id ∉ A ->
  exists st',
    ShapeSegment_remove length id st = Returns tt st'
    /\ removeEffect FLOATING_POINT_COMP_FACTOR length id A B st st'.
Proof.
  intros Hp Hlist HA. unfold ShapeSegment_remove.
  rewrite (bind_returns _ _ _ _ _ (getSegment_returns id p st Hp)).
  destruct (kind p) eqn:Hk.
  - rewrite (FlatSegment_remove_returns length id p st Hp).
    eexists. split; [reflexivity|].
    split; [reflexivity|]. split; [reflexivity|].
    exists p, (shrunk attachmentSiteLocationFor length p). fields.
    split; [exact Hp|]. split; [reflexivity|].
    split; [reflexivity|]. split; [reflexivity|].
    split; [apply getContainedLength_shrunk, Hk|].
    destruct (Qlt_le_dec _ _) as [Hlt|Hge].
    + left. split; [exact Hlt|]. rewrite Hlist. apply splicedOut_here, HA.
    + right. split; [exact Hge|exact Hlist].
  - rewrite (SquareSegment_remove_returns length id p st Hp).
    eexists. split; [reflexivity|].
    split; [reflexivity|]. split; [reflexivity|].
    exists p, (withSquareContainedLength (squareContainedLength p - length) p).
    fields.
    split; [exact Hp|]. split; [reflexivity|].
    split; [reflexivity|]. split; [reflexivity|].
    split.
    { unfold getContainedLength. fields. rewrite Hk. reflexivity. }
    destruct (Qlt_le_dec _ _) as [Hlt|Hge].
    + left. split; [exact Hlt|]. rewrite Hlist. apply removedFrom_here, HA.
    + right. split; [exact Hge|exact Hlist].
Qed.

Lemma ShapeSegment_add_effect amount id o A B st :
  segmentObjects st !! id = Some o ->
  shapeSegments st = A ++ id :: B ->
  id ∉ A ->
  segmentObjects st !! nextObjectId st = None ->
  exists st',
    ShapeSegment_add amount (Some id) st = Returns tt st'
    /\ addEffect amount id A B st st'.
Proof.
  intros Ho Hlist HA Hfresh. unfold ShapeSegment_add.
  rewrite (bind_returns _ _ _ _ _ (getSegment_returns id o st Ho)).
  assert (Hne : id <> nextObjectId st) by congruence.
  destruct (kind o) eqn:Hk.
  - rewrite (FlatSegment_add_returns amount id o st Ho Hfresh).
    destruct (Qlt_le_dec _ _) as [Hover|Hfits].
    + eexists. split; [reflexivity|]. split; [reflexivity|].
      exists o, (grownLeft attachmentSiteLocationFor
                   (capacity o - getContainedLength o) o), [nextObjectId st].
      fields.
      split; [exact Ho|]. split; [apply lookup_insert_eq|].
      split; [reflexivity|]. split; [reflexivity|].
      split; [rewrite Hlist; apply insertedAfter_here, HA|].
      split; [simpl; lia|]. split; [right; reflexivity|].
      split.
      { intros j Hj Hjx. rewrite not_elem_of_cons in Hjx.
        destruct Hjx as [Hjn _].
        rewrite !lookup_insert_ne by congruence. reflexivity. }
      split.
      { intros j Hj. apply list_elem_of_singleton in Hj. subst j.
        rewrite lookup_insert_ne by exact Hne. rewrite lookup_insert_eq.
        eexists. reflexivity. }
      rewrite getContainedLength_grownLeft by exact Hk.
      rewrite containedLengthOver_cons.
      unfold containedLengthOf.
      rewrite lookup_insert_ne by exact Hne. rewrite lookup_insert_eq.
      unfold getContainedLength at 3. fields. simpl. lra.
    + eexists. split; [reflexivity|]. split; [reflexivity|].
      exists o, (grownLeft attachmentSiteLocationFor amount o), [].
      fields.
      split; [exact Ho|]. split; [apply lookup_insert_eq|].
      split; [reflexivity|]. split; [reflexivity|].
      split; [exact Hlist|]. split; [simpl; lia|]. split; [left; reflexivity|].
      split.
      { intros j Hj _. apply lookup_insert_ne. congruence. }
      split.
      { intros j Hj. apply elem_of_nil in Hj. contradiction. }
      rewrite getContainedLength_grownLeft by exact Hk.
      unfold containedLengthOver. simpl. lra.
  - rewrite (SquareSegment_add_returns amount id o st Ho).
    eexists. split; [reflexivity|]. split; [reflexivity|].
    exists o, (withSquareContainedLength (squareContainedLength o + amount) o), [].
    fields.
    split; [exact Ho|]. split; [apply lookup_insert_eq|].
    split; [reflexivity|]. split; [reflexivity|].
    split; [exact Hlist|]. split; [simpl; lia|]. split; [left; reflexivity|].
    split.
    { intros j Hj _. apply lookup_insert_ne. congruence. }
    split.
    { intros j Hj. apply elem_of_nil in Hj. contradiction. }
    unfold getContainedLength. fields. rewrite Hk.
    unfold containedLengthOver. simpl. lra.
Qed.

Lemma wellFormed_removeEffect epsilon length id A B st st' :
  wellFormed st ->
  shapeSegments st = A ++ id :: B ->
  removeEffect epsilon length id A B st st' ->
  wellFormed st'.
Proof.
  clear. intros (Hnd & Hobj & Hfresh) Hlist
    (_ & Hnext & p & p' & Hp & Hstore & _ & _ & _ & Hl).
  assert (Hnd' : NoDup (shapeSegments st')).
  { rewrite Hlist in Hnd. destruct Hl as [[_ ->]|[_ ->]]; [|exact Hnd].
    apply NoDup_app in Hnd as (HA & HAB & HB).
    apply NoDup_cons in HB as [_ HB].
    apply NoDup_app. split; [exact HA|]. split; [|exact HB].
    intros x Hx Hx'. apply (HAB x Hx). right. exact Hx'. }
  split; [exact Hnd'|]. split.
  - intros j Hj. rewrite Hstore.
    destruct (decide (j = id)) as [->|Hne].
    + rewrite lookup_insert_eq. eexists. reflexivity.
    + rewrite lookup_insert_ne by congruence. apply Hobj.
      rewrite Hlist. destruct Hl as [[_ Hl]|[_ Hl]]; rewrite Hl in Hj.
      * apply elem_of_app in Hj as [Hj|Hj]; apply elem_of_app;
          [left; exact Hj|right; right; exact Hj].
      * exact Hj.
  - intros j Hj. rewrite Hnext in Hj. rewrite Hstore.
    rewrite lookup_insert_ne; [apply Hfresh, Hj|].
    intros ->. rewrite (Hfresh _ Hj) in Hp. discriminate.
Qed.

Lemma wellFormed_addEffect amount id A B st st' :
  wellFormed st ->
  shapeSegments st = A ++ id :: B ->
  addEffect amount id A B st st' ->
  wellFormed st'.
Proof.
  clear. intros HWF Hlist
    (_ & o & o' & extra & Ho & Ho' & _ & _ & Hl & Hnext & Hextra & Hsame
       & Hsome & _).
  pose proof HWF as (Hnd & Hobj & Hfresh).
  assert (Hid : (id < nextObjectId st)%nat).
  { apply wellFormed_fresh; [exact HWF|]. rewrite Hlist.
    apply elem_of_app. right. left. }
  split; [|split].
  - rewrite Hl. destruct Hextra as [->| ->];
      [simpl; rewrite <- Hlist; exact Hnd|].
    rewrite Hlist in Hnd. simpl.
    apply NoDup_app in Hnd as (HA & HAB & HB).
    apply NoDup_cons in HB as [HidB HB].
    assert (Hnew : nextObjectId st ∉ A ++ id :: B).
    { intros Hin. rewrite <- Hlist in Hin.
      apply (wellFormed_fresh st _ HWF) in Hin. lia. }
    apply NoDup_app. split; [exact HA|]. split.
    + intros x Hx Hx'. apply elem_of_cons in Hx' as [->|Hx'].
      * apply (HAB id Hx). left.
      * apply elem_of_cons in Hx' as [->|Hx'].
        -- apply Hnew. apply elem_of_app. left. exact Hx.
        -- apply (HAB x Hx). right. exact Hx'.
    + apply NoDup_cons. split.
      * intros Hin. apply elem_of_cons in Hin as [->|Hin]; [lia|].
        apply HidB, Hin.
      * apply NoDup_cons. split; [|exact HB].
        intros Hin. apply Hnew. apply elem_of_app. right. right. exact Hin.
  - intros j Hj. rewrite Hl in Hj.
    destruct (decide (j = id)) as [->|Hne]; [rewrite Ho'; eexists; reflexivity|].
    destruct (decide (j ∈ extra)) as [Hin|Hnin]; [apply Hsome, Hin|].
    rewrite (Hsame j Hne Hnin). apply Hobj. rewrite Hlist.
    apply elem_of_app in Hj as [Hj|Hj]; apply elem_of_app; [left; exact Hj|].
    right. apply elem_of_cons in Hj as [->|Hj]; [congruence|].
    apply elem_of_app in Hj as [Hj|Hj]; [contradiction|]. right. exact Hj.
  - intros j Hj. rewrite Hnext in Hj.
    rewrite Hsame.
    + apply Hfresh. lia.
    + lia.
    + destruct Hextra as [->| ->]; [apply not_elem_of_nil|].
      intros Hin. apply list_elem_of_singleton in Hin. simpl in Hj. lia.
Qed.

(** ** Neighbours in the segment list *)

Lemma getPreviousShapeSegment_returns this pre post st :
  shapeSegments st = pre ++ this :: post ->
  this ∉ pre ->
  getPreviousShapeSegment this st = Returns (last pre) st.
Proof.
  clear. intros Hlist Hpre. unfold getPreviousShapeSegment, gets.
  rewrite Hlist, (indexOf_app_here _ _ _ Hpre). f_equal.
  destruct pre as [|a pre] using rev_ind; [reflexivity|].
  rewrite last_snoc, length_app. simpl.
  destruct (Z.ltb_spec 0 (Z.of_nat (length pre + 1))); [|lia].
  replace (Z.to_nat (Z.of_nat (length pre + 1) - 1)) with (length pre) by lia.
  rewrite <- app_assoc. simpl.
  rewrite lookup_app_r by lia. rewrite Nat.sub_diag. reflexivity.
Qed.

Lemma getNextShapeSegment_returns this pre post st :
  shapeSegments st = pre ++ this :: post ->
  this ∉ pre ->
  getNextShapeSegment this st = Returns (head post) st.
Proof.
  clear. intros Hlist Hpre. unfold getNextShapeSegment, gets.
  rewrite Hlist, (indexOf_app_here _ _ _ Hpre). f_equal.
  destruct (Z.ltb_spec (Z.of_nat (length pre)) 0); [lia|].
  replace (Z.to_nat (Z.of_nat (length pre) + 1)) with (length pre + 1)%nat
    by lia.
  rewrite lookup_app_r by lia.
  replace (length pre + 1 - length pre)%nat with 1%nat by lia.
  destruct post; reflexivity.
Qed.

Lemma getNextShapeSegment_absent this st :
  this ∉ shapeSegments st ->
  getNextShapeSegment this st = Returns None st.
Proof.
  clear. intros Hnot. unfold getNextShapeSegment, gets.
  rewrite (indexOf_absent _ _ Hnot). reflexivity.
Qed.

Lemma getPreviousShapeSegment_absent this st :
  this ∉ shapeSegments st ->
  getPreviousShapeSegment this st = Returns None st.
Proof.
  clear. intros Hnot. unfold getPreviousShapeSegment, gets.
  rewrite (indexOf_absent _ _ Hnot). reflexivity.
Qed.

Lemma updateAttachmentSiteLocation_returns this s st :
  segmentObjects st !! this = Some s ->
  updateAttachmentSiteLocation this st
  = Returns tt
      (withSegmentObjects
         (<[this := withSiteLocation (attachmentSiteLocationFor (bounds s)) s]>
            (segmentObjects st)) st).
Proof.
  intros Hs. unfold updateAttachmentSiteLocation.
  rewrite (updateSegment_returns _ _ s st Hs). reflexivity.
Qed.

Lemma FlatSegment_maxOutLength_returns this s st :
  segmentObjects st !! this = Some s ->
  FlatSegment_maxOutLength this st
  = Returns tt
      (withSegmentObjects
         (<[this := maxedOut attachmentSiteLocationFor s]> (segmentObjects st))
         st).
Proof.
  intros Hs. unfold FlatSegment_maxOutLength.
  rewrite (bind_returns _ _ _ _ _ (getSegment_returns this s st Hs)).
  unfold setBounds.
  erewrite bind_returns by (apply updateSegment_returns; exact Hs).
  erewrite updateAttachmentSiteLocation_returns
    by (fields; apply lookup_insert_eq).
  fields. rewrite insert_insert_eq. reflexivity.
Qed.

Lemma getContainedLength_maxedOut f s :
  kind s = FlatSegment -> getContainedLength (maxedOut f s) == capacity s.
Proof.
  intros Hk. unfold getContainedLength, maxedOut. fields. rewrite Hk.
  unfold getWidth. simpl. lra.
Qed.

Lemma setCapacity_returns this c s st :
  segmentObjects st !! this = Some s ->
  setCapacity this c st
  = Returns tt
      (withSegmentObjects (<[this := withCapacity c s]> (segmentObjects st)) st).
Proof.
  intros Hs. unfold setCapacity.
  rewrite (updateSegment_returns _ _ s st Hs). reflexivity.
Qed.

Lemma FlatSegment_remove_effect length this s A B st :
  segmentObjects st !! this = Some s ->
  kind s = FlatSegment ->
  shapeSegments st = A ++ this :: B ->
  this ∉ A ->
  exists st',
    FlatSegment_remove length this st = Returns tt st'
    /\ removeEffect FLOATING_POINT_COMP_FACTOR length this A B st st'.
Proof.
  intros Hs Hk Hlist HA.
  destruct (ShapeSegment_remove_effect length this s A B st Hs Hlist HA)
    as (st' & Hrun & Heff).
  exists st'. split; [|exact Heff].
  unfold ShapeSegment_remove in Hrun.
  rewrite (bind_returns _ _ _ _ _ (getSegment_returns this s st Hs)) in Hrun.
  rewrite Hk in Hrun. exact Hrun.
Qed.

(** ** The effect of advance *)

Lemma removeEffect_lookup_ne epsilon length id A B st st' j :
  removeEffect epsilon length id A B st st' ->
  j <> id ->
  segmentObjects st' !! j = segmentObjects st !! j.
Proof.
  clear. intros (_ & _ & p & p' & _ & Hstore & _) Hne.
  rewrite Hstore. apply lookup_insert_ne. congruence.
Qed.

Lemma containedLengthOver_insert_notin h id x l :
  id ∉ l -> containedLengthOver (<[id := x]> h) l = containedLengthOver h l.
Proof.
  clear. intros Hnot. apply containedLengthOver_agree.
  intros j Hj. apply lookup_insert_ne. intros ->. contradiction.
Qed.

Lemma wellFormed_update st id s x :
  wellFormed st ->
  segmentObjects st !! id = Some s ->
  wellFormed (withSegmentObjects (<[id := x]> (segmentObjects st)) st).
Proof.
  clear. intros (Hnd & Hobj & Hfresh) Hs. split; [exact Hnd|]. split; fields.
  - intros j Hj. destruct (decide (j = id)) as [->|Hne].
    + rewrite lookup_insert_eq. eexists. reflexivity.
    + rewrite lookup_insert_ne by congruence. apply Hobj, Hj.
  - intros j Hj. rewrite lookup_insert_ne; [apply Hfresh, Hj|].
    intros ->. rewrite (Hfresh _ Hj) in Hs. discriminate.
Qed.

Lemma NoDup_middle (pre post : list nat) this :
  NoDup (pre ++ this :: post) ->
  (this ∉ pre) /\ (this ∉ post) /\ NoDup pre /\ NoDup post
  /\ forall j, j ∈ pre -> j ∉ post.
Proof.
  clear. intros Hnd. apply NoDup_app in Hnd as (Hpre & Hdisj & Hpost).
  apply NoDup_cons in Hpost as [Hthis Hpost].
  split; [intros Hin; apply (Hdisj this Hin); left|].
  split; [exact Hthis|]. split; [exact Hpre|]. split; [exact Hpost|].
  intros j Hj Hj'. apply (Hdisj j Hj). right. exact Hj'.
Qed.

(** The last statement of advance, and what it leaves untouched. *)
Lemma advance_finish this s' st :
  wellFormed st ->
  segmentObjects st !! this = Some s' ->
  exists st' s'',
    updateAttachmentSiteLocation this st = Returns tt st'
    /\ facade st' = facade st
    /\ wellFormed st'
    /\ shapeSegments st' = shapeSegments st
    /\ segmentObjects st' = <[this := s'']> (segmentObjects st)
    /\ kind s'' = kind s'
    /\ capacity s'' = capacity s'
    /\ getContainedLength s'' = getContainedLength s'.
Proof.
  intros HWF Hs.
  eexists _, _. split; [apply updateAttachmentSiteLocation_returns, Hs|].
  split; [reflexivity|]. split; [eapply wellFormed_update; eassumption|].
  split; [reflexivity|]. split; [reflexivity|]. repeat split.
Qed.

(** Adding to the output segment [out], the last of the output side. *)
Lemma output_add amount out pre0 B st1 :
  wellFormed st1 ->
  shapeSegments st1 = (pre0 ++ [out]) ++ B ->
  exists st2 extra,
    ShapeSegment_add amount (Some out) st1 = Returns tt st2
    /\ facade st2 = facade st1
    /\ wellFormed st2
    /\ shapeSegments st2 = ((pre0 ++ [out]) ++ extra) ++ B
    /\ (forall j, j ∈ extra -> (nextObjectId st1 <= j)%nat)
    /\ (forall j, j <> out -> (j < nextObjectId st1)%nat ->
          segmentObjects st2 !! j = segmentObjects st1 !! j)
    /\ containedLengthOver (segmentObjects st2) ((pre0 ++ [out]) ++ extra)
       == containedLengthOver (segmentObjects st1) (pre0 ++ [out]) + amount.
Proof.
  intros HWF Hlist.
  pose proof HWF as (Hnd & Hobj & Hfresh).
  assert (Hlist' : shapeSegments st1 = pre0 ++ out :: B)
    by (rewrite Hlist, <- app_assoc; reflexivity).
  rewrite Hlist' in Hnd. apply NoDup_middle in Hnd as (Hout & _ & _ & _ & _).
  destruct (Hobj out) as [o Ho].
  { rewrite Hlist'. apply elem_of_app. right. left. }
  assert (Hnext : segmentObjects st1 !! nextObjectId st1 = None)
    by (apply Hfresh; lia).
  destruct (ShapeSegment_add_effect amount out o pre0 B st1 Ho Hlist' Hout Hnext)
    as (st2 & Hrun & Heff).
  pose proof (wellFormed_addEffect _ _ _ _ _ _ HWF Hlist' Heff) as HWF2.
  destruct Heff as (Hfac & o1 & o2 & extra & Ho1 & Ho2 & _ & _ & Hlist2 & Hnext2
                      & Hextra & Hsame & _ & Hsum).
  assert (o1 = o) by congruence. subst o1.
  assert (Hextra_ge : forall j, j ∈ extra -> (nextObjectId st1 <= j)%nat).
  { intros j Hj. destruct Hextra as [->| ->].
    - apply elem_of_nil in Hj. contradiction.
    - apply list_elem_of_singleton in Hj. lia. }
  exists st2, extra. split; [exact Hrun|]. split; [exact Hfac|].
  split; [exact HWF2|].
  split; [rewrite Hlist2, <- !app_assoc; reflexivity|].
  split; [exact Hextra_ge|]. split.
  { intros j Hj Hlt. apply Hsame; [exact Hj|].
    intros Hin. apply Hextra_ge in Hin. lia. }
  assert (Hpre0 : forall j, j ∈ pre0 ->
            segmentObjects st2 !! j = segmentObjects st1 !! j).
  { intros j Hj. apply Hsame.
    - intros ->. contradiction.
    - intros Hin. apply Hextra_ge in Hin.
      assert (j < nextObjectId st1)%nat; [|lia].
      apply wellFormed_fresh; [exact HWF|]. rewrite Hlist'.
      apply elem_of_app. left. exact Hj. }
  rewrite <- !app_assoc. simpl.
  rewrite !containedLengthOver_app, !containedLengthOver_cons.
  rewrite (containedLengthOver_agree _ _ pre0 Hpre0).
  unfold containedLengthOf. rewrite Ho2, Ho.
  change (containedLengthOver (segmentObjects st1) []) with 0. lra.
Qed.

(** Creating the new leader segment in front of [this]. *)
Lemma new_leader origin this s1 pre post st1 :
  wellFormed st1 ->
  segmentObjects st1 !! this = Some s1 ->
  shapeSegments st1 = pre ++ this :: post ->
  exists st4 leader,
    (let! newLeaderSegment := FlatSegment_new origin in
     setCapacity newLeaderSegment LEADER_LENGTH ;;;
     insertBeforeShapeSegment this newLeaderSegment ;;;
     ret (Some newLeaderSegment)) st1
    = Returns (Some (nextObjectId st1)) st4
    /\ facade st4 = facade st1
    /\ wellFormed st4
    /\ shapeSegments st4 = (pre ++ [nextObjectId st1]) ++ this :: post
    /\ segmentObjects st4 = <[nextObjectId st1 := leader]> (segmentObjects st1)
    /\ kind leader = FlatSegment
    /\ getContainedLength leader == 0
    /\ nextObjectId st4 = S (nextObjectId st1).
Proof.
  intros HWF Hs Hlist.
  pose proof HWF as (Hnd & Hobj & Hfresh).
  assert (Hthis : this ∉ pre).
  { rewrite Hlist in Hnd. apply NoDup_middle in Hnd. tauto. }
  assert (Hlt : forall j, j ∈ shapeSegments st1 -> (j < nextObjectId st1)%nat).
  { intros j. apply wellFormed_fresh, HWF. }
  destruct (FlatSegment_new_returns origin st1)
    as (nl & Hnew & Hk & Hb & _).
  run Hnew.
  erewrite bind_returns
    by (apply setCapacity_returns; fields; apply lookup_insert_eq).
  unfold insertBeforeShapeSegment.
  erewrite bind_returns by reflexivity.
  unfold ret. eexists _, _. split; [reflexivity|]. fields.
  split; [reflexivity|]. split; [|split; [|split; [|split; [|split]]]].
  - split; [|split]; fields.
    + rewrite Hlist, (insertedBefore_here _ _ _ _ Hthis).
      rewrite Hlist in Hnd, Hlt.
      apply NoDup_app in Hnd as (Hpre & Hdisj & Hpost).
      apply NoDup_app. split; [exact Hpre|]. split.
      * intros x Hx Hx'. apply elem_of_cons in Hx' as [->|Hx'].
        -- assert (nextObjectId st1 < nextObjectId st1)%nat; [|lia].
           apply Hlt. apply elem_of_app. left. exact Hx.
        -- apply (Hdisj x Hx Hx').
      * apply NoDup_cons. split; [|exact Hpost].
        intros Hin.
        assert (nextObjectId st1 < nextObjectId st1)%nat; [|lia].
        apply Hlt. apply elem_of_app. right. exact Hin.
    + intros j Hj. rewrite Hlist, (insertedBefore_here _ _ _ _ Hthis) in Hj.
      destruct (decide (j = nextObjectId st1)) as [->|Hne].
      * rewrite lookup_insert_eq. eexists. reflexivity.
      * rewrite !lookup_insert_ne by congruence. apply Hobj. rewrite Hlist.
        apply elem_of_app in Hj as [Hj|Hj]; apply elem_of_app;
          [left; exact Hj|].
        apply elem_of_cons in Hj as [->|Hj]; [congruence|]. right. exact Hj.
    + intros j Hj. rewrite !lookup_insert_ne by lia. apply Hfresh. lia.
  - rewrite Hlist, (insertedBefore_here _ _ _ _ Hthis), <- app_assoc.
    reflexivity.
  - rewrite !insert_insert_eq. reflexivity.
  - exact Hk.
  - unfold getContainedLength. fields. rewrite Hk, Hb.
    unfold getWidth. simpl. lra.
  - reflexivity.
Qed.

Section AdvanceCases.

Variable length : Q.
Variable this : nat.
Variable s : ShapeSegment.
Variable st : MessengerRna.
Variables pre post : list nat.

Hypothesis epsilon_positive : 0 < FLOATING_POINT_COMP_FACTOR.
Hypothesis st_wellFormed : wellFormed st.
Hypothesis this_object : segmentObjects st !! this = Some s.
Hypothesis this_flat : kind s = FlatSegment.
Hypothesis this_listed : shapeSegments st = pre ++ this :: post.

Lemma advance_this_not_pre : this ∉ pre.
Proof using st_wellFormed this_listed.
  destruct st_wellFormed as (Hnd & _). rewrite this_listed in Hnd.
  apply NoDup_middle in Hnd. tauto.
Qed.

Lemma advance_next_fresh : segmentObjects st !! nextObjectId st = None.
Proof using st_wellFormed.
  destruct st_wellFormed as (_ & _ & Hfresh). apply Hfresh. lia.
Qed.

(** No input segment: the segment shrinks by [min( length, contained )]
    and the output segment is given the same amount. *)
Lemma advance_without_input :
  post = [] ->
  pre <> [] ->
  exists st',
    FlatSegment_advance length this st = Returns tt st'
    /\ advanceEffect FLOATING_POINT_COMP_FACTOR this pre post st st'
         (getContainedLength s - Qmin length (getContainedLength s))
         (Qmin length (getContainedLength s)) 0
         (if Qlt_le_dec
               (getContainedLength s - Qmin length (getContainedLength s))
               FLOATING_POINT_COMP_FACTOR
          then false else true).
Proof using epsilon_positive st_wellFormed this_object this_flat this_listed.
  intros Hpost Hpre.
  pose proof advance_this_not_pre as Hthis.
  subst post.
  destruct pre as [|out pre0 _] using rev_ind; [congruence|]. clear Hpre.
  set (m := Qmin length (getContainedLength s)).
  pose proof st_wellFormed as (Hnd & Hobj & Hfresh).
  rewrite this_listed in Hnd.
  assert (Hout_ne : out <> this).
  { intros ->. apply Hthis. apply elem_of_app. right. left. }
  assert (Hout_pre0 : out ∉ pre0).
  { rewrite <- app_assoc in Hnd. apply NoDup_middle in Hnd. tauto. }
  destruct (Hobj out) as [o Ho].
  { rewrite this_listed. apply elem_of_app. left. apply elem_of_app.
    right. left. }
  unfold FlatSegment_advance.
  run (getPreviousShapeSegment_returns this _ _ st this_listed Hthis).
  run (getNextShapeSegment_returns this _ _ st this_listed Hthis).
  rewrite last_snoc. cbn [head]. cbv iota beta.
  run (getSegment_returns this s st this_object).
  fold m.
  destruct (FlatSegment_remove_effect m this s _ _ st this_object this_flat
              this_listed Hthis) as (st1 & Hrun1 & Heff1).
  run Hrun1.
  pose proof (wellFormed_removeEffect _ _ _ _ _ _ _ st_wellFormed this_listed
                Heff1) as HWF1.
  pose proof (removeEffect_lookup_ne _ _ _ _ _ _ _ out Heff1 Hout_ne) as Hout1.
  rewrite Ho in Hout1.
  destruct Heff1 as (Hfac1 & Hnext1 & p & s1 & Hp & Hstore1 & Hk1 & Hcap1
                       & Hlen1 & Hlist1).
  assert (p = s) by congruence. subst p.
  (* the list after the removal, seen from the output segment *)
  set (B := if Qlt_le_dec (getContainedLength s - m) FLOATING_POINT_COMP_FACTOR
            then [] else [this]).
  assert (Hlist1' : shapeSegments st1 = pre0 ++ out :: B).
  { unfold B. destruct Hlist1 as [[Hlt ->]|[Hge ->]];
      destruct (Qlt_le_dec _ _) as [Hlt'|Hge'];
      try (rewrite Hlen1 in *; exfalso; lra);
      rewrite <- !app_assoc; reflexivity. }
  assert (Hfresh1 : segmentObjects st1 !! nextObjectId st1 = None).
  { destruct HWF1 as (_ & _ & Hf). apply Hf. lia. }
  destruct (ShapeSegment_add_effect m out o pre0 B st1 Hout1 Hlist1'
              Hout_pre0 Hfresh1) as (st2 & Hrun2 & Heff2).
  run Hrun2.
  pose proof (wellFormed_addEffect _ _ _ _ _ _ HWF1 Hlist1' Heff2) as HWF2.
  destruct Heff2 as (Hfac2 & o1 & o2 & extra & Ho1 & Ho2 & Hk2 & Hcap2 & Hlist2
                       & Hnext2 & Hextra & Hsame2 & Hsome2 & Hsum2).
  assert (o1 = o) by congruence. subst o1.
  assert (Hthis_lt : (this < nextObjectId st)%nat).
  { apply wellFormed_fresh; [exact st_wellFormed|]. rewrite this_listed.
    apply elem_of_app. right. left. }
  assert (Hthis_extra : this ∉ extra).
  { destruct Hextra as [->| ->]; [apply not_elem_of_nil|].
    intros Hin. apply list_elem_of_singleton in Hin. lia. }
  assert (Hthis2 : segmentObjects st2 !! this = Some s1).
  { rewrite (Hsame2 this (not_eq_sym Hout_ne) Hthis_extra), Hstore1.
    apply lookup_insert_eq. }
  destruct (advance_finish this s1 st2 HWF2 Hthis2)
    as (st3 & s3 & Hrun3 & Hfac3 & HWF3 & Hlist3 & Hstore3 & Hk3 & Hcap3
          & Hlen3).
  exists st3. split; [exact Hrun3|].
  split; [congruence|]. split; [exact HWF3|]. split.
  { exists s, s3. split; [exact this_object|].
    split; [rewrite Hstore3; apply lookup_insert_eq|].
    split; [congruence|]. split; [congruence|].
    rewrite Hlen3, Hlen1. reflexivity. }
  exists extra, []. split; [|split; [|reflexivity]].
  { rewrite Hlist3, Hlist2. unfold B.
    destruct (Qlt_le_dec _ _); rewrite <- !app_assoc; simpl;
      rewrite ?app_nil_r; reflexivity. }
  (* what the output side holds *)
  assert (Hpre0 : forall j, j ∈ pre0 ->
            segmentObjects st3 !! j = segmentObjects st !! j).
  { intros j Hj.
    assert (Hj_this : j <> this).
    { intros ->. apply Hthis. apply elem_of_app. left. exact Hj. }
    assert (Hj_out : j <> out) by (intros ->; contradiction).
    assert (Hj_lt : (j < nextObjectId st)%nat).
    { apply wellFormed_fresh; [exact st_wellFormed|]. rewrite this_listed.
      apply elem_of_app. left. apply elem_of_app. left. exact Hj. }
    assert (Hj_extra : j ∉ extra).
    { destruct Hextra as [->| ->]; [apply not_elem_of_nil|].
      intros Hin. apply list_elem_of_singleton in Hin. lia. }
    rewrite Hstore3, lookup_insert_ne by congruence.
    rewrite (Hsame2 j Hj_out Hj_extra), Hstore1.
    apply lookup_insert_ne. congruence. }
  rewrite <- !app_assoc. simpl.
  rewrite !containedLengthOver_app, !containedLengthOver_cons.
  rewrite (containedLengthOver_agree _ _ pre0 Hpre0).
  rewrite Hstore3.
  rewrite (containedLengthOver_insert_notin _ _ _ _ Hthis_extra).
  unfold containedLengthOf at 1 2.
  rewrite lookup_insert_ne by congruence. rewrite Ho2, Ho.
  change (containedLengthOver (segmentObjects st) []) with 0. lra.
Qed.

Variable input : nat.
Variable rest : list nat.
Variable i : ShapeSegment.

Hypothesis post_input : post = input :: rest.
Hypothesis input_object : segmentObjects st !! input = Some i.

Lemma advance_input_facts :
  input <> this /\ (input ∉ pre) /\ (input ∉ rest) /\ (this ∉ rest)
  /\ (forall j, j ∈ pre -> j ∉ rest).
Proof using epsilon_positive st_wellFormed this_object this_flat this_listed post_input input_object.
  destruct st_wellFormed as (Hnd & _). rewrite this_listed, post_input in Hnd.
  apply NoDup_middle in Hnd as (_ & Hthis & _ & Hpost & Hdisj).
  apply NoDup_cons in Hpost as [Hinput _].
  split; [intros ->; apply Hthis; left|].
  split; [intros Hin; apply (Hdisj input Hin); left|].
  split; [exact Hinput|].
  split; [intros Hin; apply Hthis; right; exact Hin|].
  intros j Hj Hj'. apply (Hdisj j Hj). right. exact Hj'.
Qed.

(** The input segment holds more than [length] and the segment has room
    for it: the segment grows by [length] and the input segment shrinks by
    [length]. *)
Lemma advance_pulling_with_room :
  length < getContainedLength i ->
  getContainedLength s + length <= capacity s ->
  exists st',
    FlatSegment_advance length this st = Returns tt st'
    /\ advanceEffect FLOATING_POINT_COMP_FACTOR this pre post st st'
         (getContainedLength s + length) 0 (getContainedLength i - length)
         true.
Proof using epsilon_positive st_wellFormed this_object this_flat this_listed post_input input_object.
  intros Hpull Hroom.
  pose proof advance_this_not_pre as Hthis.
  pose proof advance_next_fresh as Hnextfresh.
  pose proof advance_input_facts
    as (Hinput_this & Hinput_pre & Hinput_rest & Hthis_rest & Hpre_rest).
  subst post.
  unfold FlatSegment_advance.
  run (getPreviousShapeSegment_returns this _ _ st this_listed Hthis).
  run (getNextShapeSegment_returns this _ _ st this_listed Hthis).
  cbn [head]. cbv iota beta.
  run (getSegment_returns input i st input_object).
  destruct (Qlt_le_dec length (getContainedLength i)) as [_|Hcontra];
    [|exfalso; lra].
  run (getSegment_returns this s st this_object).
  destruct (Qlt_le_dec (capacity s) (getContainedLength s + length))
    as [Hcontra|_]; [exfalso; lra|].
  pose proof (FlatSegment_add_returns length this s st this_object Hnextfresh)
    as Hrun1.
  destruct (Qlt_le_dec (capacity s) (getContainedLength s + length))
    as [Hcontra|_]; [exfalso; lra|].
  run Hrun1.
  set (s1 := grownLeft attachmentSiteLocationFor length s) in *.
  set (st1 := withSegmentObjects (<[this := s1]> (segmentObjects st)) st) in *.
  assert (HWF1 : wellFormed st1)
    by (eapply wellFormed_update; eassumption).
  assert (Hinput1 : segmentObjects st1 !! input = Some i).
  { unfold st1. fields. rewrite lookup_insert_ne by congruence.
    exact input_object. }
  assert (Hlist1 : shapeSegments st1 = (pre ++ [this]) ++ input :: rest).
  { unfold st1. fields. rewrite this_listed, <- app_assoc. reflexivity. }
  assert (HinputA : input ∉ pre ++ [this]).
  { intros Hin. apply elem_of_app in Hin as [Hin|Hin]; [contradiction|].
    apply list_elem_of_singleton in Hin. contradiction. }
  destruct (ShapeSegment_remove_effect length input i _ _ st1 Hinput1 Hlist1
              HinputA) as (st2 & Hrun2 & Heff2).
  run Hrun2.
  pose proof (wellFormed_removeEffect _ _ _ _ _ _ _ HWF1 Hlist1 Heff2) as HWF2.
  destruct Heff2 as (Hfac2 & Hnext2 & p & i2 & Hp2 & Hstore2 & Hk2 & Hcap2
                       & Hlen2 & Hlist2).
  assert (p = i) by congruence. subst p.
  assert (Hthis2 : segmentObjects st2 !! this = Some s1).
  { rewrite Hstore2, lookup_insert_ne by congruence. unfold st1. fields.
    apply lookup_insert_eq. }
  destruct (advance_finish this s1 st2 HWF2 Hthis2)
    as (st3 & s3 & Hrun3 & Hfac3 & HWF3 & Hlist3 & Hstore3 & Hk3 & Hcap3
          & Hlen3).
  exists st3. split; [exact Hrun3|].
  split; [rewrite Hfac3, Hfac2; reflexivity|]. split; [exact HWF3|]. split.
  { exists s, s3. split; [exact this_object|].
    split; [rewrite Hstore3; apply lookup_insert_eq|].
    split; [rewrite Hk3; reflexivity|]. split; [rewrite Hcap3; reflexivity|].
    rewrite Hlen3. apply getContainedLength_grownLeft, this_flat. }
  assert (Hrest : forall j, j ∈ rest ->
            segmentObjects st3 !! j = segmentObjects st !! j).
  { intros j Hj.
    assert (Hj_this : j <> this) by (intros ->; contradiction).
    assert (Hj_input : j <> input) by (intros ->; contradiction).
    rewrite Hstore3, lookup_insert_ne by congruence.
    rewrite Hstore2, lookup_insert_ne by congruence.
    unfold st1. fields. apply lookup_insert_ne. congruence. }
  assert (Hinput3 : segmentObjects st3 !! input = Some i2).
  { rewrite Hstore3, lookup_insert_ne by congruence.
    rewrite Hstore2. apply lookup_insert_eq. }
  assert (Hside : containedLengthOver (segmentObjects st3) (pre ++ [])
                  == containedLengthOver (segmentObjects st) pre + 0).
  { rewrite app_nil_r, Hstore3, Hstore2. unfold st1. fields.
    rewrite !containedLengthOver_insert_notin by assumption. lra. }
  destruct Hlist2 as [[Hlt Hlist2]|[Hge Hlist2]].
  - exists [], rest. split; [|split; [exact Hside|]].
    + rewrite Hlist3, Hlist2, app_nil_r, <- app_assoc. reflexivity.
    + split; [exact Hrest|]. exists i, i2.
      split; [exact input_object|]. split; [exact Hinput3|].
      split; [exact Hk2|]. split; [exact Hcap2|]. split; [exact Hlen2|].
      left. split; [exact Hlt|reflexivity].
  - exists [], (input :: rest). split; [|split; [exact Hside|]].
    + rewrite Hlist3, Hlist2, app_nil_r, <- app_assoc. reflexivity.
    + split; [exact Hrest|]. exists i, i2.
      split; [exact input_object|]. split; [exact Hinput3|].
      split; [exact Hk2|]. split; [exact Hcap2|]. split; [exact Hlen2|].
      right. split; [exact Hge|reflexivity].
Qed.

(** The input segment holds more than [length], the segment cannot take
    it and is within epsilon of full: the segment is left as it is, the
    output segment is given [length] less the remaining capacity, and the
    input segment shrinks by [length]. *)
Lemma advance_pulling_when_full :
  length < getContainedLength i ->
  capacity s < getContainedLength s + length ->
  getRemainingCapacity s <= FLOATING_POINT_COMP_FACTOR ->
  pre <> [] ->
  exists st',
    FlatSegment_advance length this st = Returns tt st'
    /\ advanceEffect FLOATING_POINT_COMP_FACTOR this pre post st st'
         (getContainedLength s) (length - getRemainingCapacity s)
         (getContainedLength i - length) true.
Proof using epsilon_positive st_wellFormed this_object this_flat this_listed post_input input_object.
  intros Hpull Hover Hfull Hpre.
  pose proof advance_this_not_pre as Hthis.
  pose proof advance_input_facts
    as (Hinput_this & Hinput_pre & Hinput_rest & Hthis_rest & Hpre_rest).
  subst post.
  destruct pre as [|out pre0 _] using rev_ind; [congruence|]. clear Hpre.
  assert (Hout_this : out <> this).
  { intros ->. apply Hthis. apply elem_of_app. right. left. }
  assert (Hout_input : out <> input).
  { intros ->. apply Hinput_pre. apply elem_of_app. right. left. }
  assert (Hlt : forall j, j ∈ pre0 ++ out :: this :: input :: rest ->
                  (j < nextObjectId st)%nat).
  { intros j Hj. apply wellFormed_fresh; [exact st_wellFormed|].
    rewrite this_listed, <- app_assoc. exact Hj. }
  unfold FlatSegment_advance.
  run (getPreviousShapeSegment_returns this _ _ st this_listed Hthis).
  run (getNextShapeSegment_returns this _ _ st this_listed Hthis).
  rewrite last_snoc. cbn [head]. cbv iota beta.
  run (getSegment_returns input i st input_object).
  destruct (Qlt_le_dec length (getContainedLength i)) as [_|Hcontra];
    [|exfalso; lra].
  run (getSegment_returns this s st this_object).
  destruct (Qlt_le_dec (capacity s) (getContainedLength s + length))
    as [_|Hcontra]; [|exfalso; lra].
  destruct (Qlt_le_dec FLOATING_POINT_COMP_FACTOR (getRemainingCapacity s))
    as [Hcontra|_]; [exfalso; lra|].
  rewrite ?bind_bind, bind_ret.
  destruct (output_add (length - getRemainingCapacity s) out pre0
              (this :: input :: rest) st st_wellFormed this_listed)
    as (st1 & extra & Hrun1 & Hfac1 & HWF1 & Hlist1 & Hnext1 & Hsame1 & Hsum1).
  run Hrun1.
  assert (Hinput1 : segmentObjects st1 !! input = Some i).
  { rewrite Hsame1;
      [exact input_object|congruence
      |apply Hlt, elem_of_app; right; right; right; left]. }
  assert (Hlist1' : shapeSegments st1
                    = (((pre0 ++ [out]) ++ extra) ++ [this]) ++ input :: rest).
  { rewrite Hlist1, <- !app_assoc. reflexivity. }
  assert (HinputA : input ∉ ((pre0 ++ [out]) ++ extra) ++ [this]).
  { destruct HWF1 as (Hnd1 & _). rewrite Hlist1' in Hnd1.
    apply NoDup_middle in Hnd1. tauto. }
  destruct (ShapeSegment_remove_effect length input i _ _ st1 Hinput1 Hlist1'
              HinputA) as (st2 & Hrun2 & Heff2).
  run Hrun2.
  pose proof (wellFormed_removeEffect _ _ _ _ _ _ _ HWF1 Hlist1' Heff2) as HWF2.
  destruct Heff2 as (Hfac2 & Hnext2 & p & i2 & Hp2 & Hstore2 & Hk2 & Hcap2
                       & Hlen2 & Hlist2).
  assert (p = i) by congruence. subst p.
  assert (Hthis2 : segmentObjects st2 !! this = Some s).
  { rewrite Hstore2, lookup_insert_ne by congruence.
    rewrite Hsame1;
      [exact this_object|congruence
      |apply Hlt, elem_of_app; right; right; left]. }
  destruct (advance_finish this s st2 HWF2 Hthis2)
    as (st3 & s3 & Hrun3 & Hfac3 & HWF3 & Hlist3 & Hstore3 & Hk3 & Hcap3
          & Hlen3).
  exists st3. split; [exact Hrun3|].
  split; [rewrite Hfac3, Hfac2, Hfac1; reflexivity|].
  split; [exact HWF3|]. split.
  { exists s, s3. split; [exact this_object|].
    split; [rewrite Hstore3; apply lookup_insert_eq|].
    split; [exact Hk3|]. split; [exact Hcap3|]. rewrite Hlen3. reflexivity. }
  assert (Hrest : forall j, j ∈ rest ->
            segmentObjects st3 !! j = segmentObjects st !! j).
  { intros j Hj.
    assert (Hj_this : j <> this) by (intros ->; contradiction).
    assert (Hj_input : j <> input) by (intros ->; contradiction).
    assert (Hj_out : j <> out).
    { intros ->. apply (Hpre_rest out); [|exact Hj].
      apply elem_of_app. right. left. }
    rewrite Hstore3, lookup_insert_ne by congruence.
    rewrite Hstore2, lookup_insert_ne by congruence.
    apply Hsame1; [exact Hj_out|].
    apply Hlt, elem_of_app. right. right. right. right. exact Hj. }
  assert (Hinput3 : segmentObjects st3 !! input = Some i2).
  { rewrite Hstore3, lookup_insert_ne by congruence.
    rewrite Hstore2. apply lookup_insert_eq. }
  assert (Hside : containedLengthOver (segmentObjects st3)
                    ((pre0 ++ [out]) ++ extra)
                  == containedLengthOver (segmentObjects st) (pre0 ++ [out])
                     + (length - getRemainingCapacity s)).
  { assert (Hthis_side : this ∉ (pre0 ++ [out]) ++ extra).
    { intros Hin. apply elem_of_app in Hin as [Hin|Hin]; [contradiction|].
      apply Hnext1 in Hin.
      assert (this < nextObjectId st)%nat; [|lia].
      apply Hlt, elem_of_app. right. right. left. }
    assert (Hinput_side : input ∉ (pre0 ++ [out]) ++ extra).
    { intros Hin. apply HinputA. apply elem_of_app. left. exact Hin. }
    rewrite Hstore3, Hstore2.
    rewrite !containedLengthOver_insert_notin by assumption.
    exact Hsum1. }
  destruct Hlist2 as [[Hlt2 Hlist2]|[Hge2 Hlist2]].
  - exists extra, rest. split; [|split; [exact Hside|]].
    + rewrite Hlist3, Hlist2, <- !app_assoc. reflexivity.
    + split; [exact Hrest|]. exists i, i2.
      split; [exact input_object|]. split; [exact Hinput3|].
      split; [exact Hk2|]. split; [exact Hcap2|]. split; [exact Hlen2|].
      left. split; [exact Hlt2|reflexivity].
  - exists extra, (input :: rest). split; [|split; [exact Hside|]].
    + rewrite Hlist3, Hlist2, <- !app_assoc. reflexivity.
    + split; [exact Hrest|]. exists i, i2.
      split; [exact input_object|]. split; [exact Hinput3|].
      split; [exact Hk2|]. split; [exact Hcap2|]. split; [exact Hlen2|].
      right. split; [exact Hge2|reflexivity].
Qed.

(** The input segment holds more than [length], the segment cannot take
    it and is more than epsilon short of full: the segment is filled to
    capacity, a new leader segment is created in front of it and given
    [length] less the remaining capacity, and the input segment shrinks by
    [length]. *)
Lemma advance_pulling_new_leader :
  length < getContainedLength i ->
  capacity s < getContainedLength s + length ->
  FLOATING_POINT_COMP_FACTOR < getRemainingCapacity s ->
  exists st',
    FlatSegment_advance length this st = Returns tt st'
    /\ advanceEffect FLOATING_POINT_COMP_FACTOR this pre post st st'
         (capacity s) (length - getRemainingCapacity s)
         (getContainedLength i - length) true.
Proof using epsilon_positive st_wellFormed this_object this_flat this_listed post_input input_object.
  intros Hpull Hover Hshort.
  pose proof advance_this_not_pre as Hthis.
  pose proof advance_input_facts
    as (Hinput_this & Hinput_pre & Hinput_rest & Hthis_rest & Hpre_rest).
  subst post.
  assert (Hlt : forall j, j ∈ pre ++ this :: input :: rest ->
                  (j < nextObjectId st)%nat).
  { intros j Hj. apply wellFormed_fresh; [exact st_wellFormed|].
    rewrite this_listed. exact Hj. }
  set (s1 := maxedOut attachmentSiteLocationFor s).
  set (st1 := withSegmentObjects (<[this := s1]> (segmentObjects st)) st).
  assert (HWF1 : wellFormed st1)
    by (eapply wellFormed_update; eassumption).
  assert (Hthis1 : segmentObjects st1 !! this = Some s1)
    by (unfold st1; fields; apply lookup_insert_eq).
  assert (Hlist1 : shapeSegments st1 = pre ++ this :: input :: rest)
    by exact this_listed.
  destruct (new_leader (getUpperLeftCornerPos s1) this s1 pre
              (input :: rest) st1 HWF1 Hthis1 Hlist1)
    as (st4 & leader & Hrun4 & Hfac4 & HWF4 & Hlist4 & Hstore4 & Hkl & Hlenl
          & Hnext4).
  change (nextObjectId st1) with (nextObjectId st) in *.
  set (NL := nextObjectId st) in *.
  destruct (output_add (length - getRemainingCapacity s) NL pre
              (this :: input :: rest) st4 HWF4 Hlist4)
    as (st5 & extra & Hrun5 & Hfac5 & HWF5 & Hlist5 & Hnext5 & Hsame5 & Hsum5).
  assert (Hold : forall j, j ∈ pre ++ this :: input :: rest ->
            j <> this ->
            segmentObjects st5 !! j = segmentObjects st !! j).
  { intros j Hj Hne. apply Hlt in Hj. fold NL in Hj.
    rewrite Hsame5 by lia. rewrite Hstore4, lookup_insert_ne by lia.
    unfold st1. fields. apply lookup_insert_ne. congruence. }
  assert (Hinput5 : segmentObjects st5 !! input = Some i).
  { rewrite Hold; [exact input_object| |exact Hinput_this].
    apply elem_of_app. right. right. left. }
  assert (Hthis5 : segmentObjects st5 !! this = Some s1).
  { assert (this < NL)%nat by (apply Hlt, elem_of_app; right; left).
    rewrite Hsame5 by lia. rewrite Hstore4, lookup_insert_ne by lia.
    exact Hthis1. }
  assert (Hlist5' : shapeSegments st5
                    = (((pre ++ [NL]) ++ extra) ++ [this]) ++ input :: rest).
  { rewrite Hlist5, <- !app_assoc. reflexivity. }
  assert (HinputA : input ∉ ((pre ++ [NL]) ++ extra) ++ [this]).
  { destruct HWF5 as (Hnd5 & _). rewrite Hlist5' in Hnd5.
    apply NoDup_middle in Hnd5. tauto. }
  destruct (ShapeSegment_remove_effect length input i _ _ st5 Hinput5 Hlist5'
              HinputA) as (st6 & Hrun6 & Heff6).
  pose proof (wellFormed_removeEffect _ _ _ _ _ _ _ HWF5 Hlist5' Heff6) as HWF6.
  destruct Heff6 as (Hfac6 & Hnext6 & p & i6 & Hp6 & Hstore6 & Hk6 & Hcap6
                       & Hlen6 & Hlist6).
  assert (p = i) by congruence. subst p.
  assert (Hthis6 : segmentObjects st6 !! this = Some s1).
  { rewrite Hstore6, lookup_insert_ne by congruence. exact Hthis5. }
  destruct (advance_finish this s1 st6 HWF6 Hthis6)
    as (st7 & s7 & Hrun7 & Hfac7 & HWF7 & Hlist7 & Hstore7 & Hk7 & Hcap7
          & Hlen7).
  exists st7. split.
  { unfold FlatSegment_advance.
    run (getPreviousShapeSegment_returns this _ _ st this_listed Hthis).
    run (getNextShapeSegment_returns this _ _ st this_listed Hthis).
    cbn [head]. cbv iota beta.
    run (getSegment_returns input i st input_object).
    destruct (Qlt_le_dec length (getContainedLength i)) as [_|Hcontra];
      [|exfalso; lra].
    run (getSegment_returns this s st this_object).
    destruct (Qlt_le_dec (capacity s) (getContainedLength s + length))
      as [_|Hcontra]; [|exfalso; lra].
    destruct (Qlt_le_dec FLOATING_POINT_COMP_FACTOR (getRemainingCapacity s))
      as [_|Hcontra]; [|exfalso; lra].
    run (FlatSegment_maxOutLength_returns this s st this_object).
    fold s1 st1.
    run (getSegment_returns this s1 st1 Hthis1).
    unfold bind in Hrun4 |- *. rewrite Hrun4. cbv beta iota.
    rewrite Hrun5. cbv beta iota. rewrite Hrun6. cbv beta iota.
    exact Hrun7. }
  split.
  { rewrite Hfac7, Hfac6, Hfac5, Hfac4. reflexivity. }
  split; [exact HWF7|]. split.
  { exists s, s7. split; [exact this_object|].
    split; [rewrite Hstore7; apply lookup_insert_eq|].
    split; [rewrite Hk7; reflexivity|]. split; [rewrite Hcap7; reflexivity|].
    rewrite Hlen7. apply getContainedLength_maxedOut, this_flat. }
  assert (Hrest : forall j, j ∈ rest ->
            segmentObjects st7 !! j = segmentObjects st !! j).
  { intros j Hj.
    assert (Hj_this : j <> this) by (intros ->; contradiction).
    assert (Hj_input : j <> input) by (intros ->; contradiction).
    rewrite Hstore7, lookup_insert_ne by congruence.
    rewrite Hstore6, lookup_insert_ne by congruence.
    apply Hold; [|exact Hj_this].
    apply elem_of_app. right. right. right. exact Hj. }
  assert (Hinput7 : segmentObjects st7 !! input = Some i6).
  { rewrite Hstore7, lookup_insert_ne by congruence.
    rewrite Hstore6. apply lookup_insert_eq. }
  assert (Hside : containedLengthOver (segmentObjects st7)
                    (pre ++ (NL :: extra))
                  == containedLengthOver (segmentObjects st) pre
                     + (length - getRemainingCapacity s)).
  { assert (Hside_eq : pre ++ NL :: extra = (pre ++ [NL]) ++ extra)
      by (rewrite <- app_assoc; reflexivity).
    assert (Hthis_side : this ∉ (pre ++ [NL]) ++ extra).
    { destruct HWF5 as (Hnd5 & _). rewrite Hlist5 in Hnd5.
      apply NoDup_middle in Hnd5. tauto. }
    assert (Hinput_side : input ∉ (pre ++ [NL]) ++ extra).
    { intros Hin. apply HinputA. apply elem_of_app. left. exact Hin. }
    assert (HNL_pre : NL ∉ pre).
    { intros Hin. assert (NL < NL)%nat; [|lia].
      apply Hlt, elem_of_app. left. exact Hin. }
    rewrite Hside_eq, Hstore7, Hstore6.
    rewrite !containedLengthOver_insert_notin by assumption.
    rewrite Hsum5, containedLengthOver_app, containedLengthOver_cons.
    rewrite Hstore4, containedLengthOf_insert_eq.
    rewrite (containedLengthOver_insert_notin _ _ _ _ HNL_pre).
    unfold st1. fields.
    rewrite (containedLengthOver_insert_notin _ _ _ _ Hthis).
    change (containedLengthOver (<[NL:=leader]> (<[this:=s1]> (segmentObjects st))) [])
      with 0.
    lra. }
  destruct Hlist6 as [[Hlt6 Hlist6]|[Hge6 Hlist6]].
  - exists (NL :: extra), rest. split; [|split; [exact Hside|]].
    + rewrite Hlist7, Hlist6, <- !app_assoc. reflexivity.
    + split; [exact Hrest|]. exists i, i6.
      split; [exact input_object|]. split; [exact Hinput7|].
      split; [exact Hk6|]. split; [exact Hcap6|]. split; [exact Hlen6|].
      left. split; [exact Hlt6|reflexivity].
  - exists (NL :: extra), (input :: rest). split; [|split; [exact Hside|]].
    + rewrite Hlist7, Hlist6, <- !app_assoc. reflexivity.
    + split; [exact Hrest|]. exists i, i6.
      split; [exact input_object|]. split; [exact Hinput7|].
      split; [exact Hk6|]. split; [exact Hcap6|]. split; [exact Hlen6|].
      right. split; [exact Hge6|reflexivity].
Qed.

(** The input segment holds no more than [length]: it is drained and
    deleted, the segment shrinks by the shortfall, and the output segment
    is given [length]. *)
Lemma advance_draining_input :
  getContainedLength i <= length ->
  pre <> [] ->
  exists st',
    FlatSegment_advance length this st = Returns tt st'
    /\ advanceEffect FLOATING_POINT_COMP_FACTOR this pre post st st'
         (getContainedLength s - (length - getContainedLength i))
         length 0
         (if Qlt_le_dec
               (getContainedLength s - (length - getContainedLength i))
               FLOATING_POINT_COMP_FACTOR
          then false else true).
Proof using epsilon_positive st_wellFormed this_object this_flat this_listed post_input input_object.
  intros Hdrain Hpre.
  pose proof advance_this_not_pre as Hthis.
  pose proof advance_input_facts
    as (Hinput_this & Hinput_pre & Hinput_rest & Hthis_rest & Hpre_rest).
  subst post.
  destruct pre as [|out pre0 _] using rev_ind; [congruence|]. clear Hpre.
  set (shortfall := length - getContainedLength i).
  pose proof st_wellFormed as (Hnd & Hobj & Hfresh).
  assert (Hout_this : out <> this).
  { intros ->. apply Hthis. apply elem_of_app. right. left. }
  assert (Hout_input : out <> input).
  { intros ->. apply Hinput_pre. apply elem_of_app. right. left. }
  assert (Hlt : forall j, j ∈ shapeSegments st -> (j < nextObjectId st)%nat).
  { intros j. apply wellFormed_fresh, st_wellFormed. }
  unfold FlatSegment_advance.
  run (getPreviousShapeSegment_returns this _ _ st this_listed Hthis).
  run (getNextShapeSegment_returns this _ _ st this_listed Hthis).
  rewrite last_snoc. cbn [head]. cbv iota beta.
  run (getSegment_returns input i st input_object).
  destruct (Qlt_le_dec length (getContainedLength i)) as [Hcontra|_];
    [exfalso; lra|].
  run (getSegment_returns input i st input_object).
  fold shortfall.
  destruct (FlatSegment_remove_effect shortfall this s _ _ st this_object
              this_flat this_listed Hthis) as (st1 & Hrun1 & Heff1).
  run Hrun1.
  pose proof (wellFormed_removeEffect _ _ _ _ _ _ _ st_wellFormed this_listed
                Heff1) as HWF1.
  pose proof (removeEffect_lookup_ne _ _ _ _ _ _ _ input Heff1 Hinput_this)
    as Hinput1.
  rewrite input_object in Hinput1.
  run (getSegment_returns input i st1 Hinput1).
  destruct Heff1 as (Hfac1 & Hnext1 & p & s1 & Hp & Hstore1 & Hk1 & Hcap1
                       & Hlen1 & Hlist1).
  assert (p = s) by congruence. subst p.
  set (B := if Qlt_le_dec (getContainedLength s - shortfall)
                 FLOATING_POINT_COMP_FACTOR
            then [] else [this]).
  assert (Hlist1' : shapeSegments st1 = ((pre0 ++ [out]) ++ B) ++ input :: rest).
  { unfold B. destruct Hlist1 as [[Hlt1 ->]|[Hge1 ->]];
      destruct (Qlt_le_dec _ _) as [Hlt'|Hge'];
      try (rewrite Hlen1 in *; exfalso; lra);
      rewrite <- ?app_assoc; simpl; rewrite ?app_nil_r; reflexivity. }
  assert (HinputA : input ∉ (pre0 ++ [out]) ++ B).
  { intros Hin. apply elem_of_app in Hin as [Hin|Hin]; [contradiction|].
    unfold B in Hin. destruct (Qlt_le_dec _ _).
    - apply elem_of_nil in Hin. contradiction.
    - apply list_elem_of_singleton in Hin. contradiction. }
  destruct (ShapeSegment_remove_effect (getContainedLength i) input i _ _ st1
              Hinput1 Hlist1' HinputA) as (st2 & Hrun2 & Heff2).
  run Hrun2.
  pose proof (wellFormed_removeEffect _ _ _ _ _ _ _ HWF1 Hlist1' Heff2) as HWF2.
  destruct Heff2 as (Hfac2 & Hnext2 & p & i2 & Hp2 & Hstore2 & Hk2 & Hcap2
                       & Hlen2 & Hlist2).
  assert (p = i) by congruence. subst p.
  assert (Hlist2' : shapeSegments st2 = (pre0 ++ [out]) ++ (B ++ rest)).
  { destruct Hlist2 as [[_ ->]|[Hge _]]; [apply eq_sym, app_assoc|].
    rewrite Hlen2 in Hge. exfalso. lra. }
  destruct (output_add length out pre0 (B ++ rest) st2 HWF2 Hlist2')
    as (st3 & extra & Hrun3 & Hfac3 & HWF3 & Hlist3 & Hnext3 & Hsame3 & Hsum3).
  run Hrun3.
  assert (Hlt2 : forall j, j ∈ pre0 ++ out :: this :: input :: rest ->
                   (j < nextObjectId st2)%nat).
  { intros j Hj. rewrite Hnext2, Hnext1. apply Hlt. rewrite this_listed.
    rewrite <- app_assoc. exact Hj. }
  assert (Hthis3 : segmentObjects st3 !! this = Some s1).
  { rewrite Hsame3;
      [|congruence|apply Hlt2, elem_of_app; right; right; left].
    rewrite Hstore2, lookup_insert_ne, Hstore1 by congruence.
    apply lookup_insert_eq. }
  destruct (advance_finish this s1 st3 HWF3 Hthis3)
    as (st4 & s4 & Hrun4 & Hfac4 & HWF4 & Hlist4 & Hstore4 & Hk4 & Hcap4
          & Hlen4).
  exists st4. split; [exact Hrun4|].
  split; [congruence|]. split; [exact HWF4|]. split.
  { exists s, s4. split; [exact this_object|].
    split; [rewrite Hstore4; apply lookup_insert_eq|].
    split; [congruence|]. split; [congruence|].
    rewrite Hlen4, Hlen1. reflexivity. }
  exists extra, rest. split; [|split].
  - rewrite Hlist4, Hlist3. unfold B, shortfall.
    destruct (Qlt_le_dec _ _); reflexivity.
  - assert (Hthis_side : this ∉ (pre0 ++ [out]) ++ extra).
    { intros Hin. apply elem_of_app in Hin as [Hin|Hin]; [contradiction|].
      apply Hnext3 in Hin.
      assert (this < nextObjectId st2)%nat; [|lia].
      apply Hlt2, elem_of_app. right. right. left. }
    rewrite Hstore4, (containedLengthOver_insert_notin _ _ _ _ Hthis_side).
    rewrite Hsum3, Hstore2, Hstore1.
    rewrite !containedLengthOver_insert_notin by assumption. reflexivity.
  - split.
    + intros j Hj.
      assert (Hj_this : j <> this) by (intros ->; contradiction).
      assert (Hj_input : j <> input) by (intros ->; contradiction).
      assert (Hj_out : j <> out).
      { intros ->. apply (Hpre_rest out); [|exact Hj].
        apply elem_of_app. right. left. }
      rewrite Hstore4, lookup_insert_ne by congruence.
      rewrite Hsame3;
        [|exact Hj_out
         |apply Hlt2, elem_of_app; right; right; right; right; exact Hj].
      rewrite Hstore2, lookup_insert_ne, Hstore1 by congruence.
      apply lookup_insert_ne. congruence.
    + exists i, i2. split; [exact input_object|]. split.
      { rewrite Hstore4, lookup_insert_ne by congruence.
        rewrite Hsame3;
          [|congruence|apply Hlt2, elem_of_app; right; right; right; left].
        rewrite Hstore2. apply lookup_insert_eq. }
      split; [exact Hk2|]. split; [exact Hcap2|].
      split; [rewrite Hlen2; lra|].
      left. split; [rewrite Hlen2; lra|reflexivity].
Qed.

End AdvanceCases.


(** ** Length conservation *)

Lemma totalContainedLength_split st this s pre post :
  shapeSegments st = pre ++ this :: post ->
  segmentObjects st !! this = Some s ->
  totalContainedLength st
  == containedLengthOver (segmentObjects st) pre + getContainedLength s
     + containedLengthOver (segmentObjects st) post.
Proof.
  clear. intros Hlist Hs. rewrite totalContainedLength_over, Hlist.
  rewrite containedLengthOver_app, containedLengthOver_cons.
  rewrite (containedLengthOf_lookup _ _ _ Hs). lra.
Qed.

(** The total after an advance, from its effect. *)
Lemma advanceEffect_total epsilon this s pre post st st' newThis delivered
  newInput thisListed :
  advanceEffect epsilon this pre post st st' newThis delivered newInput
    thisListed ->
  segmentObjects st !! this = Some s ->
  shapeSegments st = pre ++ this :: post ->
  exists inputThen inputNow,
    totalContainedLength st
    == containedLengthOver (segmentObjects st) pre + getContainedLength s
       + inputThen
    /\ totalContainedLength st'
       == containedLengthOver (segmentObjects st) pre + delivered
          + (if thisListed then newThis else 0) + inputNow
    /\ (post = [] -> inputThen == inputNow)
    /\ (forall input rest i,
          post = input :: rest ->
          segmentObjects st !! input = Some i ->
          (newInput < epsilon
           /\ inputNow == inputThen - getContainedLength i)
          \/ (epsilon <= newInput
              /\ inputNow == inputThen - getContainedLength i + newInput)).
Proof.
  clear. intros (_ & _ & (s0 & s' & Hs0 & Hs' & _ & _ & Hlen')
                  & extra & post' & Hlist' & Hside & Hpost) Hs Hlist.
  assert (s0 = s) by congruence. subst s0.
  exists (containedLengthOver (segmentObjects st) post),
         (containedLengthOver (segmentObjects st') post').
  split; [exact (totalContainedLength_split st this s pre post Hlist Hs)|].
  split.
  { rewrite totalContainedLength_over, Hlist'.
    rewrite !containedLengthOver_app, <- containedLengthOver_app, Hside.
    destruct thisListed.
    - rewrite containedLengthOver_cons, (containedLengthOf_lookup _ _ _ Hs').
      change (containedLengthOver (segmentObjects st') []) with 0.
      rewrite Hlen'. lra.
    - change (containedLengthOver (segmentObjects st') []) with 0. lra. }
  destruct post as [|input rest].
  - subst post'. split; [reflexivity|]. intros ? ? ? Hcontra. discriminate.
  - split; [discriminate|].
    intros input0 rest0 i0 Heq Hi0. inversion Heq; subst input0 rest0.
    destruct Hpost as (Hrest & i & i' & Hi & Hi' & _ & _ & Hleni & Hstay).
    assert (i0 = i) by congruence. subst i0.
    rewrite containedLengthOver_cons, (containedLengthOf_lookup _ _ _ Hi).
    assert (Hsame : containedLengthOver (segmentObjects st') rest
                    = containedLengthOver (segmentObjects st) rest)
      by (apply containedLengthOver_agree; exact Hrest).
    destruct Hstay as [[Hlt ->]|[Hge ->]].
    + left. split; [rewrite <- Hleni; exact Hlt|]. rewrite Hsame. lra.
    + right. split; [rewrite <- Hleni; exact Hge|].
      rewrite containedLengthOver_cons, (containedLengthOf_lookup _ _ _ Hi').
      rewrite Hsame, Hleni. lra.
Qed.

Lemma advance_conserves this length st :
  0 < FLOATING_POINT_COMP_FACTOR ->
  wellFormed st ->
  admissible (Advance this length) st ->
  exists st',
    FlatSegment_advance length this st = Returns tt st'
    /\ facade st' = facade st
    /\ totalContainedLength st - 2 * FLOATING_POINT_COMP_FACTOR
       < totalContainedLength st'
    /\ totalContainedLength st' <= totalContainedLength st.
Proof.
  intros Heps HWF (s & pre & post & Hs & Hk & Hlist & Hcap & Hlast & Hshort).
  destruct post as [|input rest].
  - destruct (advance_without_input length this s st pre [] Heps HWF Hs Hk
                Hlist eq_refl (Hlast eq_refl)) as (st' & Hrun & Heff).
    exists st'. split; [exact Hrun|]. split; [apply Heff|].
    destruct (advanceEffect_total _ _ _ _ _ _ _ _ _ _ _ Heff Hs Hlist)
      as (inThen & inNow & HT & HT' & Hnil & _).
    specialize (Hnil eq_refl).
    pose proof (Q.le_min_r length (getContainedLength s)) as Hmin.
    destruct (Qlt_le_dec _ _) as [Hlt|Hge]; split; lra.
  - assert (Hinput : is_Some (segmentObjects st !! input)).
    { destruct HWF as (_ & Hobj & _). apply Hobj. rewrite Hlist.
      apply elem_of_app. right. right. left. }
    destruct Hinput as [i Hi].
    destruct (Hshort input rest i eq_refl Hi) as [Hdrained Hpulled].
    destruct (Qlt_le_dec length (getContainedLength i)) as [Hpull|Hdrain].
    + destruct (Qlt_le_dec (capacity s) (getContainedLength s + length))
        as [Hover|Hfits].
      * destruct (Qlt_le_dec FLOATING_POINT_COMP_FACTOR
                    (getRemainingCapacity s)) as [Hfar|Hfull].
        -- destruct (advance_pulling_new_leader length this s st pre _ Heps
                       HWF Hs Hk Hlist input rest i eq_refl Hi Hpull Hover
                       Hfar) as (st' & Hrun & Heff).
           exists st'. split; [exact Hrun|]. split; [apply Heff|].
           destruct (advanceEffect_total _ _ _ _ _ _ _ _ _ _ _ Heff Hs Hlist)
             as (inThen & inNow & HT & HT' & _ & Hcons).
           specialize (Hcons input rest i eq_refl Hi).
           unfold getRemainingCapacity in *.
           destruct Hcons as [[Hgone Hnow]|[Hstay Hnow]]; split; lra.
        -- assert (Hpre : pre <> []).
           { destruct (Hpulled Hpull) as [Hpre|[Hfits|Hfar]];
               [exact Hpre|exfalso; lra|exfalso; lra]. }
           destruct (advance_pulling_when_full length this s st pre _ Heps
                       HWF Hs Hk Hlist input rest i eq_refl Hi Hpull Hover
                       Hfull Hpre) as (st' & Hrun & Heff).
           exists st'. split; [exact Hrun|]. split; [apply Heff|].
           destruct (advanceEffect_total _ _ _ _ _ _ _ _ _ _ _ Heff Hs Hlist)
             as (inThen & inNow & HT & HT' & _ & Hcons).
           specialize (Hcons input rest i eq_refl Hi).
           unfold getRemainingCapacity in *.
           destruct Hcons as [[Hgone Hnow]|[Hstay Hnow]]; split; lra.
      * destruct (advance_pulling_with_room length this s st pre _ Heps
                    HWF Hs Hk Hlist input rest i eq_refl Hi Hpull Hfits)
          as (st' & Hrun & Heff).
        exists st'. split; [exact Hrun|]. split; [apply Heff|].
        destruct (advanceEffect_total _ _ _ _ _ _ _ _ _ _ _ Heff Hs Hlist)
          as (inThen & inNow & HT & HT' & _ & Hcons).
        specialize (Hcons input rest i eq_refl Hi).
        destruct Hcons as [[Hgone Hnow]|[Hstay Hnow]]; split; lra.
    + destruct (Hdrained Hdrain) as [Hpre Hshort'].
      destruct (advance_draining_input length this s st pre _ Heps
                  HWF Hs Hk Hlist input rest i eq_refl Hi Hdrain Hpre)
        as (st' & Hrun & Heff).
      exists st'. split; [exact Hrun|]. split; [apply Heff|].
      destruct (advanceEffect_total _ _ _ _ _ _ _ _ _ _ _ Heff Hs Hlist)
        as (inThen & inNow & HT & HT' & _ & Hcons).
      specialize (Hcons input rest i eq_refl Hi).
      destruct (Qlt_le_dec _ _) as [Hlt|Hge];
        destruct Hcons as [[Hgone Hnow]|[Hstay Hnow]]; split; lra.
Qed.

(** reduceLength by at least the strand length leaves the first point of
    the chain and no segment. *)
Lemma reduceLength_whole_strand amount first rest st :
  getLength st <= amount ->
  shapeDefiningPoints st = first :: rest ->
  reduceLength amount st
  = Returns tt (withShapeSegments [] (withShapeDefiningPoints [first] st)).
Proof.
  clear. intros Hall Hpoints. unfold reduceLength.
  rewrite bind_gets.
  destruct (Qlt_le_dec amount (getLength st)) as [Hless|_]; [exfalso; lra|].
  rewrite bind_gets, Hpoints. reflexivity.
Qed.

(** C1, as the code has it.  One admissible advance on a well-formed
    strand returns, leaves the chain untouched and can only lower the lead
    of the segment sum over the chain sum, by less than twice the
    comparison epsilon, which is what the slivers it drops hold.  One
    reduceLength by at least the strand length returns and leaves no
    segment and the first point of the chain alone, so that the segment
    sum is zero and the chain sum is the target distance of the first
    point. *)
Theorem length_conservation_step (op : LengthOperation) (st : MessengerRna) :
  0 < FLOATING_POINT_COMP_FACTOR ->
  wellFormed st ->
  admissible op st ->
  exists st',
    runLengthOperation op st = Returns tt st'
    /\ match op with
       | Advance _ _ =>
           lengthGap st - 2 * FLOATING_POINT_COMP_FACTOR < lengthGap st'
           /\ lengthGap st' <= lengthGap st
           /\ shapeDefiningPoints st' = shapeDefiningPoints st
       | ReduceLength _ =>
           exists first,
             head (shapeDefiningPoints st) = Some first
             /\ shapeSegments st' = []
             /\ shapeDefiningPoints st' = [first]
             /\ totalContainedLength st' == 0
             /\ getLength st' == targetDistanceToPreviousPoint first
       end.
Proof.
  intros Heps HWF Hop. destruct op as [this length|amount]; simpl.
  - destruct (advance_conserves this length st Heps HWF Hop)
      as (st' & Hrun & Hfac & Hlow & Hhigh).
    assert (Hpoints : shapeDefiningPoints st' = shapeDefiningPoints st).
    { unfold facade in Hfac. congruence. }
    exists st'. split; [exact Hrun|].
    unfold lengthGap, getLength. rewrite Hpoints.
    split; [lra|]. split; [lra|reflexivity].
  - destruct Hop as [Hall Hchain].
    destruct (shapeDefiningPoints st) as [|first rest] eqn:Hpoints;
      [congruence|].
    eexists. split; [exact (reduceLength_whole_strand amount first rest st
                              Hall Hpoints)|].
    exists first. split; [reflexivity|]. split; [reflexivity|].
    split; [reflexivity|]. split; [reflexivity|].
    unfold getLength, totalTargetDistance. simpl. lra.
Qed.

(** ** The proportion of the strand that is translated *)

Lemma lengthBeforeSegment_app h stop pre post acc :
  stop ∉ pre ->
  lengthBeforeSegment h stop (pre ++ stop :: post) acc
  == acc + containedLengthOver h pre.
Proof.
  revert acc. induction pre as [|a pre IH]; intros acc Hnot; simpl.
  - rewrite Nat.eqb_refl. lra.
  - apply not_elem_of_cons in Hnot as [Hne Hnot].
    destruct (Nat.eqb_spec a stop) as [->|_]; [congruence|].
    rewrite (IH _ Hnot). lra.
Qed.

Lemma jsDivide_same a a' b b' :
  a == a' -> b == b' -> jsSame (jsDivide a b) (jsDivide a' b').
Proof.
  intros Ha Hb. unfold jsDivide.
  destruct (Qeq_dec b 0) as [Hz|Hnz]; destruct (Qeq_dec b' 0) as [Hz'|Hnz'].
  - destruct (Q_dec a 0) as [[?|?]|?], (Q_dec a' 0) as [[?|?]|?];
      simpl; try exact I; exfalso; lra.
  - exfalso. apply Hnz'. rewrite <- Hb. exact Hz.
  - exfalso. apply Hnz. rewrite Hb. exact Hz'.
  - simpl. rewrite Ha, Hb. reflexivity.
Qed.

Lemma jsMax_same m n q : jsSame m n -> jsSame (jsMax m q) (jsMax n q).
Proof.
  destruct m, n; simpl; try tauto; try reflexivity.
  intros H. rewrite H. reflexivity.
Qed.

Lemma jsSame_Finite result q :
  jsSame result (Finite q) -> exists r, result = Finite r /\ r == q.
Proof.
  destruct result as [r| | |]; simpl; try tauto.
  intros Hr. exists r. split; [reflexivity|exact Hr].
Qed.

Lemma jsSame_jsAtLeast m n q : jsSame m n -> jsAtLeast n q -> jsAtLeast m q.
Proof.
  destruct m, n; simpl; try tauto. intros Hsame Hn. rewrite Hsame. exact Hn.
Qed.

(** C6, as the code has it.  For a ribosome attached to a segment of the
    list, getProportionOfRnaTranslated returns, without changing the
    strand, [Math.max( t / length, 0 )], where [t] is the contained length
    of the segments preceding the ribosome's segment plus the contained
    length of its own segment minus the distance from the attachment site
    x to the lower right corner x, and [length] is the strand length.
    Where the strand length is not zero this is the number
    [max( t / length, 0 )], which is not negative; the result is at least
    0 unless both [t] and the strand length are zero.  Nothing clamps it
    at 1: on the example strand it is above 1. *)
Theorem proportion_of_rna_translated
  (ribosome : Ribosome) (seg : nat) (s : ShapeSegment) (st : MessengerRna)
  (pre post : list nat) :
  mapRibosomeToShapeSegment st !! ribosomeId ribosome = Some seg ->
  segmentObjects st !! seg = Some s ->
  shapeSegments st = pre ++ seg :: post ->
  seg ∉ pre ->
  (exists result,
      getProportionOfRnaTranslated ribosome st = Returns result st
      /\ jsSame result
           (jsMax (jsDivide (translatedLengthBySpec (segmentObjects st) pre s)
                     (getLength st)) 0)
      /\ (~ getLength st == 0 ->
          exists r,
            result = Finite r
            /\ r == Qmax (translatedLengthBySpec (segmentObjects st) pre s
                          / getLength st) 0
            /\ 0 <= r)
      /\ (~ (translatedLengthBySpec (segmentObjects st) pre s == 0
             /\ getLength st == 0) ->
          jsAtLeast result 0))
  /\ (exists result,
        getProportionOfRnaTranslated exampleRibosome exampleOvershootStrand
        = Returns result exampleOvershootStrand
        /\ jsGreaterThan result 1).
Proof.
  intros Hmap Hs Hlist Hpre. split.
  - eexists. split; [|split; [|split]].
    + unfold getProportionOfRnaTranslated, bind, gets, getSegment, ret.
      rewrite Hmap, Hs. reflexivity.
    + apply jsMax_same, jsDivide_same; [|reflexivity].
      unfold translatedLengthBySpec. rewrite Hlist.
      rewrite (lengthBeforeSegment_app _ _ _ _ _ Hpre). lra.
    + intros Hlength.
      match goal with
      | |- exists r, ?result = _ /\ _ =>
          assert (Hsame : jsSame result
                    (Finite
                       (Qmax (translatedLengthBySpec (segmentObjects st) pre s
                              / getLength st) 0)))
      end.
      { match goal with
        | |- jsSame ?result _ =>
            assert (Hmax : jsSame result
                      (jsMax (jsDivide
                                (translatedLengthBySpec (segmentObjects st)
                                   pre s) (getLength st)) 0))
        end.
        { apply jsMax_same, jsDivide_same; [|reflexivity].
          unfold translatedLengthBySpec. rewrite Hlist.
          rewrite (lengthBeforeSegment_app _ _ _ _ _ Hpre). lra. }
        unfold jsDivide in Hmax at 2.
        destruct (Qeq_dec (getLength st) 0) as [Hzero|_];
          [contradiction|exact Hmax]. }
      destruct (jsSame_Finite _ _ Hsame) as (r & Hr & Hvalue).
      exists r. split; [exact Hr|]. split; [exact Hvalue|].
      rewrite Hvalue. apply Q.le_max_r.
    + intros Hnumber.
      eapply jsSame_jsAtLeast.
      * apply jsMax_same, jsDivide_same; [|reflexivity].
        unfold translatedLengthBySpec. rewrite Hlist.
        rewrite (lengthBeforeSegment_app _ _ _ _ _ Hpre).
        instantiate (1 := translatedLengthBySpec (segmentObjects st) pre s).
        unfold translatedLengthBySpec. lra.
      * unfold jsDivide.
        destruct (Qeq_dec (getLength st) 0) as [Hzero|_].
        -- destruct (Q_dec (translatedLengthBySpec (segmentObjects st) pre s)
                       0) as [[Hneg|Hpos]|Hnone]; simpl.
           ++ lra.
           ++ exact I.
           ++ apply Hnumber. split; assumption.
        -- simpl. apply Q.le_max_r.
  - eexists. split; [vm_compute; reflexivity|]. vm_compute. reflexivity.
Qed.

(** ** Translation *)

Lemma advanceTranslation_throws ribosome length seg s st :
  mapRibosomeToShapeSegment st !! ribosomeId ribosome = Some seg ->
  segmentObjects st !! seg = Some s ->
  kind s = FlatSegment ->
  advanceTranslation ribosome length st = Throws TypeError st.
Proof.
  clear. intros Hmap Hs Hk. unfold advanceTranslation.
  rewrite bind_gets, Hmap. unfold ShapeSegment_advance.
  unfold bind at 1. unfold bind at 1. unfold getSegment. rewrite Hs, Hk.
  reflexivity.
Qed.

(** C5, on the code as it is.  advanceTranslation hands the array of
    segments to FlatSegment.advance where that takes the strand, and the
    call ends in a TypeError before anything is changed: for a ribosome
    attached to a flat segment, whatever the strand holds and whatever the
    length, every one of any number of advanceTranslation calls is thrown
    out of, the strand stays as it was, and none returns true. *)
Theorem advanceTranslation_never_returns
  (ribosome : Ribosome) (length : Q) (seg : nat) (s : ShapeSegment)
  (st : MessengerRna) (n : nat) :
  mapRibosomeToShapeSegment st !! ribosomeId ribosome = Some seg ->
  segmentObjects st !! seg = Some s ->
  kind s = FlatSegment ->
  performAll (replicate n (Call_advanceTranslation ribosome length)) st
  = (replicate n (AnswerThrown TypeError), st)
  /\ AnswerBoolean true ∉ translationAnswers ribosome length n st.
Proof.
  clear. intros Hmap Hs Hk.
  assert (Hall : performAll
                   (replicate n (Call_advanceTranslation ribosome length)) st
                 = (replicate n (AnswerThrown TypeError), st)).
  { induction n as [|n IH]; [reflexivity|].
    cbn [replicate performAll perform].
    rewrite (advanceTranslation_throws ribosome length seg s st Hmap Hs Hk).
    cbn [answer]. rewrite IH. reflexivity. }
  split; [exact Hall|].
  unfold translationAnswers. rewrite Hall. cbn [fst].
  intros Htrue. apply elem_of_replicate in Htrue as [Heq _].
  discriminate Heq.
Qed.

(** * Further properties of the segment operations *)

Lemma splicedOut_absent this l :
  this ∉ l -> splicedOut this l = removelast l.
Proof.
  clear. intros Habsent. unfold splicedOut, spliceRemoveOne, spliceStart.
  rewrite (indexOf_absent this l Habsent).
  change (-1 <? 0)%Z with true. cbv iota.
  induction l as [|a l IH] using rev_ind; [reflexivity|].
  rewrite removelast_last, length_app. cbn [length].
  replace (Z.to_nat (Z.max (Z.of_nat (length l + 1) + -1) 0)) with (length l)
    by lia.
  rewrite delete_middle. apply app_nil_r.
Qed.

(** FlatSegment.add grows the segment to the left: the lower right corner
    stays where it is, and the segment ends up holding what it held plus
    [length], or its capacity when that is less.  Within the capacity the
    segment list is left alone and no segment is created. *)
Theorem add_grows_left_up_to_capacity length this s st :
  wellFormed st ->
  segmentObjects st !! this = Some s ->
  kind s = FlatSegment ->
  exists st' s',
    FlatSegment_add length this st = Returns tt st'
    /\ segmentObjects st' !! this = Some s'
    /\ getContainedLength s'
       == Qmin (getContainedLength s + length) (capacity s)
    /\ capacity s' = capacity s
    /\ v_x (getLowerRightCornerPos s') == v_x (getLowerRightCornerPos s)
    /\ v_y (getLowerRightCornerPos s') = v_y (getLowerRightCornerPos s)
    /\ (getContainedLength s + length <= capacity s ->
        shapeSegments st' = shapeSegments st
        /\ nextObjectId st' = nextObjectId st).
Proof.
  clear. intros (_ & _ & Hfresh) Hs Hk.
  rewrite (FlatSegment_add_returns length this s st Hs
             (Hfresh _ (Nat.le_refl _))).
  destruct (Qlt_le_dec (capacity s) (getContainedLength s + length))
    as [Hover|Hfits].
  - eexists _, _. split; [reflexivity|].
    split; [fields; apply lookup_insert_eq|].
    split.
    { rewrite getContainedLength_grownLeft by exact Hk.
      rewrite Q.min_r by lra. ring. }
    split; [reflexivity|].
    split; [unfold getLowerRightCornerPos, grownLeft, getWidth; simpl; ring|].
    split; [reflexivity|].
    intros Hle. exfalso. lra.
  - eexists _, _. split; [reflexivity|].
    split; [fields; apply lookup_insert_eq|].
    split.
    { rewrite getContainedLength_grownLeft by exact Hk.
      rewrite Q.min_l by lra. reflexivity. }
    split; [reflexivity|].
    split; [unfold getLowerRightCornerPos, grownLeft, getWidth; simpl; ring|].
    split; [reflexivity|].
    intros _. split; reflexivity.
Qed.

(** FlatSegment.remove shrinks a listed segment from the right: the left
    edge stays, the segment holds [length] less, and it is spliced out of
    the list exactly when less than the comparison epsilon is left; no
    other segment is touched. *)
Theorem remove_shrinks_from_the_right length this s pre post st :
  segmentObjects st !! this = Some s ->
  kind s = FlatSegment ->
  shapeSegments st = pre ++ this :: post ->
  this ∉ pre ->
  exists st' s',
    FlatSegment_remove length this st = Returns tt st'
    /\ segmentObjects st' !! this = Some s'
    /\ getContainedLength s' == getContainedLength s - length
    /\ capacity s' = capacity s
    /\ minX (bounds s') = minX (bounds s)
    /\ shapeSegments st'
       = pre
         ++ (if Qlt_le_dec (getContainedLength s - length)
                  FLOATING_POINT_COMP_FACTOR
             then [] else [this])
         ++ post
    /\ (forall j, j <> this ->
          segmentObjects st' !! j = segmentObjects st !! j).
Proof.
  clear. intros Hs Hk Hlist Hpre.
  rewrite (FlatSegment_remove_returns length this s st Hs).
  pose proof (getContainedLength_shrunk attachmentSiteLocationFor length s Hk)
    as Hlen.
  eexists _, _. split; [reflexivity|].
  split; [unfold withSegments; fields; apply lookup_insert_eq|].
  split; [exact Hlen|]. split; [reflexivity|]. split; [reflexivity|].
  split.
  - unfold withSegments; fields. rewrite Hlist.
    destruct (Qlt_le_dec
                (getContainedLength (shrunk attachmentSiteLocationFor length s))
                FLOATING_POINT_COMP_FACTOR) as [Hlt|Hge];
      destruct (Qlt_le_dec (getContainedLength s - length)
                  FLOATING_POINT_COMP_FACTOR) as [Hlt'|Hge'];
      try (exfalso; rewrite Hlen in *; lra).
    + apply splicedOut_here, Hpre.
    + reflexivity.
  - intros j Hj. unfold withSegments; fields.
    apply lookup_insert_ne. congruence.
Qed.

(** FlatSegment.remove on a segment that is not in the list: indexOf gives
    -1 and splice( -1, 1 ) takes the last element, so when the segment is
    left with less than epsilon the last listed segment is removed in its
    place. *)
Theorem remove_unlisted_evicts_last length this s st :
  segmentObjects st !! this = Some s ->
  kind s = FlatSegment ->
  this ∉ shapeSegments st ->
  getContainedLength s - length < FLOATING_POINT_COMP_FACTOR ->
  exists st',
    FlatSegment_remove length this st = Returns tt st'
    /\ shapeSegments st' = removelast (shapeSegments st).
Proof.
  clear. intros Hs Hk Habsent Hsmall.
  rewrite (FlatSegment_remove_returns length this s st Hs).
  pose proof (getContainedLength_shrunk attachmentSiteLocationFor length s Hk)
    as Hlen.
  eexists. split; [reflexivity|].
  unfold withSegments; fields.
  destruct (Qlt_le_dec
              (getContainedLength (shrunk attachmentSiteLocationFor length s))
              FLOATING_POINT_COMP_FACTOR) as [_|Hge].
  - apply splicedOut_absent, Habsent.
  - exfalso. rewrite Hlen in Hge. lra.
Qed.

(** FlatSegment.maxOutLength fills the segment to exactly its capacity by
    moving the left edge; the lower right corner, the segment list and the
    other segments stay as they are. *)
Theorem maxOutLength_fills_to_capacity this s st :
  segmentObjects st !! this = Some s ->
  kind s = FlatSegment ->
  exists st' s',
    FlatSegment_maxOutLength this st = Returns tt st'
    /\ segmentObjects st' !! this = Some s'
    /\ getContainedLength s' == capacity s
    /\ getRemainingCapacity s' == 0
    /\ v_x (getLowerRightCornerPos s') == v_x (getLowerRightCornerPos s)
    /\ shapeSegments st' = shapeSegments st
    /\ (forall j, j <> this ->
          segmentObjects st' !! j = segmentObjects st !! j).
Proof.
  clear. intros Hs Hk.
  rewrite (FlatSegment_maxOutLength_returns this s st Hs).
  pose proof (getContainedLength_maxedOut attachmentSiteLocationFor s Hk)
    as Hlen.
  eexists _, _. split; [reflexivity|].
  split; [fields; apply lookup_insert_eq|].
  split; [exact Hlen|].
  split; [unfold getRemainingCapacity; rewrite Hlen; simpl; ring|].
  split.
  { unfold getLowerRightCornerPos, maxedOut, getRemainingCapacity,
      getContainedLength. rewrite Hk. unfold getWidth. simpl. ring. }
  split; [reflexivity|].
  intros j Hj. fields. apply lookup_insert_ne. congruence.
Qed.

(** add( length ) followed by remove( length ), inside the capacity of a
    segment that holds at least epsilon: the segment holds what it held,
    and both its edges have moved left by [length]; the list and the other
    segments are as before. *)
Theorem add_then_remove_moves_left length this s st :
  wellFormed st ->
  segmentObjects st !! this = Some s ->
  kind s = FlatSegment ->
  getContainedLength s + length <= capacity s ->
  FLOATING_POINT_COMP_FACTOR <= getContainedLength s ->
  exists st' s',
    (FlatSegment_add length this ;;; FlatSegment_remove length this) st
    = Returns tt st'
    /\ segmentObjects st' !! this = Some s'
    /\ minX (bounds s') == minX (bounds s) - length
    /\ maxX (bounds s') == maxX (bounds s) - length
    /\ getContainedLength s' == getContainedLength s
    /\ shapeSegments st' = shapeSegments st
    /\ nextObjectId st' = nextObjectId st
    /\ (forall j, j <> this ->
          segmentObjects st' !! j = segmentObjects st !! j).
Proof.
  clear. intros (_ & _ & Hfresh) Hs Hk Hfits Hheld.
  pose proof (FlatSegment_add_returns length this s st Hs
                (Hfresh _ (Nat.le_refl _))) as Hadd.
  destruct (Qlt_le_dec (capacity s) (getContainedLength s + length))
    as [Hover|_]; [exfalso; lra|].
  run Hadd.
  set (s1 := grownLeft attachmentSiteLocationFor length s) in *.
  assert (Hk1 : kind s1 = FlatSegment) by exact Hk.
  assert (Hlen1 : getContainedLength s1 == getContainedLength s + length)
    by (apply getContainedLength_grownLeft, Hk).
  rewrite (FlatSegment_remove_returns length this s1 _ (lookup_insert_eq _ _ _)).
  pose proof (getContainedLength_shrunk attachmentSiteLocationFor length s1 Hk1)
    as Hlen2.
  destruct (Qlt_le_dec
              (getContainedLength (shrunk attachmentSiteLocationFor length s1))
              FLOATING_POINT_COMP_FACTOR) as [Hlt|_].
  { exfalso. rewrite Hlen2, Hlen1 in Hlt. lra. }
  eexists _, _. split; [reflexivity|].
  split; [unfold withSegments; fields; apply lookup_insert_eq|].
  split; [unfold shrunk, s1, grownLeft; simpl; reflexivity|].
  split; [unfold shrunk, s1, grownLeft, getWidth; simpl; ring|].
  split; [rewrite Hlen2, Hlen1; ring|].
  split; [reflexivity|]. split; [reflexivity|].
  intros j Hj. unfold withSegments; fields.
  rewrite !lookup_insert_ne by congruence. reflexivity.
Qed.

(** The last statement of advance and advanceAndRemove, on a strand that a
    remove has just left: the site update changes no length and no
    list. *)
Lemma site_update_keeps_lengths this s1 st1 :
  wellFormed st1 ->
  segmentObjects st1 !! this = Some s1 ->
  exists st2 s2,
    updateAttachmentSiteLocation this st1 = Returns tt st2
    /\ segmentObjects st2 !! this = Some s2
    /\ getContainedLength s2 = getContainedLength s1
    /\ shapeSegments st2 = shapeSegments st1
    /\ facade st2 = facade st1
    /\ nextObjectId st2 = nextObjectId st1
    /\ (forall j, j <> this ->
          segmentObjects st2 !! j = segmentObjects st1 !! j).
Proof.
  clear. intros HWF Hs1.
  destruct (advance_finish this s1 st1 HWF Hs1)
    as (st2 & s2 & Hrun & Hfacade & _ & Hlist & Hstore & _ & _ & Hlen).
  exists st2, s2. split; [exact Hrun|].
  split; [rewrite Hstore; apply lookup_insert_eq|].
  split; [exact Hlen|]. split; [exact Hlist|]. split; [exact Hfacade|].
  split.
  - rewrite (updateAttachmentSiteLocation_returns this s1 st1 Hs1) in Hrun.
    inversion Hrun. reflexivity.
  - intros j Hj. rewrite Hstore. apply lookup_insert_ne. congruence.
Qed.

(** What advanceAndRemove does in each of its three cases. *)
Lemma advanceAndRemove_cases length this s pre post st :
  0 < FLOATING_POINT_COMP_FACTOR ->
  wellFormed st ->
  segmentObjects st !! this = Some s ->
  kind s = FlatSegment ->
  shapeSegments st = pre ++ this :: post ->
  (post = [] ->
   exists st' s',
     FlatSegment_advanceAndRemove length this st = Returns tt st'
     /\ nextObjectId st' = nextObjectId st
     /\ facade st' = facade st
     /\ segmentObjects st' !! this = Some s'
     /\ getContainedLength s'
        == getContainedLength s - Qmin length (getContainedLength s)
     /\ shapeSegments st'
        = pre ++ (if Qlt_le_dec
                       (getContainedLength s
                        - Qmin length (getContainedLength s))
                       FLOATING_POINT_COMP_FACTOR
                  then [] else [this])
     /\ (forall j, j <> this ->
           segmentObjects st' !! j = segmentObjects st !! j))
  /\ (forall input rest i,
        post = input :: rest ->
        segmentObjects st !! input = Some i ->
        length < getContainedLength i ->
        exists st' s' i',
          FlatSegment_advanceAndRemove length this st = Returns tt st'
          /\ nextObjectId st' = nextObjectId st
     /\ facade st' = facade st
          /\ segmentObjects st' !! this = Some s'
          /\ getContainedLength s' == getContainedLength s
          /\ segmentObjects st' !! input = Some i'
          /\ getContainedLength i' == getContainedLength i - length
          /\ shapeSegments st'
             = pre ++ this
                 :: (if Qlt_le_dec (getContainedLength i - length)
                          FLOATING_POINT_COMP_FACTOR
                     then rest else input :: rest)
          /\ (forall j, j <> this -> j <> input ->
                segmentObjects st' !! j = segmentObjects st !! j))
  /\ (forall input rest i,
        post = input :: rest ->
        segmentObjects st !! input = Some i ->
        getContainedLength i <= length ->
        exists st' s' i',
          FlatSegment_advanceAndRemove length this st = Returns tt st'
          /\ nextObjectId st' = nextObjectId st
     /\ facade st' = facade st
          /\ segmentObjects st' !! this = Some s'
          /\ getContainedLength s'
             == getContainedLength s - (length - getContainedLength i)
          /\ segmentObjects st' !! input = Some i'
          /\ getContainedLength i' == 0
          /\ shapeSegments st'
             = pre
               ++ (if Qlt_le_dec
                        (getContainedLength s
                         - (length - getContainedLength i))
                        FLOATING_POINT_COMP_FACTOR
                   then [] else [this])
               ++ rest
          /\ (forall j, j <> this -> j <> input ->
                segmentObjects st' !! j = segmentObjects st !! j)).
Proof.
  clear. intros Heps HWF Hs Hk Hlist.
  pose proof HWF as (Hnd & Hobj & _).
  assert (Hthis : this ∉ pre).
  { rewrite Hlist in Hnd. apply NoDup_middle in Hnd. tauto. }
  split; [|split].
  - intros ->.
    unfold FlatSegment_advanceAndRemove.
    run (getNextShapeSegment_returns this _ _ st Hlist Hthis).
    cbn [head]; cbv iota beta.
    run (getSegment_returns this s st Hs).
    set (m := Qmin length (getContainedLength s)).
    destruct (FlatSegment_remove_effect m this s pre [] st Hs Hk Hlist Hthis)
      as (st1 & Hrun1 & Heff1).
    run Hrun1.
    pose proof (wellFormed_removeEffect _ _ _ _ _ _ _ HWF Hlist Heff1) as HWF1.
    destruct Heff1 as (Hfac1 & Hnext1 & p & s1 & Hp & Hstore1 & _ & _ & Hlen1
                         & Hlist1).
    assert (p = s) by congruence. subst p.
    assert (Hthis1 : segmentObjects st1 !! this = Some s1)
      by (rewrite Hstore1; apply lookup_insert_eq).
    destruct (site_update_keeps_lengths this s1 st1 HWF1 Hthis1)
      as (st2 & s2 & Hrun2 & Hs2 & Hlen2 & Hlist2 & Hfac2 & Hnext2 & Hframe2).
    exists st2, s2. split; [exact Hrun2|]. split; [congruence|]. split; [congruence|].
    split; [exact Hs2|]. split; [rewrite Hlen2; exact Hlen1|].
    split.
    + rewrite Hlist2.
      destruct (Qlt_le_dec (getContainedLength s - m)
                  FLOATING_POINT_COMP_FACTOR) as [Hlt|Hge];
        destruct Hlist1 as [[Hlt1 ->]|[Hge1 ->]];
        try reflexivity; exfalso; rewrite Hlen1 in *; lra.
    + intros j Hj. rewrite (Hframe2 j Hj), Hstore1.
      apply lookup_insert_ne. congruence.
  - intros input rest i -> Hi Hpull.
    assert (Hinput_this : input <> this).
    { intros ->. rewrite Hlist in Hnd. apply NoDup_middle in Hnd.
      destruct Hnd as (_ & Hnot & _). apply Hnot. left. }
    assert (Hinput_pre : input ∉ pre).
    { intros Hin. rewrite Hlist in Hnd. apply NoDup_middle in Hnd.
      destruct Hnd as (_ & _ & _ & _ & Hdisj). apply (Hdisj input Hin).
      left. }
    unfold FlatSegment_advanceAndRemove.
    run (getNextShapeSegment_returns this _ _ st Hlist Hthis).
    cbn [head]; cbv iota beta.
    run (getSegment_returns input i st Hi).
    destruct (Qlt_le_dec length (getContainedLength i)) as [_|Hle];
      [|exfalso; lra].
    assert (Hlist0 : shapeSegments st = (pre ++ [this]) ++ input :: rest)
      by (rewrite Hlist, <- app_assoc; reflexivity).
    assert (HinputA : input ∉ pre ++ [this]).
    { intros Hin. apply elem_of_app in Hin as [Hin|Hin]; [contradiction|].
      apply list_elem_of_singleton in Hin. contradiction. }
    destruct (ShapeSegment_remove_effect length input i _ _ st Hi Hlist0
                HinputA) as (st1 & Hrun1 & Heff1).
    run Hrun1.
    pose proof (wellFormed_removeEffect _ _ _ _ _ _ _ HWF Hlist0 Heff1)
      as HWF1.
    destruct Heff1 as (Hfac1 & Hnext1 & p & i1 & Hp & Hstore1 & _ & _ & Hlen1
                         & Hlist1).
    assert (p = i) by congruence. subst p.
    assert (Hthis1 : segmentObjects st1 !! this = Some s).
    { rewrite Hstore1, lookup_insert_ne by congruence. exact Hs. }
    destruct (site_update_keeps_lengths this s st1 HWF1 Hthis1)
      as (st2 & s2 & Hrun2 & Hs2 & Hlen2 & Hlist2 & Hfac2 & Hnext2 & Hframe2).
    exists st2, s2, i1. split; [exact Hrun2|]. split; [congruence|]. split; [congruence|].
    split; [exact Hs2|]. split; [rewrite Hlen2; reflexivity|].
    split.
    { rewrite (Hframe2 input Hinput_this), Hstore1.
      apply lookup_insert_eq. }
    split; [exact Hlen1|].
    split.
    + rewrite Hlist2.
      destruct (Qlt_le_dec (getContainedLength i - length)
                  FLOATING_POINT_COMP_FACTOR) as [Hlt|Hge];
        destruct Hlist1 as [[Hlt1 ->]|[Hge1 ->]];
        try (rewrite <- app_assoc; reflexivity);
        exfalso; rewrite Hlen1 in *; lra.
    + intros j Hj Hj'. rewrite (Hframe2 j Hj), Hstore1.
      apply lookup_insert_ne. congruence.
  - intros input rest i -> Hi Hdrain.
    assert (Hinput_this : input <> this).
    { intros ->. rewrite Hlist in Hnd. apply NoDup_middle in Hnd.
      destruct Hnd as (_ & Hnot & _). apply Hnot. left. }
    assert (Hinput_pre : input ∉ pre).
    { intros Hin. rewrite Hlist in Hnd. apply NoDup_middle in Hnd.
      destruct Hnd as (_ & _ & _ & _ & Hdisj). apply (Hdisj input Hin).
      left. }
    unfold FlatSegment_advanceAndRemove.
    run (getNextShapeSegment_returns this _ _ st Hlist Hthis).
    cbn [head]; cbv iota beta.
    run (getSegment_returns input i st Hi).
    destruct (Qlt_le_dec length (getContainedLength i)) as [Hlt|_];
      [exfalso; lra|].
    run (getSegment_returns input i st Hi).
    destruct (FlatSegment_remove_effect (length - getContainedLength i) this
                s pre (input :: rest) st Hs Hk Hlist Hthis)
      as (st1 & Hrun1 & Heff1).
    run Hrun1.
    pose proof (wellFormed_removeEffect _ _ _ _ _ _ _ HWF Hlist Heff1) as HWF1.
    destruct Heff1 as (Hfac1 & Hnext1 & p & s1 & Hp & Hstore1 & _ & _ & Hlen1
                         & Hlist1).
    assert (p = s) by congruence. subst p.
    assert (Hinput1 : segmentObjects st1 !! input = Some i).
    { rewrite Hstore1, lookup_insert_ne by congruence. exact Hi. }
    run (getSegment_returns input i st1 Hinput1).
    set (B := if Qlt_le_dec (getContainedLength s
                             - (length - getContainedLength i))
                   FLOATING_POINT_COMP_FACTOR
              then [] else [this]).
    assert (Hlist1' : shapeSegments st1 = (pre ++ B) ++ input :: rest).
    { unfold B.
      destruct (Qlt_le_dec (getContainedLength s
                            - (length - getContainedLength i))
                  FLOATING_POINT_COMP_FACTOR) as [Hlt|Hge];
        destruct Hlist1 as [[Hlt1 ->]|[Hge1 ->]];
        try (rewrite Hlen1 in *; exfalso; lra).
      - rewrite app_nil_r. reflexivity.
      - rewrite <- app_assoc. reflexivity. }
    assert (HinputB : input ∉ pre ++ B).
    { intros Hin. apply elem_of_app in Hin as [Hin|Hin]; [contradiction|].
      unfold B in Hin. destruct (Qlt_le_dec _ _); [inversion Hin|].
      apply list_elem_of_singleton in Hin. contradiction. }
    destruct (ShapeSegment_remove_effect (getContainedLength i) input i _ _
                st1 Hinput1 Hlist1' HinputB) as (st2 & Hrun2 & Heff2).
    run Hrun2.
    pose proof (wellFormed_removeEffect _ _ _ _ _ _ _ HWF1 Hlist1' Heff2)
      as HWF2.
    destruct Heff2 as (Hfac2 & Hnext2 & p & i2 & Hp2 & Hstore2 & _ & _ & Hlen2
                         & Hlist2).
    assert (p = i) by congruence. subst p.
    assert (Hthis2 : segmentObjects st2 !! this = Some s1).
    { rewrite Hstore2, lookup_insert_ne by congruence.
      rewrite Hstore1. apply lookup_insert_eq. }
    destruct (site_update_keeps_lengths this s1 st2 HWF2 Hthis2)
      as (st3 & s3 & Hrun3 & Hs3 & Hlen3 & Hlist3 & Hfac3 & Hnext3 & Hframe3).
    exists st3, s3, i2. split; [exact Hrun3|]. split; [congruence|]. split; [congruence|].
    split; [exact Hs3|]. split; [rewrite Hlen3; exact Hlen1|].
    split.
    { rewrite (Hframe3 input Hinput_this), Hstore2.
      apply lookup_insert_eq. }
    split; [rewrite Hlen2; ring|].
    split.
    + rewrite Hlist3.
      destruct Hlist2 as [[_ ->]|[Hge2 _]];
        [rewrite <- app_assoc; reflexivity|].
      exfalso. rewrite Hlen2 in Hge2.
      assert (getContainedLength i - getContainedLength i == 0) as Hz by ring.
      rewrite Hz in Hge2. lra.
    + intros j Hj Hj'. rewrite (Hframe3 j Hj), Hstore2.
      rewrite lookup_insert_ne by congruence.
      rewrite Hstore1. apply lookup_insert_ne. congruence.
Qed.

(** The three-case rule of FlatSegment.advanceAndRemove on a listed flat
    segment of a well-formed strand.  It always returns: unlike advance it
    gives nothing to an output segment, and it creates no segment.
    (1) With no input segment the segment shrinks by
    [min( length, contained )].
    (2) With an input segment holding more than [length], the input
    segment shrinks by [length] and the segment itself keeps its length.
    (3) Otherwise the input segment is emptied and leaves the list, and the
    segment shrinks by the shortfall.
    A segment left with less than epsilon leaves the list, and the points,
    the ribosome map, the destroyer and the state machine are not
    touched. *)
Theorem advanceAndRemove_three_case_rule length this s pre post st :
  0 < FLOATING_POINT_COMP_FACTOR ->
  wellFormed st ->
  segmentObjects st !! this = Some s ->
  kind s = FlatSegment ->
  shapeSegments st = pre ++ this :: post ->
  (post = [] ->
   exists st' s',
     FlatSegment_advanceAndRemove length this st = Returns tt st'
     /\ nextObjectId st' = nextObjectId st
     /\ facade st' = facade st
     /\ segmentObjects st' !! this = Some s'
     /\ getContainedLength s'
        == getContainedLength s - Qmin length (getContainedLength s)
     /\ shapeSegments st'
        = pre ++ (if Qlt_le_dec
                       (getContainedLength s
                        - Qmin length (getContainedLength s))
                       FLOATING_POINT_COMP_FACTOR
                  then [] else [this])
     /\ (forall j, j <> this ->
           segmentObjects st' !! j = segmentObjects st !! j))
  /\ (forall input rest i,
        post = input :: rest ->
        segmentObjects st !! input = Some i ->
        length < getContainedLength i ->
        exists st' s' i',
          FlatSegment_advanceAndRemove length this st = Returns tt st'
          /\ nextObjectId st' = nextObjectId st
     /\ facade st' = facade st
          /\ segmentObjects st' !! this = Some s'
          /\ getContainedLength s' == getContainedLength s
          /\ segmentObjects st' !! input = Some i'
          /\ getContainedLength i' == getContainedLength i - length
          /\ shapeSegments st'
             = pre ++ this
                 :: (if Qlt_le_dec (getContainedLength i - length)
                          FLOATING_POINT_COMP_FACTOR
                     then rest else input :: rest)
          /\ (forall j, j <> this -> j <> input ->
                segmentObjects st' !! j = segmentObjects st !! j))
  /\ (forall input rest i,
        post = input :: rest ->
        segmentObjects st !! input = Some i ->
        getContainedLength i <= length ->
        exists st' s' i',
          FlatSegment_advanceAndRemove length this st = Returns tt st'
          /\ nextObjectId st' = nextObjectId st
     /\ facade st' = facade st
          /\ segmentObjects st' !! this = Some s'
          /\ getContainedLength s'
             == getContainedLength s - (length - getContainedLength i)
          /\ segmentObjects st' !! input = Some i'
          /\ getContainedLength i' == 0
          /\ shapeSegments st'
             = pre
               ++ (if Qlt_le_dec
                        (getContainedLength s
                         - (length - getContainedLength i))
                        FLOATING_POINT_COMP_FACTOR
                   then [] else [this])
               ++ rest
          /\ (forall j, j <> this -> j <> input ->
                segmentObjects st' !! j = segmentObjects st !! j)).
Proof.
  exact (advanceAndRemove_cases length this s pre post st).
Qed.

(** FlatSegment.advance on the first segment of the list, which has no
    output segment, ends in a TypeError wherever the rule gives length to
    the output segment, and what was done before the call on null stays
    done:
    (1) with no input segment, after the segment has shrunk;
    (2) with an input segment that cannot supply [length], after the
    segment has shrunk by the shortfall and the input segment has been
    emptied and taken off the list;
    (3) with an input segment that can, when the segment is within epsilon
    of full and [length] does not fit, before anything is changed. *)
Theorem advance_without_output_throws length this s post st :
  0 < FLOATING_POINT_COMP_FACTOR ->
  wellFormed st ->
  segmentObjects st !! this = Some s ->
  kind s = FlatSegment ->
  shapeSegments st = this :: post ->
  (post = [] ->
   exists st' s',
     FlatSegment_advance length this st = Throws TypeError st'
     /\ segmentObjects st' !! this = Some s'
     /\ getContainedLength s'
        == getContainedLength s - Qmin length (getContainedLength s))
  /\ (forall input rest i,
        post = input :: rest ->
        segmentObjects st !! input = Some i ->
        getContainedLength i <= length ->
        exists st' s' i',
          FlatSegment_advance length this st = Throws TypeError st'
          /\ segmentObjects st' !! this = Some s'
          /\ getContainedLength s'
             == getContainedLength s - (length - getContainedLength i)
          /\ segmentObjects st' !! input = Some i'
          /\ getContainedLength i' == 0
          /\ shapeSegments st'
             = (if Qlt_le_dec
                     (getContainedLength s - (length - getContainedLength i))
                     FLOATING_POINT_COMP_FACTOR
                then [] else [this])
               ++ rest)
  /\ (forall input rest i,
        post = input :: rest ->
        segmentObjects st !! input = Some i ->
        length < getContainedLength i ->
        capacity s < getContainedLength s + length ->
        getRemainingCapacity s <= FLOATING_POINT_COMP_FACTOR ->
        FlatSegment_advance length this st = Throws TypeError st).
Proof.
  clear. intros Heps HWF Hs Hk Hlist.
  pose proof HWF as (Hnd & Hobj & _).
  assert (Hlist0 : shapeSegments st = [] ++ this :: post) by exact Hlist.
  assert (Hthis : this ∉ @nil nat) by (intros H; inversion H).
  split; [|split].
  - intros ->.
    unfold FlatSegment_advance.
    run (getPreviousShapeSegment_returns this _ _ st Hlist0 Hthis).
    run (getNextShapeSegment_returns this _ _ st Hlist0 Hthis).
    cbn [head last]; cbv iota beta.
    run (getSegment_returns this s st Hs).
    destruct (FlatSegment_remove_effect (Qmin length (getContainedLength s))
                this s [] [] st Hs Hk Hlist0 Hthis) as (st1 & Hrun1 & Heff1).
    run Hrun1.
    destruct Heff1 as (_ & _ & p & s1 & Hp & Hstore1 & _ & _ & Hlen1 & _).
    assert (p = s) by congruence. subst p.
    exists st1, s1. split; [reflexivity|].
    split; [rewrite Hstore1; apply lookup_insert_eq|exact Hlen1].
  - intros input rest i -> Hi Hdrain.
    assert (Hinput_this : input <> this).
    { intros ->. rewrite Hlist0 in Hnd. apply NoDup_middle in Hnd.
      destruct Hnd as (_ & Hnot & _). apply Hnot. left. }
    unfold FlatSegment_advance.
    run (getPreviousShapeSegment_returns this _ _ st Hlist0 Hthis).
    run (getNextShapeSegment_returns this _ _ st Hlist0 Hthis).
    cbn [head last]; cbv iota beta.
    run (getSegment_returns input i st Hi).
    destruct (Qlt_le_dec length (getContainedLength i)) as [Hlt|_];
      [exfalso; lra|].
    run (getSegment_returns input i st Hi).
    destruct (FlatSegment_remove_effect (length - getContainedLength i) this
                s [] (input :: rest) st Hs Hk Hlist0 Hthis)
      as (st1 & Hrun1 & Heff1).
    run Hrun1.
    destruct Heff1 as (_ & _ & p & s1 & Hp & Hstore1 & _ & _ & Hlen1
                         & Hlist1).
    assert (p = s) by congruence. subst p.
    assert (Hinput1 : segmentObjects st1 !! input = Some i).
    { rewrite Hstore1, lookup_insert_ne by congruence. exact Hi. }
    run (getSegment_returns input i st1 Hinput1).
    set (B := if Qlt_le_dec (getContainedLength s
                             - (length - getContainedLength i))
                   FLOATING_POINT_COMP_FACTOR
              then [] else [this]).
    assert (Hlist1' : shapeSegments st1 = B ++ input :: rest).
    { unfold B.
      destruct (Qlt_le_dec (getContainedLength s
                            - (length - getContainedLength i))
                  FLOATING_POINT_COMP_FACTOR) as [Hlt|Hge];
        destruct Hlist1 as [[Hlt1 ->]|[Hge1 ->]];
        try (rewrite Hlen1 in *; exfalso; lra); reflexivity. }
    assert (HinputB : input ∉ B).
    { intros Hin. unfold B in Hin. destruct (Qlt_le_dec _ _); [inversion Hin|].
      apply list_elem_of_singleton in Hin. contradiction. }
    destruct (ShapeSegment_remove_effect (getContainedLength i) input i _ _
                st1 Hinput1 Hlist1' HinputB) as (st2 & Hrun2 & Heff2).
    run Hrun2.
    destruct Heff2 as (_ & _ & p & i2 & Hp2 & Hstore2 & _ & _ & Hlen2
                         & Hlist2).
    assert (p = i) by congruence. subst p.
    exists st2, s1, i2. split; [reflexivity|].
    split.
    { rewrite Hstore2, lookup_insert_ne by congruence.
      rewrite Hstore1. apply lookup_insert_eq. }
    split; [exact Hlen1|].
    split; [rewrite Hstore2; apply lookup_insert_eq|].
    split; [rewrite Hlen2; ring|].
    destruct Hlist2 as [[_ ->]|[Hge2 _]]; [reflexivity|].
    exfalso. rewrite Hlen2 in Hge2.
    assert (getContainedLength i - getContainedLength i == 0) as Hz by ring.
    rewrite Hz in Hge2. lra.
  - intros input rest i -> Hi Hpull Hover Hfull.
    unfold FlatSegment_advance.
    run (getPreviousShapeSegment_returns this _ _ st Hlist0 Hthis).
    run (getNextShapeSegment_returns this _ _ st Hlist0 Hthis).
    cbn [head last]; cbv iota beta.
    run (getSegment_returns input i st Hi).
    destruct (Qlt_le_dec length (getContainedLength i)) as [_|Hle];
      [|exfalso; lra].
    run (getSegment_returns this s st Hs).
    destruct (Qlt_le_dec (capacity s) (getContainedLength s + length))
      as [_|Hfits]; [|exfalso; lra].
    destruct (Qlt_le_dec FLOATING_POINT_COMP_FACTOR (getRemainingCapacity s))
      as [Hroom|_]; [exfalso; lra|].
    reflexivity.
Qed.

(** * Further properties of the strand *)

(** ** Destruction *)

(** advanceDestruction by at least the strand length completes at once:
    it returns true, the chain is cut back to its first point and the
    segment list is emptied, and neither realignSegmentsFrom nor
    windPointsThroughSegments is called. *)
Theorem advanceDestruction_completes_at_once length seg first others st :
  segmentWhereDestroyerConnects st = Some seg ->
  shapeDefiningPoints st = first :: others ->
  getLength st <= length ->
  advanceDestruction length st
  = Returns true (withShapeSegments [] (withShapeDefiningPoints [first] st)).
Proof.
  clear. intros Hd Hpoints Hall.
  unfold advanceDestruction. rewrite bind_gets, Hd.
  assert (Hreduce : reduceLength length st
                    = Returns tt (withShapeSegments []
                                    (withShapeDefiningPoints [first] st))).
  { unfold reduceLength. rewrite bind_gets.
    destruct (Qlt_le_dec length (getLength st)) as [Hlt|_]; [exfalso; lra|].
    rewrite bind_gets, Hpoints. reflexivity. }
  run Hreduce. reflexivity.
Qed.

(** advanceDestruction by less than the strand length, on a strand whose
    destroyer is connected to a flat segment: reduceLength hands the array
    of segments to FlatSegment.advanceAndRemove where that takes the
    strand, and both calls are thrown out of by the TypeError before
    anything is changed. *)
Theorem advanceDestruction_partial_throws length seg s st :
  segmentWhereDestroyerConnects st = Some seg ->
  segmentObjects st !! seg = Some s ->
  kind s = FlatSegment ->
  length < getLength st ->
  reduceLength length st = Throws TypeError st
  /\ advanceDestruction length st = Throws TypeError st.
Proof.
  clear. intros Hd Hs Hk Hless.
  assert (Hreduce : reduceLength length st = Throws TypeError st).
  { unfold reduceLength. rewrite bind_gets.
    destruct (Qlt_le_dec length (getLength st)) as [_|Hall]; [|exfalso; lra].
    rewrite bind_gets, Hd. unfold ShapeSegment_advanceAndRemove.
    unfold bind at 1. unfold bind at 1. unfold getSegment.
    rewrite Hs, Hk. reflexivity. }
  split; [exact Hreduce|].
  unfold advanceDestruction. rewrite bind_gets, Hd.
  unfold bind at 1. rewrite Hreduce. reflexivity.
Qed.

(** ** Attaching and releasing *)

Lemma ribosome_proposal_accepted ribosome site st st' :
  considerProposalFromByRibosome ribosome st = Returns (Some site) st' ->
  exists rest s,
    messengerRnaDestroyer st = None
    /\ shapeSegments st = site :: rest
    /\ segmentObjects st !! site = Some s
    /\ attachedOrAttachingMolecule (attachmentSite s) = None
    /\ distanceSquared (locationProperty (attachmentSite s))
         (entranceOfRnaChannelPos ribosome)
       < RIBOSOME_CONNECTION_DISTANCE * RIBOSOME_CONNECTION_DISTANCE
    /\ st' = withMapRibosomeToShapeSegment
               (<[ribosomeId ribosome := site]> (mapRibosomeToShapeSegment st))
               (withAttachmentStateMachine
                  (notify attachedToRibosome (mRnaAttachmentStateMachine st))
                  st).
Proof.
  clear. unfold considerProposalFromByRibosome, bind, gets, getSegment, ret,
    throw, notifyStateMachine, modify.
  destruct (messengerRnaDestroyer st) eqn:Hd; [congruence|].
  destruct (shapeSegments st) as [|leading rest] eqn:Hl; [congruence|].
  destruct (segmentObjects st !! leading) as [s|] eqn:Hs; [|congruence].
  destruct (attachedOrAttachingMolecule (attachmentSite s)) eqn:Hfree;
    [congruence|].
  destruct (Qlt_le_dec _ _) as [Hnear|_]; [|congruence].
  intros H. inversion H; subst. exists rest, s.
  repeat split; assumption.
Qed.

Lemma destroyer_proposal_accepted destroyer site st st' :
  considerProposalFromByMessengerRnaDestroyer destroyer st
  = Returns (Some site) st' ->
  exists rest s,
    messengerRnaDestroyer st = None
    /\ shapeSegments st = site :: rest
    /\ segmentObjects st !! site = Some s
    /\ attachedOrAttachingMolecule (attachmentSite s) = None
    /\ distanceSquared (locationProperty (attachmentSite s))
         (destroyerPosition destroyer)
       < MRNA_DESTROYER_CONNECT_DISTANCE * MRNA_DESTROYER_CONNECT_DISTANCE
    /\ st' = withMessengerRnaDestroyer (Some (destroyerId destroyer))
               (withAttachmentStateMachine
                  (notify attachToDestroyer (mRnaAttachmentStateMachine st))
                  st).
Proof.
  clear. unfold considerProposalFromByMessengerRnaDestroyer, bind, gets,
    getSegment, ret, throw, notifyStateMachine, modify.
  destruct (messengerRnaDestroyer st) eqn:Hd; [congruence|].
  destruct (shapeSegments st) as [|leading rest] eqn:Hl; [congruence|].
  destruct (segmentObjects st !! leading) as [s|] eqn:Hs; [|congruence].
  destruct (attachedOrAttachingMolecule (attachmentSite s)) eqn:Hfree;
    [congruence|].
  destruct (Qlt_le_dec _ _) as [Hnear|_]; [|congruence].
  intros H. inversion H; subst. exists rest, s.
  repeat split; assumption.
Qed.

(** A ribosome whose proposal is accepted is entered in the map on the
    leading segment, the site it is given; the entries of other ribosomes,
    the segments and the list are as before; and
    getRibosomeAttachmentLocation then finds it, at the leader length left
    of the lower right corner of that segment. *)
Theorem accepted_ribosome_is_located ribosome site st st' :
  considerProposalFromByRibosome ribosome st = Returns (Some site) st' ->
  exists s rest,
    shapeSegments st = site :: rest
    /\ segmentObjects st !! site = Some s
    /\ segmentObjects st' = segmentObjects st
    /\ shapeSegments st' = shapeSegments st
    /\ mapRibosomeToShapeSegment st' !! ribosomeId ribosome = Some site
    /\ (forall other, other <> ribosomeId ribosome ->
          mapRibosomeToShapeSegment st' !! other
          = mapRibosomeToShapeSegment st !! other)
    /\ getRibosomeAttachmentLocation ribosome st'
       = Returns
           (Some (mkVector2 (v_x (getLowerRightCornerPos s) - LEADER_LENGTH)
                    (v_y (getLowerRightCornerPos s))))
           st'.
Proof.
  clear. intros Haccept.
  destruct (ribosome_proposal_accepted ribosome site st st' Haccept)
    as (rest & s & _ & Hlist & Hs & _ & _ & ->).
  exists s, rest. split; [exact Hlist|]. split; [exact Hs|].
  split; [reflexivity|]. split; [reflexivity|].
  split; [fields; apply lookup_insert_eq|].
  split; [intros other Hother; fields; apply lookup_insert_ne; congruence|].
  set (st' := withMapRibosomeToShapeSegment _ _).
  assert (Hmap : mapRibosomeToShapeSegment st' !! ribosomeId ribosome
                 = Some site) by apply lookup_insert_eq.
  assert (Hs' : segmentObjects st' !! site = Some s) by exact Hs.
  assert (Hlist' : shapeSegments st' = [] ++ site :: rest) by exact Hlist.
  assert (Hnot : site ∉ @nil nat) by (intros H; inversion H).
  unfold getRibosomeAttachmentLocation.
  rewrite bind_gets, Hmap.
  run (getSegment_returns site s st' Hs').
  run (getPreviousShapeSegment_returns site _ _ st' Hlist' Hnot).
  reflexivity.
Qed.

(** Accepting a ribosome that was not attached and then releasing it
    leaves the map as it was, with the segments, the list, the points and
    the destroyer; the state machine has been told of the attachment and,
    when no other ribosome is attached, that all ribosomes are
    detached. *)
Theorem accept_then_release_restores_map ribosome site st st1 :
  mapRibosomeToShapeSegment st !! ribosomeId ribosome = None ->
  considerProposalFromByRibosome ribosome st = Returns (Some site) st1 ->
  exists st2,
    releaseFromRibosome ribosome st1 = Returns tt st2
    /\ mapRibosomeToShapeSegment st2 = mapRibosomeToShapeSegment st
    /\ segmentObjects st2 = segmentObjects st
    /\ shapeSegments st2 = shapeSegments st
    /\ shapeDefiningPoints st2 = shapeDefiningPoints st
    /\ messengerRnaDestroyer st2 = messengerRnaDestroyer st
    /\ notifications (mRnaAttachmentStateMachine st2)
       = notifications (mRnaAttachmentStateMachine st)
         ++ attachedToRibosome
            :: (if decide (mapRibosomeToShapeSegment st = ∅)
                then [allRibosomesDetached] else []).
Proof.
  clear. intros Hnew Haccept.
  destruct (ribosome_proposal_accepted ribosome site st st1 Haccept)
    as (rest & s & _ & _ & _ & _ & _ & ->).
  unfold releaseFromRibosome. rewrite bind_modify, bind_gets. fields.
  rewrite (delete_insert_id _ _ _ Hnew).
  destruct (decide (mapRibosomeToShapeSegment st = ∅)) as [Hempty|Hother].
  - eexists. split; [reflexivity|]. fields.
    repeat split; try reflexivity.
    simpl. rewrite <- app_assoc. reflexivity.
  - eexists. split; [reflexivity|]. fields.
    repeat split; reflexivity.
Qed.

(** releaseFromRibosome never fails.  Afterwards the ribosome is no longer
    known to the strand, whether it was attached or not: its attachment
    location is null, and advancing its translation or asking for its
    translated proportion ends in a TypeError that leaves the strand as it
    is.  Other ribosomes keep their entries. *)
Theorem released_ribosome_is_forgotten ribosome length st :
  exists st1,
    releaseFromRibosome ribosome st = Returns tt st1
    /\ mapRibosomeToShapeSegment st1 !! ribosomeId ribosome = None
    /\ (forall other, other <> ribosomeId ribosome ->
          mapRibosomeToShapeSegment st1 !! other
          = mapRibosomeToShapeSegment st !! other)
    /\ segmentObjects st1 = segmentObjects st
    /\ shapeSegments st1 = shapeSegments st
    /\ advanceTranslation ribosome length st1 = Throws TypeError st1
    /\ getProportionOfRnaTranslated ribosome st1 = Throws TypeError st1
    /\ returned (getRibosomeAttachmentLocation ribosome st1) = Some None.
Proof.
  clear.
  set (st0 := withMapRibosomeToShapeSegment
                (delete (ribosomeId ribosome) (mapRibosomeToShapeSegment st))
                st).
  assert (Hrun : exists st1,
             releaseFromRibosome ribosome st = Returns tt st1
             /\ mapRibosomeToShapeSegment st1 = mapRibosomeToShapeSegment st0
             /\ segmentObjects st1 = segmentObjects st
             /\ shapeSegments st1 = shapeSegments st).
  { unfold releaseFromRibosome. rewrite bind_modify, bind_gets. fold st0.
    destruct (decide (mapRibosomeToShapeSegment st0 = ∅));
      eexists; (split; [reflexivity|]); repeat split. }
  destruct Hrun as (st1 & Hrun & Hmap & Hstore & Hlist).
  assert (Hgone : mapRibosomeToShapeSegment st1 !! ribosomeId ribosome = None).
  { rewrite Hmap. apply lookup_delete_eq. }
  exists st1. split; [exact Hrun|]. split; [exact Hgone|].
  split.
  { intros other Hother. rewrite Hmap. apply lookup_delete_ne. congruence. }
  split; [exact Hstore|]. split; [exact Hlist|].
  split; [unfold advanceTranslation; rewrite bind_gets, Hgone; reflexivity|].
  split; [unfold getProportionOfRnaTranslated;
          rewrite bind_gets, Hgone; reflexivity|].
  unfold getRibosomeAttachmentLocation. rewrite bind_gets, Hgone. reflexivity.
Qed.

(** abortDestruction undoes an accepted destroyer proposal: the destroyer
    reference is null again, the segments, the list, the map and the
    points are as they were before the proposal, and the same proposal is
    accepted again on the same site. *)
Theorem abort_lets_the_destroyer_propose_again destroyer site st st1 :
  considerProposalFromByMessengerRnaDestroyer destroyer st
  = Returns (Some site) st1 ->
  exists st2 st3,
    abortDestruction st1 = Returns tt st2
    /\ messengerRnaDestroyer st2 = None
    /\ segmentObjects st2 = segmentObjects st
    /\ shapeSegments st2 = shapeSegments st
    /\ mapRibosomeToShapeSegment st2 = mapRibosomeToShapeSegment st
    /\ shapeDefiningPoints st2 = shapeDefiningPoints st
    /\ considerProposalFromByMessengerRnaDestroyer destroyer st2
       = Returns (Some site) st3
    /\ messengerRnaDestroyer st3 = Some (destroyerId destroyer).
Proof.
  clear. intros Haccept.
  destruct (destroyer_proposal_accepted destroyer site st st1 Haccept)
    as (rest & s & _ & Hlist & Hs & Hfree & Hnear & ->).
  set (st1 := withMessengerRnaDestroyer _ _).
  assert (Habort : exists st2,
             abortDestruction st1 = Returns tt st2
             /\ messengerRnaDestroyer st2 = None
             /\ segmentObjects st2 = segmentObjects st
             /\ shapeSegments st2 = shapeSegments st
             /\ mapRibosomeToShapeSegment st2 = mapRibosomeToShapeSegment st
             /\ shapeDefiningPoints st2 = shapeDefiningPoints st).
  { eexists. split; [reflexivity|]. repeat split. }
  destruct Habort as (st2 & Habort & Hd2 & Hstore2 & Hlist2 & Hmap2 & Hpoints2).
  assert (Hagain : exists st3,
             considerProposalFromByMessengerRnaDestroyer destroyer st2
             = Returns (Some site) st3
             /\ messengerRnaDestroyer st3 = Some (destroyerId destroyer)).
  { unfold considerProposalFromByMessengerRnaDestroyer, bind, gets,
      getSegment, ret, modify, notifyStateMachine.
    rewrite Hd2, Hlist2, Hlist, Hstore2, Hs, Hfree.
    destruct (Qlt_le_dec _ _) as [_|Hfar]; [|exfalso; lra].
    eexists. split; reflexivity. }
  destruct Hagain as (st3 & Hagain & Hd3).
  exists st2, st3. repeat split; assumption.
Qed.

(** getRibosomeAttachmentLocation for an attached ribosome, whose segment
    is listed: on the first segment of the list the location is the leader
    length left of the lower right corner of the segment, and on any later
    segment it is the channel length of the ribosome right of the upper
    left corner.  Nothing is logged or changed. *)
Theorem getRibosomeAttachmentLocation_attached ribosome seg s pre post st :
  mapRibosomeToShapeSegment st !! ribosomeId ribosome = Some seg ->
  segmentObjects st !! seg = Some s ->
  shapeSegments st = pre ++ seg :: post ->
  seg ∉ pre ->
  getRibosomeAttachmentLocation ribosome st
  = Returns
      (Some
         (match pre with
          | [] =>
              mkVector2 (v_x (getLowerRightCornerPos s) - LEADER_LENGTH)
                (v_y (getLowerRightCornerPos s))
          | _ :: _ =>
              mkVector2
                (v_x (getUpperLeftCornerPos s)
                 + translationChannelLength ribosome)
                (v_y (getUpperLeftCornerPos s))
          end))
      st.
Proof.
  clear. intros Hmap Hs Hlist Hpre.
  unfold getRibosomeAttachmentLocation. rewrite bind_gets, Hmap.
  run (getSegment_returns seg s st Hs).
  run (getPreviousShapeSegment_returns seg pre post st Hlist Hpre).
  destruct pre as [|a pre] using rev_ind; [reflexivity|].
  rewrite last_snoc. destruct (pre ++ [a]) eqn:E; [|reflexivity].
  apply app_eq_nil in E as [_ E]. discriminate E.
Qed.

(** The location a destroyer that tracks the strand is sent to, whatever
    its current location, its bounds and the time step: the origin while
    no segment is connected to the destroyer, and otherwise the point the
    leader length left of the lower right corner of the connected
    segment.  So the destroyer follows the right edge: when remove takes
    [length] off the connected flat segment the location moves left by
    [length]. *)
Theorem destroyer_follows_the_right_edge
  length this s st currentLocation bounds dt :
  segmentObjects st !! this = Some s ->
  kind s = FlatSegment ->
  (segmentWhereDestroyerConnects st = None ->
   DestroyerTrackingRnaMotionStrategy_getNextLocation currentLocation bounds dt
     st
   = Returns (mkVector2 0 0) st)
  /\ (segmentWhereDestroyerConnects st = Some this ->
      DestroyerTrackingRnaMotionStrategy_getNextLocation currentLocation
        bounds dt st
      = Returns
          (mkVector2 (v_x (getLowerRightCornerPos s) - LEADER_LENGTH)
             (v_y (getLowerRightCornerPos s)))
          st
      /\ exists st1 location,
           FlatSegment_remove length this st = Returns tt st1
           /\ DestroyerTrackingRnaMotionStrategy_getNextLocation
                currentLocation bounds dt st1
              = Returns location st1
           /\ v_x location
              == v_x (getLowerRightCornerPos s) - LEADER_LENGTH - length
           /\ v_y location = v_y (getLowerRightCornerPos s)).
Proof.
  clear. intros Hs Hk. split.
  - intros Hnone.
    unfold DestroyerTrackingRnaMotionStrategy_getNextLocation,
      getDestroyerAttachmentLocation.
    rewrite bind_bind, bind_gets, Hnone. reflexivity.
  - intros Hd. split.
    + unfold DestroyerTrackingRnaMotionStrategy_getNextLocation,
        getDestroyerAttachmentLocation.
      rewrite bind_bind, bind_gets, Hd.
      run (getSegment_returns this s st Hs). reflexivity.
    + rewrite (FlatSegment_remove_returns length this s st Hs).
      set (st1 := withSegments _ _ _ st).
      assert (Hs1 : segmentObjects st1 !! this
                    = Some (shrunk attachmentSiteLocationFor length s))
        by apply lookup_insert_eq.
      assert (Hd1 : segmentWhereDestroyerConnects st1 = Some this)
        by exact Hd.
      eexists st1, _. split; [reflexivity|].
      split.
      { unfold DestroyerTrackingRnaMotionStrategy_getNextLocation,
          getDestroyerAttachmentLocation.
        rewrite bind_bind, bind_gets, Hd1.
        run (getSegment_returns this _ st1 Hs1). reflexivity. }
      split; [|reflexivity].
      unfold getLowerRightCornerPos, shrunk, getWidth. simpl. ring.
Qed.

(** getProportionOfRnaTranslated on a strand of length zero divides by
    zero: the result is not a proportion but +Infinity when the translated
    length is positive, NaN when it is zero, and 0, through the maximum
    with 0, when it is negative. *)
Theorem proportion_on_a_strand_of_length_zero ribosome seg s pre post st :
  mapRibosomeToShapeSegment st !! ribosomeId ribosome = Some seg ->
  segmentObjects st !! seg = Some s ->
  shapeSegments st = pre ++ seg :: post ->
  seg ∉ pre ->
  getLength st == 0 ->
  exists result,
    getProportionOfRnaTranslated ribosome st = Returns result st
    /\ let t := translatedLengthBySpec (segmentObjects st) pre s in
       (0 < t -> result = PosInfinity)
       /\ (t == 0 -> result = NaN)
       /\ (t < 0 -> exists q, result = Finite q /\ q == 0).
Proof.
  clear. intros Hmap Hs Hlist Hpre Hzero.
  eexists. split.
  - unfold getProportionOfRnaTranslated, bind, gets, getSegment, ret.
    rewrite Hmap, Hs. reflexivity.
  - cbn zeta.
    assert (Ht : lengthBeforeSegment (segmentObjects st) seg (shapeSegments st)
                   0
                 + (getContainedLength s
                    - (v_x (getLowerRightCornerPos s)
                       - v_x (locationProperty (attachmentSite s))))
                 == translatedLengthBySpec (segmentObjects st) pre s).
    { unfold translatedLengthBySpec. rewrite Hlist.
      rewrite (lengthBeforeSegment_app _ _ _ _ _ Hpre). lra. }
    unfold jsDivide.
    destruct (Qeq_dec (getLength st) 0) as [_|Hne]; [|contradiction].
    destruct (Q_dec _ 0) as [[Hneg|Hpos]|Hnull]; rewrite Ht in *; simpl.
    + split; [intros; exfalso; lra|]. split; [intros; exfalso; lra|].
      intros _. eexists. split; [reflexivity|reflexivity].
    + split; [reflexivity|]. split; intros; exfalso; lra.
    + split; [intros; exfalso; lra|]. split; [reflexivity|].
      intros; exfalso; lra.
Qed.

(** Proposals to a strand with an empty segment list: with no destroyer set
    both proposal functions read the attachment site of a segment that is
    not there and end in a TypeError, leaving the strand as it is; with a
    destroyer set they return null before looking at the list. *)
Theorem proposals_to_an_empty_strand ribosome destroyer st :
  shapeSegments st = [] ->
  (messengerRnaDestroyer st = None ->
   considerProposalFromByRibosome ribosome st = Throws TypeError st
   /\ considerProposalFromByMessengerRnaDestroyer destroyer st
      = Throws TypeError st)
  /\ (messengerRnaDestroyer st <> None ->
      considerProposalFromByRibosome ribosome st = Returns None st
      /\ considerProposalFromByMessengerRnaDestroyer destroyer st
         = Returns None st).
Proof.
  clear. intros Hempty.
  unfold considerProposalFromByRibosome,
    considerProposalFromByMessengerRnaDestroyer.
  rewrite !bind_gets.
  destruct (messengerRnaDestroyer st) as [d|].
  - split; [discriminate|]. intros _. split; reflexivity.
  - rewrite !bind_gets, Hempty.
    split; [|congruence]. intros _. split; reflexivity.
Qed.

End Strand.

(** * The theorems at work on the example strands *)

Lemma flatHeightZerob_sound s : flatHeightZerob s = true -> flatHeightZero s.
Proof.
  unfold flatHeightZerob, flatHeightZero. intros H Hk. rewrite Hk in H.
  apply Qeq_bool_iff, H.
Qed.

Lemma flat_segments_stay_flat_witness :
  flatSegmentsFlat exampleStrand
  /\ flatSegmentsFlat
       (outcomeState
          (performFlat exampleEpsilon exampleLeaderLength
             exampleInitialCapacity upperLeftCorner (OpAdvance 30) 0%nat
             exampleStrand)).
Proof.
  assert (H : flatSegmentsFlat exampleStrand).
  { exact (storeForallb_sound flatHeightZerob flatHeightZero exampleStrand
             flatHeightZerob_sound eq_refl). }
  split; [exact H|].
  exact (proj1 (proj2 (flat_segments_stay_flat exampleEpsilon
                         exampleLeaderLength exampleInitialCapacity
                         upperLeftCorner (OpAdvance 30) 0%nat (mkVector2 0 0)
                         exampleStrand H))).
Defined.

Lemma advanceDestruction_without_connected_segment_witness :
  segmentWhereDestroyerConnects exampleStrand = None
  /\ returned
       (advanceDestruction stayAligned stayInPlace 25 exampleStrand)
     = Some true.
Proof.
  split; [reflexivity|].
  destruct (advanceDestruction_without_connected_segment stayAligned
              stayInPlace 25 exampleStrand eq_refl) as (st' & Hrun & _).
  rewrite Hrun. reflexivity.
Defined.

Lemma getRibosomeAttachmentLocation_not_attached_witness :
  mapRibosomeToShapeSegment exampleStrand !! ribosomeId exampleRibosome = None
  /\ returned
       (getRibosomeAttachmentLocation exampleLeaderLength exampleRibosome
          exampleStrand)
     = Some None.
Proof.
  split; [reflexivity|].
  rewrite (getRibosomeAttachmentLocation_not_attached exampleLeaderLength
             exampleRibosome exampleStrand eq_refl).
  reflexivity.
Defined.

(** C7 as the spec has it fails: for a ribosome that is not attached the
    answer is null, not the zero vector. *)
Lemma getRibosomeAttachmentLocation_no_zero_vector :
  mapRibosomeToShapeSegment exampleStrand !! ribosomeId exampleRibosome = None
  /\ returned
       (getRibosomeAttachmentLocation exampleLeaderLength exampleRibosome
          exampleStrand)
     = Some None
  /\ returned
       (getRibosomeAttachmentLocation exampleLeaderLength exampleRibosome
          exampleStrand)
     <> Some (Some (mkVector2 0 0)).
Proof.
  split; [reflexivity|]. split; [reflexivity|]. discriminate.
Qed.

Lemma rejected_proposals_change_nothing_witness :
  considerProposalFromByRibosome exampleRibosome exampleStrandWithDestroyer
  = Returns None exampleStrandWithDestroyer
  /\ mapRibosomeToShapeSegment exampleStrandWithDestroyer
     = mapRibosomeToShapeSegment exampleStrandWithDestroyer.
Proof.
  split; [reflexivity|].
  exact (proj1 (proj2 (rejected_proposals_change_nothing exampleRibosome
                         exampleDestroyer exampleStrandWithDestroyer
                         exampleStrandWithDestroyer
                         (or_introl eq_refl)))).
Defined.

Lemma destruction_is_terminal_witness :
  messengerRnaDestroyer exampleStrandWithDestroyer = Some 9%nat
  /\ fst (performAll exampleLeaderLength stayAligned
              stayInPlace
            [Call_considerProposalFromByRibosome exampleRibosome;
             Call_getDestroyerAttachmentLocation;
             Call_considerProposalFromByMessengerRnaDestroyer exampleDestroyer]
            exampleStrandWithDestroyer) !! 2%nat
     = Some (AnswerSite None).
Proof.
  split; [reflexivity|].
  exact (proj1 (proj2 (proj2
           (destruction_is_terminal exampleLeaderLength stayAligned
              stayInPlace
              (fun _ st => repositioned_refl st) repositioned_refl
              9%nat
              [Call_considerProposalFromByRibosome exampleRibosome;
               Call_getDestroyerAttachmentLocation;
               Call_considerProposalFromByMessengerRnaDestroyer
                 exampleDestroyer]
              exampleStrandWithDestroyer eq_refl eq_refl)))
           2%nat _ eq_refl eq_refl).
Defined.

Lemma overflow_splitting_witness :
  getRemainingCapacity (flatSegmentOn 0 150 200) < 100
  /\ exists st' s',
       FlatSegment_add exampleInitialCapacity upperLeftCorner 100 0%nat
         exampleStrand
       = Returns tt st'
       /\ segmentObjects st' !! 0%nat = Some s'
       /\ getContainedLength s' == 200
       /\ shapeSegments st' = [0%nat; 2%nat; 1%nat].
Proof.
  split; [reflexivity|].
  destruct (overflow_splitting exampleInitialCapacity upperLeftCorner 100
              0%nat (flatSegmentOn 0 150 200) exampleStrand [] [1%nat]
              eq_refl eq_refl eq_refl (not_elem_of_nil 0%nat) eq_refl)
    as (st' & s' & Hrun & Hs' & _ & _ & Hover & _).
  destruct (Hover eq_refl) as (Hfull & square & _ & _ & _ & Hlist).
  exists st', s'. split; [exact Hrun|]. split; [exact Hs'|].
  split; [exact Hfull|exact Hlist].
Defined.

Lemma proportion_of_rna_translated_witness :
  mapRibosomeToShapeSegment exampleOvershootStrand
    !! ribosomeId exampleRibosome = Some 1%nat
  /\ ~ getLength exampleOvershootStrand == 0
  /\ exists r,
       getProportionOfRnaTranslated exampleRibosome exampleOvershootStrand
       = Returns (Finite r) exampleOvershootStrand
       /\ r == 5 # 4
       /\ 0 <= r.
Proof.
  split; [reflexivity|].
  assert (Hlength : ~ getLength exampleOvershootStrand == 0)
    by (vm_compute; discriminate).
  split; [exact Hlength|].
  assert (Hpre : 1%nat ∉ [0%nat]).
  { intros H. apply list_elem_of_singleton in H. discriminate H. }
  destruct (proj1 (proportion_of_rna_translated exampleRibosome 1%nat
                     (flatSegmentOn 0 0 200) exampleOvershootStrand
                     [0%nat] [] eq_refl eq_refl eq_refl Hpre))
    as (result & Hrun & _ & Hvalue & _).
  destruct (Hvalue Hlength) as (r & Hr & Hmax & Hnonneg).
  exists r. split; [rewrite <- Hr; exact Hrun|].
  split; [rewrite Hmax; vm_compute; reflexivity|exact Hnonneg].
Defined.

(** C6 as the spec has it fails.  On a strand that has just been made,
    with nothing in its first segment and a chain of length zero, the
    proportion translated by the attached ribosome is [0 / 0], and
    [Math.max( NaN, 0 )] is NaN, which is not at least 0. *)
Lemma proportion_of_rna_translated_not_a_number :
  mapRibosomeToShapeSegment exampleNewStrand !! ribosomeId exampleRibosome
  = Some 0%nat
  /\ getProportionOfRnaTranslated exampleRibosome exampleNewStrand
     = Returns NaN exampleNewStrand
  /\ ~ jsAtLeast NaN 0.
Proof.
  split; [reflexivity|]. split; [vm_compute; reflexivity|].
  intros Hcontra. exact Hcontra.
Qed.



Lemma length_conservation_step_witness :
  wellFormed exampleTranslationStrand
  /\ admissible exampleEpsilon (Advance 1%nat 30)
       exampleTranslationStrand
  /\ exists st',
       FlatSegment_advance exampleEpsilon exampleLeaderLength
         exampleInitialCapacity upperLeftCorner 30 1%nat
         exampleTranslationStrand
       = Returns tt st'
       /\ lengthGap st' <= lengthGap exampleTranslationStrand.
Proof.
  assert (HWF : wellFormed exampleTranslationStrand)
    by exact (wellFormedb_sound exampleTranslationStrand eq_refl).
  assert (Hop : admissible exampleEpsilon (Advance 1%nat 30)
       exampleTranslationStrand).
  { exists (flatSegmentOn 0 150 150), [0%nat], [2%nat].
    split; [reflexivity|]. split; [reflexivity|]. split; [reflexivity|].
    split; [discriminate|]. split; [discriminate|].
    intros input rest i Hpost Hi.
    inversion Hpost; subst input rest.
    assert (Hi0 : segmentObjects exampleTranslationStrand !! 2%nat
                  = Some (squareSegmentOf 700)) by reflexivity.
    rewrite Hi0 in Hi. inversion Hi; subst i.
    split.
    - intros Hdrain. exfalso. apply (Qle_not_lt _ _ Hdrain). reflexivity.
    - intros _. left. discriminate. }
  split; [exact HWF|]. split; [exact Hop|].
  destruct (length_conservation_step exampleEpsilon exampleLeaderLength
              exampleInitialCapacity upperLeftCorner (Advance 1%nat 30)
              exampleTranslationStrand eq_refl HWF Hop)
    as (st' & Hrun & _ & Hhigh & _).
  exists st'. split; [exact Hrun|exact Hhigh].
Defined.

(** C1 as the spec has it fails.  On a strand whose sums agree, one
    advance by more than the segment and its input hold leaves the
    segments 3 ahead of the chain; and three advances by 1 through a
    segment that is half an epsilon short of full leave the segments one
    and a half epsilon behind. *)
Lemma length_conservation_fails :
  lengthGap exampleShortStrand == 0
  /\ returned
       (FlatSegment_advance exampleEpsilon exampleLeaderLength
          exampleInitialCapacity upperLeftCorner 5 1%nat exampleShortStrand)
     = Some tt
  /\ lengthGap
       (outcomeState
          (FlatSegment_advance exampleEpsilon exampleLeaderLength
             exampleInitialCapacity upperLeftCorner 5 1%nat
             exampleShortStrand))
     == 3
  /\ lengthGap exampleNearlyFullStrand == 0
  /\ returned
       (repeatedly 3
          (FlatSegment_advance exampleEpsilon exampleLeaderLength
             exampleInitialCapacity upperLeftCorner 1 1%nat)
          exampleNearlyFullStrand)
     = Some tt
  /\ lengthGap
       (outcomeState
          (repeatedly 3
             (FlatSegment_advance exampleEpsilon exampleLeaderLength
                exampleInitialCapacity upperLeftCorner 1 1%nat)
             exampleNearlyFullStrand))
     == - (3 * exampleEpsilon / 2)
  /\ exampleEpsilon < 3
  /\ exampleEpsilon < 3 * exampleEpsilon / 2.
Proof.
  repeat split; vm_compute; reflexivity.
Qed.

Lemma advanceTranslation_never_returns_witness :
  mapRibosomeToShapeSegment exampleTranslationStrand
    !! ribosomeId exampleRibosome = Some 1%nat
  /\ translationAnswers exampleLeaderLength stayAligned
              stayInPlace
       exampleRibosome 50 17 exampleTranslationStrand
     = replicate 17 (AnswerThrown TypeError)
  /\ AnswerBoolean true
     ∉ translationAnswers exampleLeaderLength stayAligned
              stayInPlace
         exampleRibosome 50 17 exampleTranslationStrand.
Proof.
  split; [reflexivity|].
  destruct (advanceTranslation_never_returns exampleLeaderLength stayAligned
              stayInPlace exampleRibosome 50 1%nat
              (flatSegmentOn 0 150 150) exampleTranslationStrand 17
              eq_refl eq_refl eq_refl) as [Hall Hnever].
  split; [|exact Hnever].
  unfold translationAnswers. rewrite Hall. reflexivity.
Defined.

(** * ShapeUtils *)

(** The vector version of extrapolateControlPoint and the component
    version that createRoundedShapeFromPoints calls give the same
    point. *)
Theorem extrapolateControlPoint_versions_agree (x y z : Vector2) :
  sameVector (extrapolateControlPoint_VectorVersion x y z)
    (extrapolateControlPoint x y z).
Proof.
  unfold sameVector, extrapolateControlPoint_VectorVersion,
    extrapolateControlPoint, Vector2_plus, Vector2_minus, Vector2_timesScalar.
  simpl. split; ring.
Qed.

Lemma outlinePoint_lookup points i :
  (i < length points)%nat -> points !! i = Some (outlinePoint points i).
Proof.
  intros Hi. destruct (lookup_lt_is_Some_2 points i Hi) as [p Hp].
  rewrite Hp. f_equal. symmetry. apply nth_lookup_Some with (1 := Hp).
Qed.

Lemma previous_index_in_range n i :
  (i < n)%nat -> ((if (1 <=? i)%nat then (i - 1)%nat else (n - 1)%nat) < n)%nat.
Proof. intros Hi. destruct (1 <=? i)%nat; lia. Qed.

Lemma addRoundedSegment_in_range points sh i :
  (i < length points)%nat ->
  addRoundedSegment points (Some sh) i
  = Some (sh ++ [roundedSegment points i]).
Proof.
  intros Hi. unfold addRoundedSegment, roundedSegment.
  assert (Hn : length points <> 0%nat) by lia.
  rewrite (outlinePoint_lookup points i Hi).
  rewrite (outlinePoint_lookup points _ (Nat.mod_upper_bound (i + 1) _ Hn)).
  rewrite (outlinePoint_lookup points _ (previous_index_in_range _ _ Hi)).
  rewrite (outlinePoint_lookup points _ (Nat.mod_upper_bound (i + 2) _ Hn)).
  reflexivity.
Qed.

Lemma foldl_addRoundedSegment points : forall l sh,
  Forall (fun i => (i < length points)%nat) l ->
  foldl (addRoundedSegment points) (Some sh) l
  = Some (sh ++ map (roundedSegment points) l).
Proof.
  induction l as [|i l IH]; intros sh Hl.
  - simpl. rewrite app_nil_r. reflexivity.
  - apply Forall_cons in Hl as [Hi Hl]. cbn [foldl map].
    rewrite (addRoundedSegment_in_range points sh i Hi), (IH _ Hl).
    rewrite <- app_assoc. reflexivity.
Qed.

(** createRoundedShapeFromPoints on a non-empty array, in closed form. *)
Lemma createRoundedShapeFromPoints_returns first others existingShape :
  createRoundedShapeFromPoints (first :: others) existingShape
  = Some (default [] existingShape
          ++ MoveToPoint first
             :: map (roundedSegment (first :: others))
                  (seq 0 (length (first :: others)))).
Proof.
  unfold createRoundedShapeFromPoints.
  change ((first :: others) !! 0%nat) with (Some first). cbv beta iota zeta.
  rewrite foldl_addRoundedSegment.
  - rewrite <- app_assoc. reflexivity.
  - apply Forall_forall. intros i Hi. apply elem_of_seq in Hi. lia.
Qed.

Lemma createRoundedShapeFromPoints_closed points first existingShape :
  head points = Some first ->
  createRoundedShapeFromPoints points existingShape
  = Some (default [] existingShape
          ++ MoveToPoint first
             :: map (roundedSegment points) (seq 0 (length points))).
Proof.
  destruct points as [|p0 others]; [discriminate|].
  intros Hhead. injection Hhead as ->.
  apply createRoundedShapeFromPoints_returns.
Qed.

Lemma nth_map_seq {A} (g : nat -> A) n i d :
  (i < n)%nat -> nth i (map g (seq 0 n)) d = g i.
Proof.
  intros Hi.
  rewrite (nth_indep _ d (g 0%nat)) by (rewrite length_map, length_seq; exact Hi).
  rewrite map_nth, seq_nth by exact Hi. reflexivity.
Qed.

Lemma curve_ends_rotate first others :
  map (fun i =>
         outlinePoint (first :: others)
           ((i + 1) mod length (first :: others)))
    (seq 0 (length (first :: others)))
  = others ++ [first].
Proof.
  set (points := first :: others).
  set (n := length points).
  assert (Hn : n = S (length others)) by reflexivity.
  apply (nth_ext _ _ (mkVector2 0 0) (mkVector2 0 0)).
  - rewrite length_map, length_seq, length_app. simpl. lia.
  - intros i Hi. rewrite length_map, length_seq in Hi.
    rewrite (nth_map_seq (fun j => outlinePoint points ((j + 1) mod n)) n i _
               Hi).
    unfold outlinePoint.
    destruct (decide (i + 1 < n)%nat) as [Hin|Hlast].
    + rewrite Nat.mod_small by exact Hin.
      rewrite Nat.add_1_r. change (nth (S i) points (mkVector2 0 0))
        with (nth i others (mkVector2 0 0)).
      symmetry. apply app_nth1. lia.
    + assert (Hi1 : (i + 1)%nat = n) by lia.
      rewrite Hi1, Nat.Div0.mod_same.
      rewrite app_nth2 by lia.
      replace (i - length others)%nat with 0%nat by lia. reflexivity.
Qed.

(** createRoundedShapeFromPoints on a non-empty array of points draws a
    closed outline: after the existing shape it moves to the first point
    and draws one cubic curve per point, and the curves end at the second
    point, the third, and so on, the last one at the first point again. *)
Theorem rounded_shape_is_closed points existingShape :
  points <> [] ->
  exists first curves,
    head points = Some first
    /\ createRoundedShapeFromPoints points existingShape
       = Some (default [] existingShape ++ MoveToPoint first :: curves)
    /\ length curves = length points
    /\ Forall2 cubicCurveEndingAt curves (tail points ++ [first]).
Proof.
  intros Hpoints. destruct points as [|first others]; [congruence|].
  eexists first, _. split; [reflexivity|].
  split; [apply createRoundedShapeFromPoints_returns|].
  split; [rewrite length_map, length_seq; reflexivity|].
  cbn [tail]. rewrite <- curve_ends_rotate.
  apply Forall2_fmap, Forall_Forall2_diag, Forall_forall.
  intros i _. unfold cubicCurveEndingAt, roundedSegment.
  eexists _, _. reflexivity.
Qed.

Lemma lookup_map_seq {A} (g : nat -> A) n i x :
  map g (seq 0 n) !! i = Some x -> (i < n)%nat /\ x = g i.
Proof.
  intros Hx.
  assert (Hi : (i < n)%nat).
  { apply lookup_lt_Some in Hx. rewrite length_map, length_seq in Hx.
    exact Hx. }
  split; [exact Hi|].
  rewrite <- (nth_lookup_Some _ _ x _ Hx). apply nth_map_seq, Hi.
Qed.

Lemma next_joint_indices n i :
  (i < n)%nat ->
  (if (1 <=? (i + 1) mod n)%nat then ((i + 1) mod n - 1)%nat else (n - 1)%nat)
  = i
  /\ (((i + 1) mod n + 1) mod n = (i + 2) mod n)%nat.
Proof.
  intros Hi. split.
  - destruct (decide (i + 1 < n)%nat) as [Hin|Hlast].
    + rewrite Nat.mod_small by exact Hin.
      replace (1 <=? i + 1)%nat with true by (symmetry; apply Nat.leb_le; lia).
      lia.
    + replace (i + 1)%nat with n by lia. rewrite Nat.Div0.mod_same.
      simpl. lia.
  - rewrite Nat.Div0.add_mod_idemp_l. f_equal. lia.
Qed.

(** The outline is smooth where two curves meet: the second control point
    of a curve and the first control point of the curve that follows it
    (the first curve follows the last) are mirror images of each other in
    the point where the two curves meet. *)
Theorem rounded_shape_has_smooth_joints
  points first curves i a c2 e c1' b e' :
  createRoundedShapeFromPoints points None = Some (MoveToPoint first :: curves) ->
  curves !! i = Some (CubicCurveTo a c2 e) ->
  curves !! ((i + 1) mod length points) = Some (CubicCurveTo c1' b e') ->
  v_x c2 + v_x c1' == 2 * v_x e /\ v_y c2 + v_y c1' == 2 * v_y e.
Proof.
  intros Hshape Hcurve Hnext.
  destruct points as [|p0 others]; [discriminate Hshape|].
  rewrite createRoundedShapeFromPoints_returns in Hshape.
  set (points := p0 :: others) in *.
  remember (map (roundedSegment points) (seq 0 (length points))) as drawn
    eqn:Hdrawn.
  injection Hshape as _ <-. subst drawn.
  apply lookup_map_seq in Hcurve as [Hi Hcurve].
  apply lookup_map_seq in Hnext as [_ Hnext].
  destruct (next_joint_indices (length points) i Hi) as [Hprev Hafter].
  unfold roundedSegment in Hcurve, Hnext.
  rewrite Hprev, Hafter in Hnext.
  injection Hcurve as _ -> ->. injection Hnext as -> _ _.
  unfold extrapolateControlPoint. simpl. split; ring.
Qed.

Lemma outlinePoint_map (f : Vector2 -> Vector2) points j :
  (j < length points)%nat ->
  outlinePoint (map f points) j = f (outlinePoint points j).
Proof.
  intros Hj. unfold outlinePoint.
  rewrite (nth_indep _ _ (f (mkVector2 0 0)))
    by (rewrite length_map; exact Hj).
  apply map_nth.
Qed.

Lemma extrapolateControlPoint_translated t x y z :
  sameVector
    (extrapolateControlPoint (Vector2_plus x t) (Vector2_plus y t)
       (Vector2_plus z t))
    (Vector2_plus (extrapolateControlPoint x y z) t).
Proof.
  unfold sameVector, extrapolateControlPoint, Vector2_plus. simpl.
  split; ring.
Qed.

Lemma sameVector_refl p : sameVector p p.
Proof. split; reflexivity. Qed.

Lemma roundedSegment_translated t points i :
  (i < length points)%nat ->
  sameCommand
    (roundedSegment (map (fun p => Vector2_plus p t) points) i)
    (translatedCommand t (roundedSegment points i)).
Proof.
  intros Hi. unfold roundedSegment. rewrite length_map.
  assert (Hn : length points <> 0%nat) by lia.
  rewrite !outlinePoint_map;
    try exact Hi;
    try (apply Nat.mod_upper_bound; exact Hn);
    try (apply previous_index_in_range; exact Hi).
  simpl. split; [apply extrapolateControlPoint_translated|].
  split; [apply extrapolateControlPoint_translated|apply sameVector_refl].
Qed.

(** Rounding commutes with translation: the outline of the points moved by
    a vector is the outline of the points, moved by that vector. *)
Theorem rounded_shape_moves_with_its_points points t shape :
  createRoundedShapeFromPoints points None = Some shape ->
  exists moved,
    createRoundedShapeFromPoints (map (fun p => Vector2_plus p t) points) None
    = Some moved
    /\ Forall2 sameCommand moved (map (translatedCommand t) shape).
Proof.
  intros Hshape.
  destruct (decide (points = [])) as [->|Hpoints].
  { injection Hshape as <-. eexists. split; [reflexivity|].
    repeat constructor. }
  assert (Hhead : exists first, head points = Some first).
  { destruct points as [|p0 others]; [congruence|].
    exists p0. reflexivity. }
  destruct Hhead as [first Hhead].
  rewrite (createRoundedShapeFromPoints_closed points first None Hhead)
    in Hshape.
  injection Hshape as <-.
  assert (Hhead' : head (map (fun p => Vector2_plus p t) points)
                   = Some (Vector2_plus first t)).
  { destruct points; [discriminate Hhead|].
    injection Hhead as ->. reflexivity. }
  eexists. split; [apply createRoundedShapeFromPoints_closed, Hhead'|].
  rewrite length_map.
  cbn [default app map]. constructor; [apply sameVector_refl|].
  assert (Hrange : Forall (fun i => (i < length points)%nat)
                     (seq 0 (length points))).
  { apply Forall_forall. intros i Hi. apply elem_of_seq in Hi. lia. }
  induction Hrange as [|i l Hi _ IH]; [constructor|].
  cbn [map]. constructor; [|exact IH].
  apply roundedSegment_translated, Hi.
Qed.

(** * MotionBounds *)

(** testIfInMotionBounds asks whether the shape fits inside the motion
    bounds when its centre is put at the proposed location: the answer
    depends on the width and the height of the shape and on the proposed
    location, not on where the shape is now. *)
Theorem testIfInMotionBounds_fits_when_centred bounds shapeBounds p :
  testIfInMotionBounds (Bounded bounds) shapeBounds p = true
  <-> minX bounds <= v_x p - getWidth shapeBounds / 2
      /\ v_x p + getWidth shapeBounds / 2 <= maxX bounds
      /\ minY bounds <= v_y p - getHeight shapeBounds / 2
      /\ v_y p + getHeight shapeBounds / 2 <= maxY bounds.
Proof.
  unfold testIfInMotionBounds, inBounds, containsBounds, shifted, getCenter,
    Vector2_minus, getWidth, getHeight.
  cbn [minX minY maxX maxY v_x v_y].
  rewrite !andb_true_iff, !Qle_bool_iff.
  assert (Hx0 : minX shapeBounds
                + (v_x p - (maxX shapeBounds + minX shapeBounds) / 2)
                == v_x p - (maxX shapeBounds - minX shapeBounds) / 2)
    by field.
  assert (Hx1 : maxX shapeBounds
                + (v_x p - (maxX shapeBounds + minX shapeBounds) / 2)
                == v_x p + (maxX shapeBounds - minX shapeBounds) / 2)
    by field.
  assert (Hy0 : minY shapeBounds
                + (v_y p - (maxY shapeBounds + minY shapeBounds) / 2)
                == v_y p - (maxY shapeBounds - minY shapeBounds) / 2)
    by field.
  assert (Hy1 : maxY shapeBounds
                + (v_y p - (maxY shapeBounds + minY shapeBounds) / 2)
                == v_y p + (maxY shapeBounds - minY shapeBounds) / 2)
    by field.
  rewrite Hx0, Hx1, Hy0, Hy1. tauto.
Qed.

(** testIfInMotionBoundsWithDelta is testIfInMotionBounds at the place the
    centre of the shape reaches after moving along the motion vector for
    [dt]. *)
Theorem testIfInMotionBoundsWithDelta_is_test_at_destination
  this shapeBounds motionVector dt :
  testIfInMotionBoundsWithDelta this shapeBounds motionVector dt
  = testIfInMotionBounds this shapeBounds
      (Vector2_plus (getCenter shapeBounds)
         (Vector2_timesScalar motionVector dt)).
Proof.
  destruct this as [|bounds]; [reflexivity|].
  unfold testIfInMotionBoundsWithDelta, testIfInMotionBounds, inBounds,
    containsBounds, shifted, getCenter, Vector2_minus, Vector2_plus,
    Vector2_timesScalar.
  cbn [minX minY maxX maxY v_x v_y].
  set (cx := (maxX shapeBounds + minX shapeBounds) / 2).
  set (cy := (maxY shapeBounds + minY shapeBounds) / 2).
  assert (Hx : cx + v_x motionVector * dt - cx == v_x motionVector * dt)
    by ring.
  assert (Hy : cy + v_y motionVector * dt - cy == v_y motionVector * dt)
    by ring.
  rewrite Hx, Hy. reflexivity.
Qed.

(** * MobileBiomoleculeNode *)

Lemma applyChange_keeps_fade node change :
  inAssertedRange change -> fadingInvariant node ->
  fadingInvariant (applyChange node change).
Proof.
  intros Hrange (He & Hz & Hopacity & Hscale).
  destruct change as [value|value]; simpl in *.
  - destruct (Qeq_dec value (existenceStrengthProperty node));
      [repeat split; tauto|].
    unfold fadingInvariant. simpl.
    split; [exact Hrange|]. split; [exact Hz|].
    split; [reflexivity|exact Hscale].
  - destruct (Qeq_dec value (zPositionProperty node));
      [repeat split; tauto|].
    unfold fadingInvariant. simpl.
    split; [exact He|]. split; [exact Hrange|].
    split; [apply Q.min_comm|reflexivity].
Qed.

(** With the existence strength and the z position in the ranges the
    listeners assert, whatever the order in which the two properties
    change, the opacity of the node is the smaller of the existence
    strength and one plus the z position, and its scale is one plus 0.15
    times the z position: the opacity is between 0 and 1 and the scale
    between 0.85 and 1. *)
Theorem fading_follows_both_properties
  (existenceStrength zPosition : Q) (changes : list PropertyChange) :
  0 <= existenceStrength <= 1 ->
  -1 <= zPosition <= 0 ->
  Forall inAssertedRange changes ->
  let node :=
    foldl applyChange (linkFadingListeners existenceStrength zPosition)
      changes in
  opacity node
  == Qmin (existenceStrengthProperty node) (1 + zPositionProperty node)
  /\ scaleMagnitude node == 1 + (15 # 100) * zPositionProperty node
  /\ 0 <= opacity node <= 1
  /\ 85 # 100 <= scaleMagnitude node <= 1.
Proof.
  intros He Hz Hchanges. cbn zeta.
  assert (Hinv : fadingInvariant
                   (foldl applyChange
                      (linkFadingListeners existenceStrength zPosition)
                      changes)).
  { induction changes as [|change changes IH] using rev_ind.
    - unfold fadingInvariant. simpl.
      split; [exact He|]. split; [exact Hz|].
      split; [apply Q.min_comm|reflexivity].
    - destruct (proj1 (Forall_app _ _ _) Hchanges) as [Hinit Hlast].
      assert (Hchange : inAssertedRange change)
        by (inversion Hlast; assumption).
      clear Hchanges Hlast. rename Hinit into Hchanges.
      rewrite foldl_app. cbn [foldl].
      apply applyChange_keeps_fade; [exact Hchange|apply IH, Hchanges]. }
  destruct Hinv as ([He0 He1] & [Hz0 Hz1] & Hopacity & Hscale).
  split; [exact Hopacity|]. split; [exact Hscale|].
  rewrite Hopacity, Hscale.
  set (e := existenceStrengthProperty _) in *.
  set (z := zPositionProperty _) in *.
  split; [|split; lra].
  destruct (Q.min_spec e (1 + z)) as [[_ ->]|[_ ->]]; split; lra.
Qed.

(** * The further properties at work on the example strands *)

Lemma add_grows_left_up_to_capacity_witness :
  exists st' s',
    FlatSegment_add exampleInitialCapacity upperLeftCorner 30 0%nat
      exampleStrand
    = Returns tt st'
    /\ segmentObjects st' !! 0%nat = Some s'
    /\ getContainedLength s' == 180.
Proof.
  destruct (add_grows_left_up_to_capacity exampleInitialCapacity
              upperLeftCorner 30 0%nat (flatSegmentOn 0 150 200) exampleStrand
              (wellFormedb_sound exampleStrand eq_refl) eq_refl eq_refl)
    as (st' & s' & Hrun & Hs' & Hlen & _).
  exists st', s'. split; [exact Hrun|]. split; [exact Hs'|].
  rewrite Hlen. reflexivity.
Defined.

Lemma remove_shrinks_from_the_right_witness :
  exists st' s',
    FlatSegment_remove exampleEpsilon upperLeftCorner 50 0%nat exampleStrand
    = Returns tt st'
    /\ segmentObjects st' !! 0%nat = Some s'
    /\ getContainedLength s' == 100
    /\ shapeSegments st' = [0%nat; 1%nat].
Proof.
  destruct (remove_shrinks_from_the_right exampleEpsilon upperLeftCorner 50
              0%nat (flatSegmentOn 0 150 200) [] [1%nat] exampleStrand
              eq_refl eq_refl eq_refl (not_elem_of_nil _))
    as (st' & s' & Hrun & Hs' & Hlen & _ & _ & Hlist & _).
  exists st', s'. split; [exact Hrun|]. split; [exact Hs'|].
  split; [rewrite Hlen; reflexivity|exact Hlist].
Defined.

Lemma remove_unlisted_evicts_last_witness :
  shapeSegments exampleStrandWithOrphan = [0%nat; 1%nat]
  /\ exists st',
       FlatSegment_remove exampleEpsilon upperLeftCorner 0 2%nat
         exampleStrandWithOrphan
       = Returns tt st'
       /\ shapeSegments st' = [0%nat].
Proof.
  split; [reflexivity|].
  assert (Habsent : 2%nat ∉ shapeSegments exampleStrandWithOrphan).
  { intros H. apply list_elem_of_In in H. simpl in H. lia. }
  destruct (remove_unlisted_evicts_last exampleEpsilon upperLeftCorner 0
              2%nat (flatSegmentOn 0 0 100) exampleStrandWithOrphan
              eq_refl eq_refl Habsent eq_refl)
    as (st' & Hrun & Hlist).
  exists st'. split; [exact Hrun|exact Hlist].
Defined.

Lemma maxOutLength_fills_to_capacity_witness :
  exists st' s',
    FlatSegment_maxOutLength upperLeftCorner 0%nat exampleStrand
    = Returns tt st'
    /\ segmentObjects st' !! 0%nat = Some s'
    /\ getContainedLength s' == 200.
Proof.
  destruct (maxOutLength_fills_to_capacity upperLeftCorner 0%nat
              (flatSegmentOn 0 150 200) exampleStrand eq_refl eq_refl)
    as (st' & s' & Hrun & Hs' & Hlen & _).
  exists st', s'. split; [exact Hrun|]. split; [exact Hs'|exact Hlen].
Defined.

Lemma add_then_remove_moves_left_witness :
  exists st' s',
    bind (FlatSegment_add exampleInitialCapacity upperLeftCorner 30 0%nat)
      (fun _ => FlatSegment_remove exampleEpsilon upperLeftCorner 30 0%nat)
      exampleStrand
    = Returns tt st'
    /\ segmentObjects st' !! 0%nat = Some s'
    /\ minX (bounds s') == -30
    /\ maxX (bounds s') == 120.
Proof.
  assert (Hheld : exampleEpsilon <= getContainedLength (flatSegmentOn 0 150 200))
    by (vm_compute; discriminate).
  assert (Hfits : getContainedLength (flatSegmentOn 0 150 200) + 30
                  <= capacity (flatSegmentOn 0 150 200))
    by (vm_compute; discriminate).
  destruct (add_then_remove_moves_left exampleEpsilon exampleInitialCapacity
              upperLeftCorner 30 0%nat (flatSegmentOn 0 150 200) exampleStrand
              (wellFormedb_sound exampleStrand eq_refl) eq_refl eq_refl
              Hfits Hheld)
    as (st' & s' & Hrun & Hs' & Hmin & Hmax & _).
  exists st', s'. split; [exact Hrun|]. split; [exact Hs'|].
  split; [rewrite Hmin; reflexivity|rewrite Hmax; reflexivity].
Defined.

Lemma advanceAndRemove_three_case_rule_witness :
  exists st' i',
    FlatSegment_advanceAndRemove exampleEpsilon upperLeftCorner 30 0%nat
      exampleStrand
    = Returns tt st'
    /\ segmentObjects st' !! 1%nat = Some i'
    /\ getContainedLength i' == 820.
Proof.
  destruct (proj1 (proj2
              (advanceAndRemove_three_case_rule exampleEpsilon upperLeftCorner
                 30 0%nat (flatSegmentOn 0 150 200) [] [1%nat] exampleStrand
                 eq_refl (wellFormedb_sound exampleStrand eq_refl) eq_refl
                 eq_refl eq_refl))
              1%nat [] (squareSegmentOf 850) eq_refl eq_refl eq_refl)
    as (st' & s' & i' & Hrun & _ & _ & _ & _ & Hi' & Hlen & _).
  exists st', i'. split; [exact Hrun|]. split; [exact Hi'|].
  rewrite Hlen. reflexivity.
Defined.

Lemma advance_without_output_throws_witness :
  FlatSegment_advance exampleEpsilon exampleLeaderLength
    exampleInitialCapacity upperLeftCorner 30 0%nat exampleLeaderStrand
  = Throws TypeError exampleLeaderStrand.
Proof.
  assert (Hfull : getRemainingCapacity (flatSegmentOn 0 150 150)
                  <= exampleEpsilon) by (vm_compute; discriminate).
  exact (proj2 (proj2
           (advance_without_output_throws exampleEpsilon exampleLeaderLength
              exampleInitialCapacity upperLeftCorner 30 0%nat
              (flatSegmentOn 0 150 150) [1%nat] exampleLeaderStrand eq_refl
              (wellFormedb_sound exampleLeaderStrand eq_refl) eq_refl eq_refl
              eq_refl))
           1%nat [] (squareSegmentOf 700) eq_refl eq_refl eq_refl eq_refl
           Hfull).
Defined.

Lemma advanceDestruction_completes_at_once_witness :
  returned
    (advanceDestruction stayAligned stayInPlace
       1000 exampleStrandBeingDestroyed)
  = Some true.
Proof.
  assert (Hall : getLength exampleStrandBeingDestroyed <= 1000)
    by (vm_compute; discriminate).
  rewrite (advanceDestruction_completes_at_once stayAligned stayInPlace 1000 0%nat
             (mkPointMass (mkVector2 0 0) 0)
             [mkPointMass (mkVector2 0 0) 500; mkPointMass (mkVector2 0 0) 500]
             exampleStrandBeingDestroyed eq_refl eq_refl Hall).
  reflexivity.
Defined.

Lemma advanceDestruction_partial_throws_witness :
  segmentWhereDestroyerConnects exampleStrandBeingDestroyed = Some 0%nat
  /\ 40 < getLength exampleStrandBeingDestroyed
  /\ advanceDestruction stayAligned stayInPlace 40
       exampleStrandBeingDestroyed
     = Throws TypeError exampleStrandBeingDestroyed.
Proof.
  split; [reflexivity|].
  assert (Hless : 40 < getLength exampleStrandBeingDestroyed)
    by (vm_compute; reflexivity).
  split; [exact Hless|].
  exact (proj2 (advanceDestruction_partial_throws stayAligned stayInPlace 40
                  0%nat _ exampleStrandBeingDestroyed eq_refl eq_refl
                  eq_refl Hless)).
Defined.

Lemma accepted_ribosome_is_located_witness :
  exists st',
    considerProposalFromByRibosome exampleRibosome exampleStrand
    = Returns (Some 0%nat) st'
    /\ getRibosomeAttachmentLocation exampleLeaderLength exampleRibosome st'
       = Returns (Some (mkVector2 (150 - exampleLeaderLength) 0)) st'.
Proof.
  set (st' := outcomeState
                (considerProposalFromByRibosome exampleRibosome exampleStrand)).
  assert (Haccept : considerProposalFromByRibosome exampleRibosome exampleStrand
                    = Returns (Some 0%nat) st') by reflexivity.
  destruct (accepted_ribosome_is_located exampleLeaderLength exampleRibosome
              0%nat exampleStrand st' Haccept)
    as (s & rest & _ & Hs & _ & _ & _ & _ & Hlocation).
  exists st'. split; [exact Haccept|].
  assert (Hs0 : segmentObjects exampleStrand !! 0%nat
                = Some (flatSegmentOn 0 150 200)) by reflexivity.
  rewrite Hs0 in Hs. injection Hs as <-. exact Hlocation.
Defined.

Lemma accept_then_release_restores_map_witness :
  exists st1 st2,
    considerProposalFromByRibosome exampleRibosome exampleStrand
    = Returns (Some 0%nat) st1
    /\ releaseFromRibosome exampleRibosome st1 = Returns tt st2
    /\ mapRibosomeToShapeSegment st2 = mapRibosomeToShapeSegment exampleStrand.
Proof.
  set (st1 := outcomeState
                (considerProposalFromByRibosome exampleRibosome exampleStrand)).
  assert (Haccept : considerProposalFromByRibosome exampleRibosome exampleStrand
                    = Returns (Some 0%nat) st1) by reflexivity.
  destruct (accept_then_release_restores_map exampleRibosome 0%nat
              exampleStrand st1 eq_refl Haccept)
    as (st2 & Hrun & Hmap & _).
  exists st1, st2. split; [exact Haccept|]. split; [exact Hrun|exact Hmap].
Defined.

Lemma abort_lets_the_destroyer_propose_again_witness :
  exists st1 st2 st3,
    considerProposalFromByMessengerRnaDestroyer exampleDestroyer exampleStrand
    = Returns (Some 0%nat) st1
    /\ abortDestruction st1 = Returns tt st2
    /\ considerProposalFromByMessengerRnaDestroyer exampleDestroyer st2
       = Returns (Some 0%nat) st3.
Proof.
  set (st1 := outcomeState
                (considerProposalFromByMessengerRnaDestroyer exampleDestroyer
                   exampleStrand)).
  assert (Haccept : considerProposalFromByMessengerRnaDestroyer
                      exampleDestroyer exampleStrand
                    = Returns (Some 0%nat) st1) by reflexivity.
  destruct (abort_lets_the_destroyer_propose_again exampleDestroyer 0%nat
              exampleStrand st1 Haccept)
    as (st2 & st3 & Habort & _ & _ & _ & _ & _ & Hagain & _).
  exists st1, st2, st3.
  split; [exact Haccept|]. split; [exact Habort|exact Hagain].
Defined.

Lemma getRibosomeAttachmentLocation_attached_witness :
  getRibosomeAttachmentLocation exampleLeaderLength exampleRibosome
    exampleTranslationStrand
  = Returns (Some (mkVector2 (0 + 50) 0)) exampleTranslationStrand.
Proof.
  assert (Hpre : 1%nat ∉ [0%nat]).
  { intros H. apply list_elem_of_In in H. simpl in H. lia. }
  exact (getRibosomeAttachmentLocation_attached exampleLeaderLength
           exampleRibosome 1%nat (flatSegmentOn 0 150 150) [0%nat] [2%nat]
           exampleTranslationStrand eq_refl eq_refl eq_refl Hpre).
Defined.

Lemma destroyer_follows_the_right_edge_witness :
  DestroyerTrackingRnaMotionStrategy_getNextLocation exampleLeaderLength
    (mkVector2 3 4) (mkBounds2 0 0 1 1) 1 exampleStrandBeingDestroyed
  = Returns (mkVector2 (150 - exampleLeaderLength) 0)
      exampleStrandBeingDestroyed.
Proof.
  exact (proj1 (proj2
           (destroyer_follows_the_right_edge exampleEpsilon
              exampleLeaderLength upperLeftCorner 50 0%nat
              (flatSegmentOn 0 150 200) exampleStrandBeingDestroyed
              (mkVector2 3 4) (mkBounds2 0 0 1 1) 1 eq_refl eq_refl)
           eq_refl)).
Defined.

Lemma proportion_on_a_strand_of_length_zero_witness :
  getProportionOfRnaTranslated exampleRibosome exampleStrandOfLengthZero
  = Returns PosInfinity exampleStrandOfLengthZero.
Proof.
  assert (Hpre : 1%nat ∉ [0%nat]).
  { intros H. apply list_elem_of_In in H. simpl in H. lia. }
  destruct (proportion_on_a_strand_of_length_zero exampleRibosome 1%nat
              (flatSegmentOn 0 0 200) [0%nat] [] exampleStrandOfLengthZero
              eq_refl eq_refl eq_refl Hpre eq_refl)
    as (result & Hrun & Hpositive & _).
  rewrite Hrun. f_equal. apply Hpositive. reflexivity.
Defined.

Lemma proposals_to_an_empty_strand_witness :
  considerProposalFromByRibosome exampleRibosome exampleEmptyStrand
  = Throws TypeError exampleEmptyStrand.
Proof.
  exact (proj1 (proj1
           (proposals_to_an_empty_strand exampleRibosome exampleDestroyer
              exampleEmptyStrand eq_refl)
           eq_refl)).
Defined.

Lemma shapePoints_not_empty : shapePoints <> [].
Proof. discriminate. Qed.

Lemma rounded_shape_is_closed_witness :
  exists curves lastCurve,
    RnaPolymerase_createShape
    = Some (MoveToPoint (mkVector2 0 (HEIGHT / 2)) :: curves)
    /\ length curves = 6%nat
    /\ last curves = Some lastCurve
    /\ cubicCurveEndingAt lastCurve (mkVector2 0 (HEIGHT / 2)).
Proof.
  destruct (rounded_shape_is_closed shapePoints None shapePoints_not_empty)
    as (first & curves & Hhead & Hshape & Hlength & Hends).
  injection Hhead as <-.
  destruct (proj1 (Forall2_app_inv_r _ _ _ _) Hends)
    as (before & final & _ & Hfinal & Hcurves).
  inversion Hfinal as [|lastCurve ? ? ? Hlast Hnil]; subst.
  inversion Hnil; subst.
  exists (before ++ [lastCurve]), lastCurve.
  split; [exact Hshape|]. split; [exact Hlength|].
  split; [apply last_snoc|exact Hlast].
Defined.

Lemma rounded_shape_has_smooth_joints_witness :
  exists curves a c2 e c1' b e',
    RnaPolymerase_createShape
    = Some (MoveToPoint (mkVector2 0 (HEIGHT / 2)) :: curves)
    /\ curves !! 5%nat = Some (CubicCurveTo a c2 e)
    /\ curves !! 0%nat = Some (CubicCurveTo c1' b e')
    /\ v_x c2 + v_x c1' == 2 * v_x e
    /\ v_y c2 + v_y c1' == 2 * v_y e.
Proof.
  pose proof (createRoundedShapeFromPoints_closed shapePoints
                (mkVector2 0 (HEIGHT / 2)) None eq_refl) as Hshape.
  eexists _, _, _, _, _, _, _.
  split; [exact Hshape|]. split; [reflexivity|]. split; [reflexivity|].
  exact (rounded_shape_has_smooth_joints shapePoints _ _ 5%nat _ _ _ _ _ _
           Hshape eq_refl eq_refl).
Defined.

Lemma rounded_shape_moves_with_its_points_witness :
  exists shape moved,
    RnaPolymerase_createShape = Some shape
    /\ createRoundedShapeFromPoints
         (map (fun p => Vector2_plus p (mkVector2 10 20)) shapePoints) None
       = Some moved
    /\ Forall2 sameCommand moved
         (map (translatedCommand (mkVector2 10 20)) shape).
Proof.
  pose proof (createRoundedShapeFromPoints_closed shapePoints
                (mkVector2 0 (HEIGHT / 2)) None eq_refl) as Hshape.
  destruct (rounded_shape_moves_with_its_points shapePoints (mkVector2 10 20)
              _ Hshape) as (moved & Hmoved & Hsame).
  eexists _, moved. split; [exact Hshape|]. split; [exact Hmoved|exact Hsame].
Defined.

Lemma fading_follows_both_properties_witness :
  let node :=
    foldl applyChange (linkFadingListeners 1 0)
      [SetZPosition (-1 # 2); SetExistenceStrength (3 # 4)] in
  opacity node == 1 # 2 /\ scaleMagnitude node == 37 # 40.
Proof.
  assert (He : 0 <= 1 <= 1) by (split; vm_compute; discriminate).
  assert (Hz : -1 <= 0 <= 0) by (split; vm_compute; discriminate).
  assert (Hchanges : Forall inAssertedRange
                       [SetZPosition (-1 # 2); SetExistenceStrength (3 # 4)]).
  { repeat constructor; vm_compute; discriminate. }
  destruct (fading_follows_both_properties 1 0 _ He Hz Hchanges)
    as (Hopacity & Hscale & _).
  cbn zeta in *. split; [rewrite Hopacity|rewrite Hscale]; reflexivity.
Defined.

(** ** RandomWalkMotionStrategy *)

Lemma generateDirectionChangeCountdownValue_range (draw : Q) :
  unitDraw draw ->
  MIN_TIME_IN_ONE_DIRECTION <= generateDirectionChangeCountdownValue draw
  /\ generateDirectionChangeCountdownValue draw < MAX_TIME_IN_ONE_DIRECTION.
Proof.
  unfold unitDraw, generateDirectionChangeCountdownValue,
    MIN_TIME_IN_ONE_DIRECTION, MAX_TIME_IN_ONE_DIRECTION.
  intros [Hlow Hhigh]. split; lra.
Qed.

Lemma clamp_range (value min max : Q) :
  min <= max -> min <= clamp value min max /\ clamp value min max <= max.
Proof.
  intros Horder. unfold clamp.
  destruct (Qlt_le_dec value min); [split; lra|].
  destruct (Qlt_le_dec max value); split; lra.
Qed.

Lemma clamp_between (value min max z : Q) :
  min <= z -> z <= max ->
  (value <= z -> value <= clamp value min max /\ clamp value min max <= z)
  /\ (z <= value -> z <= clamp value min max /\ clamp value min max <= value).
Proof.
  intros Hlow Hhigh. unfold clamp.
  destruct (Qlt_le_dec value min); [split; intros; split; lra|].
  destruct (Qlt_le_dec max value); split; intros; split; lra.
Qed.

Section RandomWalkProperties.

Variable createPolarAtTurn : Q -> Q -> Vector2.
Variable getMotionVectorForBounce : Bounds2 -> Vector2 -> Q -> Q -> Vector2.
Variable getMinZ : Bounds2 -> Vector3 -> Q.

Let step := getNextLocation3D createPolarAtTurn getMotionVectorForBounce getMinZ.

Lemma getNextLocation3D_keeps_walking_in_bounds
  (currentLocation : Vector3) (bounds : Bounds2) (dt : Q)
  (draws : RandomDraws) (this : RandomWalkMotionStrategy) :
  walkingInBounds this -> 0 <= dt -> unitDraws draws ->
  walkingInBounds (snd (step currentLocation bounds dt draws this))
  /\ 0 < directionChangeCountdown
           (snd (step currentLocation bounds dt draws this)).
Proof.
  intros (Hc0 & Hc1 & Hz0 & Hz1) Hdt (_ & _ & Hzd & Hcd & Hbd).
  pose proof (generateDirectionChangeCountdownValue_range _ Hcd) as Hcount.
  pose proof (generateDirectionChangeCountdownValue_range _ Hbd) as Hbounce.
  unfold unitDraw in Hzd.
  unfold step, getNextLocation3D, walkingInBounds in *. cbn zeta.
  unfold MIN_TIME_IN_ONE_DIRECTION, MAX_TIME_IN_ONE_DIRECTION,
    MIN_Z_VELOCITY, MAX_Z_VELOCITY in *.
  cbn [directionChangeCountdown currentMotionVector2D currentZVelocity
       motionBounds].
  destruct (Qlt_le_dec 0 (directionChangeCountdown this - dt)) as [Hrun|Hturn];
    cbn [directionChangeCountdown currentMotionVector2D currentZVelocity
         motionBounds];
    match goal with
    | |- context [testIfInMotionBoundsWithDelta ?m ?b ?v ?t] =>
        destruct (testIfInMotionBoundsWithDelta m b v t)
    end;
    cbn [snd directionChangeCountdown currentMotionVector2D currentZVelocity
         motionBounds];
    try (destruct (zSignDraw draws));
    repeat split; lra.
Qed.

(** RandomWalkMotionStrategy.getNextLocation3D, over any number of
    calls: starting from a strategy whose countdown lies between 0 and the
    longest time in one direction (0.8 s) and whose z velocity is no faster
    than 0.6 either way, as the constructor leaves it, and stepping with
    time steps that are not negative and random numbers from the unit
    interval, the countdown stays in that range and the z velocity stays
    within that speed; once a step has been taken the countdown is above
    zero, whatever the bounce and the polar vector are. *)
Theorem walk_keeps_countdown_and_z_speed
  (steps : list (Vector3 * Bounds2 * Q * RandomDraws))
  (this : RandomWalkMotionStrategy) :
  walkingInBounds this -> Forall soundStep steps ->
  let after :=
    walk createPolarAtTurn getMotionVectorForBounce getMinZ steps this in
  walkingInBounds after
  /\ (steps <> [] -> 0 < directionChangeCountdown after).
Proof.
  cbn zeta. revert this.
  induction steps as [|[[[currentLocation bounds] dt] draws] steps IH]
    using rev_ind; intros this Hthis Hsteps.
  - split; [exact Hthis|congruence].
  - apply Forall_app in Hsteps as [Hsteps Hlast].
    inversion Hlast as [|? ? Hsound _]; subst.
    cbn [soundStep] in Hsound. destruct Hsound as [Hdt Hdraws].
    destruct (IH this Hthis Hsteps) as [Hbefore _].
    unfold walk in *. rewrite foldl_app. cbn [foldl].
    destruct (getNextLocation3D_keeps_walking_in_bounds currentLocation
                bounds dt draws _ Hbefore Hdt Hdraws) as [Hin Hpositive].
    split; [exact Hin|intros _; exact Hpositive].
Qed.

(** RandomWalkMotionStrategy.getNextLocation3D, the z coordinate: when
    the strategy is within its ranges, the time step is not negative, the
    random numbers are from the unit interval and the current z lies
    between the lowest z allowed at this place and 0, then the next z lies
    in that range too and differs from the current one by at most
    0.6 * dt, while x and y move by the strategy's motion vector times dt. *)
Theorem getNextLocation3D_z_in_range_and_slow
  (currentLocation : Vector3) (bounds : Bounds2) (dt : Q)
  (draws : RandomDraws) (this : RandomWalkMotionStrategy) :
  walkingInBounds this -> 0 <= dt -> unitDraws draws ->
  getMinZ bounds currentLocation <= v3_z currentLocation ->
  v3_z currentLocation <= 0 ->
  let next := fst (step currentLocation bounds dt draws this) in
  let after := snd (step currentLocation bounds dt draws this) in
  getMinZ bounds currentLocation <= v3_z next /\ v3_z next <= 0
  /\ - (MAX_Z_VELOCITY * dt) <= v3_z next - v3_z currentLocation
  /\ v3_z next - v3_z currentLocation <= MAX_Z_VELOCITY * dt
  /\ v3_x next
     == v3_x currentLocation + v_x (currentMotionVector2D after) * dt
  /\ v3_y next
     == v3_y currentLocation + v_y (currentMotionVector2D after) * dt.
Proof.
  intros Hthis Hdt Hdraws Hlow Hhigh. cbn zeta.
  destruct (getNextLocation3D_keeps_walking_in_bounds currentLocation bounds
              dt draws this Hthis Hdt Hdraws) as [(_ & _ & Hz0 & Hz1) _].
  fold step in Hz0, Hz1.
  set (after := snd (step currentLocation bounds dt draws this)) in *.
  assert (Hnext : fst (step currentLocation bounds dt draws this)
                  = mkVector3
                      (v3_x currentLocation
                       + v_x (currentMotionVector2D after) * dt)
                      (v3_y currentLocation
                       + v_y (currentMotionVector2D after) * dt)
                      (clamp (v3_z currentLocation
                              + currentZVelocity after * dt)
                         (getMinZ bounds currentLocation) 0))
    by reflexivity.
  rewrite Hnext. cbn [v3_x v3_y v3_z].
  set (vz := currentZVelocity after) in *.
  set (z := v3_z currentLocation) in *.
  set (minZ := getMinZ bounds currentLocation) in *.
  assert (Horder : minZ <= 0) by lra.
  destruct (clamp_range (z + vz * dt) minZ 0 Horder) as [Hc0 Hc1].
  destruct (clamp_between (z + vz * dt) minZ 0 z Hlow Hhigh)
    as [Hdown Hup].
  assert (Hspeed : - (MAX_Z_VELOCITY * dt) <= vz * dt
                   /\ vz * dt <= MAX_Z_VELOCITY * dt) by (split; nra).
  destruct Hspeed as [Hs0 Hs1].
  repeat split; try assumption; try reflexivity.
  - destruct (Qlt_le_dec (z + vz * dt) z) as [Hlt|Hge].
    + destruct Hdown as [Hd _]; lra.
    + destruct Hup as [Hu _]; lra.
  - destruct (Qlt_le_dec (z + vz * dt) z) as [Hlt|Hge].
    + destruct Hdown as [_ Hd]; lra.
    + destruct Hup as [_ Hu]; lra.
Qed.

End RandomWalkProperties.

Lemma walk_keeps_countdown_and_z_speed_witness :
  let createPolarAtTurn := fun magnitude _ : Q => mkVector2 magnitude 0 in
  let getMotionVectorForBounce :=
    fun (_ : Bounds2) (v : Vector2) (_ _ : Q) => v in
  let getMinZ := fun (_ : Bounds2) (_ : Vector3) => -1 in
  let draws := mkRandomDraws (1 # 2) 0 (1 # 2) true (1 # 2) (1 # 2) in
  let steps :=
    [(mkVector3 0 0 0, mkBounds2 (-10) (-10) 10 10, 1 # 10, draws);
     (mkVector3 30 0 (-9 # 200), mkBounds2 20 (-10) 40 10, 1 # 10, draws)] in
  let this := RandomWalkMotionStrategy_new Unbounded in
  let after :=
    walk createPolarAtTurn getMotionVectorForBounce getMinZ steps this in
  walkingInBounds this /\ Forall soundStep steps
  /\ walkingInBounds after /\ 0 < directionChangeCountdown after.
Proof.
  cbn zeta.
  assert (Hthis : walkingInBounds (RandomWalkMotionStrategy_new Unbounded))
    by (repeat split; vm_compute; discriminate).
  assert (Hsteps :
            Forall soundStep
              [(mkVector3 0 0 0, mkBounds2 (-10) (-10) 10 10, 1 # 10,
                mkRandomDraws (1 # 2) 0 (1 # 2) true (1 # 2) (1 # 2));
               (mkVector3 30 0 (-9 # 200), mkBounds2 20 (-10) 40 10, 1 # 10,
                mkRandomDraws (1 # 2) 0 (1 # 2) true (1 # 2) (1 # 2))])
    by (repeat constructor; vm_compute; (discriminate || reflexivity)).
  destruct (walk_keeps_countdown_and_z_speed
              (fun magnitude _ : Q => mkVector2 magnitude 0)
              (fun (_ : Bounds2) (v : Vector2) (_ _ : Q) => v)
              (fun (_ : Bounds2) (_ : Vector3) => -1)
              _ _ Hthis Hsteps) as [Hin Hpositive].
  split; [exact Hthis|]. split; [exact Hsteps|]. split; [exact Hin|].
  apply Hpositive. discriminate.
Defined.

Lemma getNextLocation3D_z_in_range_and_slow_witness :
  let createPolarAtTurn := fun magnitude _ : Q => mkVector2 magnitude 0 in
  let getMotionVectorForBounce :=
    fun (_ : Bounds2) (v : Vector2) (_ _ : Q) => v in
  let getMinZ := fun (_ : Bounds2) (_ : Vector3) => -1 in
  let draws := mkRandomDraws (1 # 2) 0 (1 # 2) true (1 # 2) (1 # 2) in
  let next :=
    fst (getNextLocation3D createPolarAtTurn getMotionVectorForBounce getMinZ
           (mkVector3 0 0 (-99 # 100)) (mkBounds2 (-10) (-10) 10 10) (1 # 10)
           draws (RandomWalkMotionStrategy_new Unbounded)) in
  -1 <= v3_z next /\ v3_z next <= 0
  /\ - (MAX_Z_VELOCITY * (1 # 10)) <= v3_z next - (-99 # 100)
  /\ v3_z next - (-99 # 100) <= MAX_Z_VELOCITY * (1 # 10)
  /\ v3_z next == -1 /\ v3_x next == 30.
Proof.
  cbn zeta.
  assert (Hthis : walkingInBounds (RandomWalkMotionStrategy_new Unbounded))
    by (repeat split; vm_compute; discriminate).
  assert (Hdraws :
            unitDraws (mkRandomDraws (1 # 2) 0 (1 # 2) true (1 # 2) (1 # 2)))
    by (repeat split; vm_compute; (discriminate || reflexivity)).
  assert (Hdt : 0 <= 1 # 10) by (vm_compute; discriminate).
  assert (Hlow : -1 <= -99 # 100) by (vm_compute; discriminate).
  assert (Hhigh : -99 # 100 <= 0) by (vm_compute; discriminate).
  destruct (getNextLocation3D_z_in_range_and_slow
              (fun magnitude _ : Q => mkVector2 magnitude 0)
              (fun (_ : Bounds2) (v : Vector2) (_ _ : Q) => v)
              (fun (_ : Bounds2) (_ : Vector3) => -1)
              (mkVector3 0 0 (-99 # 100)) (mkBounds2 (-10) (-10) 10 10)
              (1 # 10) _ _ Hthis Hdt Hdraws Hlow Hhigh)
    as (Hz0 & Hz1 & Hslow0 & Hslow1 & _).
  split; [exact Hz0|]. split; [exact Hz1|]. split; [exact Hslow0|].
  split; [exact Hslow1|]. split; vm_compute; reflexivity.
Defined.
